(** * vmel: the tokenizer (src/tokenizer.c) and its token manager

    A shallow embedding of [build_tokens], the [TokenMgr_*] functions and
    [is_valid_keyword], with the C objects they touch made explicit:

    - the input buffer is the whole [char] object behind [buff]; a read
      outside it is undefined behaviour;
    - [store] is the 100-byte scratch array of [build_tokens]; a write
      outside it is undefined behaviour;
    - a [TokenMgr] is its array of [Token *] slots, its counter and its
      cursor, together with the [Token] objects [malloc] has handed out;
    - a function whose C execution is undefined returns [Undefined] with
      the reason; every other result is [Done].

    tokenizer.c is modelled as it is written.  The struct declarations of
    include/tokenizer.h belong to another revision (its [TokenMgr] has no
    [toks] member and names the cursor [tok_curr], its [Token.value] is a
    pointer, its [TokenMgr_add_token] takes a line number), so the layout
    is the one tokenizer.c uses: [toks] an array inside the manager,
    [curr_tok] a pointer into it, [type] and [value] arrays that strcpy
    fills.  The model copies any string into them: it agrees with the
    code for the strings that fit the arrays ([fits_the_token]), which
    are the ones [build_tokens] hands over, and a statement about other
    callers says so.  The length of [toks] is left open: it is the
    length of the list that models it.  [KWORDS_SIZE] is the header's.

    [int] counters are unbounded [Z]: at the head of the loop each is
    bounded by the length of the buffer plus one, so that model and code
    agree on every buffer shorter than [INT_MAX] bytes.  [size_t] wraps
    modulo 2^64, [malloc] succeeds,
    and the [ctype.h] predicates are those of the C locale, with the
    bytes above 127 in no class. *)

From Stdlib Require Import ZArith Ascii String.
From stdpp Require Import base numbers list.

Local Open Scope Z_scope.

(** ** Outcomes of a C execution *)

Inductive fault : Type :=
| NullDeref          (* a null pointer is dereferenced or passed to strcmp *)
| BuffOverread       (* buff[i] outside the buffer object *)
| StoreOverflow      (* store[i] outside the 100-byte scratch array *)
| ToksOutOfBounds    (* toks[i] outside the array of the manager *)
| IndeterminateRead  (* the value of an object that was never assigned *)
| UnterminatedRead.  (* a string read that meets no terminator *)

Inductive outcome (A : Type) : Type :=
| Done (a : A)
| Undefined (f : fault)
| OutOfFuel.

Arguments Done {A} a.
Arguments Undefined {A} f.
Arguments OutOfFuel {A}.

Definition bind {A B : Type} (m : outcome A) (k : A -> outcome B) : outcome B :=
  match m with
  | Done a => k a
  | Undefined f => Undefined f
  | OutOfFuel => OutOfFuel
  end.

Notation "x <- m ;; k" := (bind m (fun x => k))
  (at level 20, m at level 99, k at level 200, only parsing).
Notation "' p <- m ;; k" := (bind m (fun x => match x with p => k end))
  (at level 20, p pattern, m at level 99, k at level 200, only parsing).

(** ** Characters *)

(** Modelled from the spec: tokens.h, which defines the character
    macros of tokenizer.c, is not among the sources.  The spec names the
    operators [!=], [<=], [>=], [><], the punctuation [(] [)] [+] [-]
    [*] [/] [=], the quote of a string literal and the braces of a
    group; each macro below is the character its name and the spec give
    it.  [COMMENT] and [VAR] are named by neither and stay parameters of
    the scanner. *)
Definition NUL : ascii := "000"%char.
Definition NEWLINE : ascii := "010"%char.
Definition BANG : ascii := "!"%char.
Definition EQUAL : ascii := "="%char.
Definition LPAREN : ascii := "("%char.
Definition RPAREN : ascii := ")"%char.
Definition LESSTHAN : ascii := "<"%char.
Definition GREATERTHAN : ascii := ">"%char.
Definition PLUS : ascii := "+"%char.
Definition MINUS : ascii := "-"%char.
Definition ASTERISK : ascii := "*"%char.
Definition FSLASH : ascii := "/"%char.
Definition DQUOTE : ascii := Eval cbv in ascii_of_nat 34.
Definition LBRACE : ascii := "{"%char.
Definition RBRACE : ascii := "}"%char.

Definition code (c : ascii) : Z := Z.of_N (N_of_ascii c).

(** ctype.h in the C locale. *)
Definition isspace (c : ascii) : bool :=
  (code c =? 32) || ((9 <=? code c) && (code c <=? 13)).

Definition isdigit (c : ascii) : bool :=
  (48 <=? code c) && (code c <=? 57).

Definition isalpha (c : ascii) : bool :=
  ((65 <=? code c) && (code c <=? 90)) || ((97 <=? code c) && (code c <=? 122)).

(** Modelled from the spec: is_valid_identifier is called by
    tokenizer.c and defined in none of the sources.  The spec's
    is_identifier_char: true for ASCII letters, digits, underscore. *)
Definition is_valid_identifier (c : ascii) : bool :=
  isalpha c || isdigit c || (code c =? 95).

(** ** Arrays of the C program *)

Definition in_bounds {A} (a : list A) (i : Z) : bool :=
  (0 <=? i) && (i <? Z.of_nat (length a)).

(** [a[i]] read, for an index the C code computes as an integer. *)
Definition at_index {A} (a : list A) (i : Z) : option A :=
  if 0 <=? i then a !! Z.to_nat i else None.

(** [buff[i]]. *)
Definition buff_at (buff : list ascii) (i : Z) : outcome ascii :=
  match at_index buff i with
  | Some c => Done c
  | None => Undefined BuffOverread
  end.

(** [char store[100]]: a cell is [None] until it is assigned. *)
Definition STORE_SIZE : nat := 100.

Definition store_new : list (option ascii) := replicate STORE_SIZE None.

(** [store[i] = c]. *)
Definition store_set (store : list (option ascii)) (i : Z) (c : ascii)
  : outcome (list (option ascii)) :=
  if in_bounds store i then Done (<[Z.to_nat i := Some c]> store)
  else Undefined StoreOverflow.

(** The string a [char] array holds: its cells up to the first NUL. *)
Fixpoint read_cstring (a : list (option ascii)) : outcome string :=
  match a with
  | [] => Undefined UnterminatedRead
  | None :: _ => Undefined IndeterminateRead
  | Some c :: a' =>
      if (c =? NUL)%char then Done EmptyString
      else s <- read_cstring a' ;; Done (String c s)
  end.

(** [size_t] arithmetic. *)
Definition size_t (z : Z) : Z := z mod 2 ^ 64.

(** ** Tokens and the token manager *)

(** What the program prints, one constructor per printf format. *)
Inductive message : Type :=
| ErrBufferInvalid                        (* build_tokens, buff == NULL *)
| ErrTokMgrInvalid                        (* build_tokens, tokmgr == NULL *)
| ErrAddTokenInvalid                      (* TokenMgr_add_token, tok_mgr == NULL *)
| ErrClearInvalid                         (* TokenMgr_clear_tokens, tok_mgr == NULL *)
| InvalidSyntax (unknown : string) (line : Z).
                                          (* build_tokens, error set: store and lineno *)

(** [struct Token] of tokenizer.h.  [TokenMgr_add_token] assigns [type],
    [value] and [val_length]; a field nobody assigned is [None]. *)
Record Token : Type := mkToken {
  type : string;
  value : string;
  val_length : Z;
  lineno : option Z
}.

(** A [Token *]: null, or the address of a [Token] that malloc returned. *)
Inductive tokptr : Type :=
| NULL
| At (a : nat).

Definition tokptr_eqb (p q : tokptr) : bool :=
  match p, q with
  | NULL, NULL => true
  | At a, At b => Nat.eqb a b
  | _, _ => false
  end.

(** The manager as tokenizer.c uses it: [toks] is an array of [Token *]
    inside the struct (its length is the capacity; a slot is [None] until
    assigned), [tok_ctr] a [size_t], [curr_tok] a [Token **] into [toks]
    (the index of the slot it points at, or [None] for null).  [heap] holds
    the [Token] objects allocated so far, each at the address that is its
    position. *)
Record TokenMgr : Type := mkTokenMgr {
  heap : list Token;
  toks : list (option tokptr);
  tok_ctr : Z;
  curr_tok : option Z
}.

(** [toks[i]] used as a value. *)
Definition slot (m : TokenMgr) (i : Z) : outcome tokptr :=
  match at_index (toks m) i with
  | None => Undefined ToksOutOfBounds
  | Some None => Undefined IndeterminateRead
  | Some (Some p) => Done p
  end.

(** [TokenMgr_new]: the struct comes from malloc, so its slots start
    unassigned.  [cap] is the length of [toks] in the struct declaration. *)
Definition TokenMgr_new (cap : nat) : TokenMgr :=
  {| heap := []; toks := replicate cap None; tok_ctr := 0; curr_tok := None |}.

Definition TokenMgr_current_token (tok_mgr : option TokenMgr) : outcome tokptr :=
  match tok_mgr with
  | None => Done NULL
  | Some m =>
      match curr_tok m with
      | None => Undefined NullDeref
      | Some i => slot m i
      end
  end.

(** The [Token] that lines 247-250 allocate and fill: [lineno] is not
    among the fields assigned.  The two strcpy are modelled for strings
    that fit the arrays they copy into ([type] of [TOKENTYPE_SIZE] bytes,
    [value] of the 100 bytes of [tok_val[100]]); a longer string is
    copied past the array in the code and kept whole here. *)
Definition new_token (tok_type tok_val : string) : Token :=
  {| type := tok_type; value := tok_val;
     val_length := Z.of_nat (String.length tok_val);
     lineno := None |}.

(** The manager after lines 247-252, when [toks[tok_ctr]] is a slot of
    the array. *)
Definition with_token (m : TokenMgr) (tok_type tok_val : string) : TokenMgr :=
  {| heap := heap m ++ [new_token tok_type tok_val];
     toks := <[Z.to_nat (tok_ctr m) := Some (At (length (heap m)))]> (toks m);
     tok_ctr := size_t (tok_ctr m + 1);
     curr_tok := curr_tok m |}.

(** Lines 241-254.  The call is undefined when [toks[tok_ctr]] is no
    slot of the array; the strings are those [new_token] is modelled
    for. *)
Definition TokenMgr_add_token (tok_mgr : option TokenMgr) (tok_type tok_val : string)
  : outcome (Z * option TokenMgr * list message) :=
  match tok_mgr with
  | None => Done (1, None, [ErrAddTokenInvalid])
  | Some m =>
      if in_bounds (toks m) (tok_ctr m) then Done (0, Some (with_token m tok_type tok_val), [])
      else Undefined ToksOutOfBounds
  end.

Definition set_curr_tok (m : TokenMgr) (c : option Z) : TokenMgr :=
  {| heap := heap m; toks := toks m; tok_ctr := tok_ctr m; curr_tok := c |}.

Definition TokenMgr_next_token (tok_mgr : option TokenMgr)
  : outcome (tokptr * option TokenMgr) :=
  match tok_mgr with
  | None => Done (NULL, None)
  | Some m =>
      match curr_tok m with
      | None =>
          let m' := set_curr_tok m (Some 0) in
          p <- slot m' 0;; Done (p, Some m')
      | Some i =>
          cur <- slot m i;;
          final <- slot m (size_t (tok_ctr m - 1));;
          if tokptr_eqb cur final then Done (NULL, Some m)
          else
            let m' := set_curr_tok m (Some (i + 1)) in
            p <- slot m' (i + 1);; Done (p, Some m')
      end
  end.

Definition TokenMgr_prev_token (tok_mgr : option TokenMgr)
  : outcome (tokptr * option TokenMgr) :=
  match tok_mgr with
  | None => Done (NULL, None)
  | Some m =>
      match curr_tok m with
      | None =>
          let i := size_t (tok_ctr m - 1) in
          let m' := set_curr_tok m (Some i) in
          p <- slot m' i;; Done (p, Some m')
      | Some i =>
          cur <- slot m i;;
          first <- slot m 0;;
          if tokptr_eqb cur first then Done (NULL, Some m)
          else
            let m' := set_curr_tok m (Some (i - 1)) in
            p <- slot m' (i - 1);; Done (p, Some m')
      end
  end.

Definition TokenMgr_reset_token (tok_mgr : option TokenMgr) : option TokenMgr :=
  match tok_mgr with
  | None => None
  | Some m => Some (set_curr_tok m None)
  end.

Definition TokenMgr_clear_tokens (tok_mgr : option TokenMgr)
  : option TokenMgr * list message :=
  match tok_mgr with
  | None => (None, [ErrClearInvalid])
  | Some m =>
      (Some {| heap := heap m; toks := toks m; tok_ctr := 0; curr_tok := None |}, [])
  end.

Definition get_first_token (tok_mgr : option TokenMgr) : outcome tokptr :=
  match tok_mgr with
  | None => Done NULL
  | Some m => if tok_ctr m <? 1 then Done NULL else slot m 0
  end.

Definition get_last_token (tok_mgr : option TokenMgr) : outcome tokptr :=
  match tok_mgr with
  | None => Done NULL
  | Some m => if tok_ctr m <? 1 then Done NULL else slot m (size_t (tok_ctr m - 1))
  end.

(** The [Token] a pointer designates. *)
Definition deref (m : TokenMgr) (p : tokptr) : option Token :=
  match p with
  | NULL => None
  | At a => heap m !! a
  end.

(** The tokens a manager holds, in slot order: those of slots
    [0 .. tok_ctr - 1]. *)
Definition tokens (m : TokenMgr) : list (option Token) :=
  (fun s => s ≫= deref m) <$> take (Z.to_nat (tok_ctr m)) (toks m).

(** The [Token] behind [toks[i]], as [toks[i]->type] reaches it. *)
Definition token_at (m : TokenMgr) (i : Z) : outcome Token :=
  p <- slot m i ;;
  match p with
  | NULL => Undefined NullDeref
  | At a =>
      match heap m !! a with
      | Some t => Done t
      | None => Undefined IndeterminateRead
      end
  end.

(** The for loop of [TokenMgr_print_tokens], with [n] iterations to go
    from index [i] on: one line per token, its [type] and its [value]. *)
Fixpoint print_loop (m : TokenMgr) (i : Z) (n : nat) : outcome (list (string * string)) :=
  match n with
  | O => Done []
  | S n' =>
      t <- token_at m i ;;
      rest <- print_loop m (i + 1) n' ;;
      Done ((type t, value t) :: rest)
  end.

(** [TokenMgr_print_tokens]: what it prints.  Unlike the other functions
    of the manager it reads [tok_mgr->tok_ctr] without a null test. *)
Definition TokenMgr_print_tokens (tok_mgr : option TokenMgr)
  : outcome (list (string * string)) :=
  match tok_mgr with
  | None => Undefined NullDeref
  | Some m => print_loop m 0 (Z.to_nat (tok_ctr m))
  end.

(** The for loop of [TokenMgr_free]: the pointers it hands to [free], in
    call order. *)
Fixpoint free_loop (m : TokenMgr) (i : Z) (n : nat) : outcome (list tokptr) :=
  match n with
  | O => Done []
  | S n' =>
      p <- slot m i ;;
      rest <- free_loop m (i + 1) n' ;;
      Done (p :: rest)
  end.

(** [TokenMgr_free]: the status, what is printed, and the [Token]
    pointers freed; the manager itself is freed last and is gone
    afterwards.  The complaint about a null manager is the text
    [TokenMgr_clear_tokens] prints as well. *)
Definition TokenMgr_free (tok_mgr : option TokenMgr)
  : outcome (Z * list message * list tokptr) :=
  match tok_mgr with
  | None => Done (1, [ErrClearInvalid], [])
  | Some m =>
      freed <- free_loop m 0 (Z.to_nat (tok_ctr m)) ;;
      Done (0, [], freed)
  end.

(** ** The keyword table *)

Definition KWORDS_SIZE : nat := 5.

(** [static const char *R_Keywords[KWORDS_SIZE] = { print, if, else }]: the
    elements past the initialisers are null pointers. *)
Definition R_Keywords : list (option string) :=
  let init : list string := ["print"; "if"; "else"]%string in
  (Some <$> init) ++ replicate (KWORDS_SIZE - length init) None.

(** [strcmp(t, str) == 0]. *)
Definition strcmp_eq (t str : option string) : outcome bool :=
  match t, str with
  | Some a, Some b => Done (String.eqb a b)
  | _, _ => Undefined NullDeref
  end.

(** The for loop of [is_valid_keyword] over the elements
    [R_Keywords[x]], [x < KWORDS_SIZE], that are still to be compared. *)
Fixpoint keyword_loop (table : list (option string)) (str : string) : outcome Z :=
  match table with
  | [] => Done 0
  | t :: rest =>
      same <- strcmp_eq t (Some str);;
      if same then Done 1 else keyword_loop rest str
  end.

Definition is_valid_keyword (str : option string) : outcome Z :=
  match str with
  | None => Done 0
  | Some s => keyword_loop (take KWORDS_SIZE R_Keywords) s
  end.

(** ** build_tokens *)

(** The locals of [build_tokens] ([store], [bidx], [stctr], [error],
    [lineno]), the manager [tokmgr] points at, and what has been printed.
    The [int] counters are integers without bound: the code agrees with
    them while they stay below 2^31, which they do on every buffer
    shorter than that. *)
Record scanner : Type := mkScanner {
  s_store : list (option ascii);
  s_bidx : Z;
  s_stctr : Z;
  s_error : Z;
  s_lineno : Z;
  s_mgr : TokenMgr;
  s_out : list message
}.

Definition set_bidx (s : scanner) (i : Z) : scanner :=
  mkScanner (s_store s) i (s_stctr s) (s_error s) (s_lineno s) (s_mgr s) (s_out s).

Definition set_store (s : scanner) (st : list (option ascii)) : scanner :=
  mkScanner st (s_bidx s) (s_stctr s) (s_error s) (s_lineno s) (s_mgr s) (s_out s).

Definition set_stctr (s : scanner) (n : Z) : scanner :=
  mkScanner (s_store s) (s_bidx s) n (s_error s) (s_lineno s) (s_mgr s) (s_out s).

Definition set_error (s : scanner) (e : Z) : scanner :=
  mkScanner (s_store s) (s_bidx s) (s_stctr s) e (s_lineno s) (s_mgr s) (s_out s).

Definition set_lineno (s : scanner) (n : Z) : scanner :=
  mkScanner (s_store s) (s_bidx s) (s_stctr s) (s_error s) n (s_mgr s) (s_out s).

Definition set_mgr (s : scanner) (m : TokenMgr) (printed : list message) : scanner :=
  mkScanner (s_store s) (s_bidx s) (s_stctr s) (s_error s) (s_lineno s) m
            (s_out s ++ printed).

(** [store[stctr++] = c]. *)
Definition push (s : scanner) (c : ascii) : outcome scanner :=
  st <- store_set (s_store s) (s_stctr s) c ;;
  Done (set_stctr (set_store s st) (s_stctr s + 1)).

(** [store[stctr] = 0]. *)
Definition terminate (s : scanner) : outcome scanner :=
  st <- store_set (s_store s) (s_stctr s) NUL ;;
  Done (set_store s st).

(** [c = buff[++bidx]]. *)
Definition advance (buff : list ascii) (s : scanner) : outcome (ascii * scanner) :=
  c <- buff_at buff (s_bidx s + 1) ;;
  Done (c, set_bidx s (s_bidx s + 1)).

(** [TokenMgr_add_token(tokmgr, ty, v)] with the result ignored. *)
Definition emit (s : scanner) (ty v : string) : outcome scanner :=
  r <- TokenMgr_add_token (Some (s_mgr s)) ty v ;;
  match r with
  | (_, Some m, printed) => Done (set_mgr s m printed)
  | (_, None, printed) => Done (set_mgr s (s_mgr s) printed)
  end.

(** [TokenMgr_add_token(tokmgr, ty, store)]. *)
Definition emit_store (s : scanner) (ty : string) : outcome scanner :=
  v <- read_cstring (s_store s) ;;
  emit s ty v.

(** [while (cond(c)) { store[stctr++] = c; c = buff[++bidx]; }], the
    accumulation loop of the string, identifier, integer, group, keyword
    and unknown-text branches. *)
Fixpoint accumulate (cond : ascii -> bool) (fuel : nat) (buff : list ascii)
    (c : ascii) (s : scanner) : outcome (ascii * scanner) :=
  match fuel with
  | O => OutOfFuel
  | S fuel' =>
      if cond c then
        s1 <- push s c ;;
        '(c', s2) <- advance buff s1 ;;
        accumulate cond fuel' buff c' s2
      else Done (c, s)
  end.

(** [while (c != NEWLINE && c != 0) { c = buff[++bidx]; }]. *)
Fixpoint skip_comment (fuel : nat) (buff : list ascii) (c : ascii) (s : scanner)
  : outcome (ascii * scanner) :=
  match fuel with
  | O => OutOfFuel
  | S fuel' =>
      if negb (c =? NEWLINE)%char && negb (c =? NUL)%char then
        '(c', s1) <- advance buff s ;;
        skip_comment fuel' buff c' s1
      else Done (c, s)
  end.

Definition in_string (c : ascii) : bool :=
  negb (c =? DQUOTE)%char && negb (c =? NUL)%char && negb (c =? NEWLINE)%char.

Section Scanner.

(** The two macros of tokens.h that neither the sources nor the spec
    give a character to. *)
Variables COMMENT VAR : ascii.

(** Line 211-212.  [c != VAR & c != NEWLINE] is the bitwise and of two
    comparisons, each 0 or 1, so the condition is the conjunction of the
    seven inequalities. *)
Definition in_unknown (c : ascii) : bool :=
  negb (c =? COMMENT)%char && negb (c =? LBRACE)%char && negb (c =? RBRACE)%char
  && negb (c =? DQUOTE)%char && (negb (c =? VAR)%char && negb (c =? NEWLINE)%char)
  && negb (c =? EQUAL)%char.

(** One pass through the body of the while loop of [build_tokens], entered
    with [c = buff[bidx]]. *)
Definition loop_body (buff : list ascii) (s : scanner) (c : ascii) : outcome scanner :=
  let fuel := length buff in
  if (c =? COMMENT)%char then
    '(_, s1) <- skip_comment fuel buff c s ;;
    Done s1
  else if (c =? NEWLINE)%char then
    Done (set_bidx (set_lineno s (s_lineno s + 1)) (s_bidx s + 1))
  else if (c =? BANG)%char then
    n <- buff_at buff (s_bidx s + 1) ;;
    if (n =? EQUAL)%char then
      s1 <- emit s "OPERATOR" "NOTEQUALTO" ;;
      Done (set_bidx s1 (s_bidx s1 + 1 + 1))
    else
      s1 <- emit s "OPERATOR" "NOT" ;;
      Done (set_bidx s1 (s_bidx s1 + 1))
  else if isspace c then
    Done (set_bidx s (s_bidx s + 1))
  else if (c =? LPAREN)%char then
    s1 <- emit s "LPAREN" "(" ;;
    Done (set_bidx s1 (s_bidx s1 + 1))
  else if (c =? RPAREN)%char then
    s1 <- emit s "RPAREN" ")" ;;
    Done (set_bidx s1 (s_bidx s1 + 1))
  else if (c =? LESSTHAN)%char then
    n <- buff_at buff (s_bidx s + 1) ;;
    if (n =? EQUAL)%char then
      s1 <- emit s "OPERATOR" "LTEQTO" ;;
      Done (set_bidx s1 (s_bidx s1 + 1 + 1))
    else
      s1 <- emit s "OPERATOR" "LESSTHAN" ;;
      Done (set_bidx s1 (s_bidx s1 + 1))
  else if (c =? GREATERTHAN)%char then
    '(n, s1) <- advance buff s ;;
    if (n =? EQUAL)%char then
      s2 <- emit s1 "OPERATOR" "GTEQTO" ;;
      Done (set_bidx s2 (s_bidx s2 + 1))
    else if (n =? LESSTHAN)%char then
      s2 <- emit s1 "OPERATOR" "BETWEEN" ;;
      Done (set_bidx s2 (s_bidx s2 + 1))
    else
      s2 <- emit (set_bidx s1 (s_bidx s1 - 1)) "OPERATOR" "GREATERTHAN" ;;
      Done (set_bidx s2 (s_bidx s2 + 1))
  else if (c =? EQUAL)%char then
    n <- buff_at buff (s_bidx s + 1) ;;
    if (n =? EQUAL)%char then
      s1 <- emit s "OPERATOR" "EQUALTO" ;;
      Done (set_bidx s1 (s_bidx s1 + 1 + 1))
    else
      s1 <- emit s "OPERATOR" "EQUAL" ;;
      Done (set_bidx s1 (s_bidx s1 + 1))
  else if (c =? PLUS)%char then
    s1 <- emit s "OPERATOR" "PLUS" ;;
    Done (set_bidx s1 (s_bidx s1 + 1))
  else if (c =? MINUS)%char then
    s1 <- emit s "OPERATOR" "MINUS" ;;
    Done (set_bidx s1 (s_bidx s1 + 1))
  else if (c =? ASTERISK)%char then
    s1 <- emit s "OPERATOR" "ASTERISK" ;;
    Done (set_bidx s1 (s_bidx s1 + 1))
  else if (c =? FSLASH)%char then
    s1 <- emit s "OPERATOR" "FSLASH" ;;
    Done (set_bidx s1 (s_bidx s1 + 1))
  else if (c =? DQUOTE)%char then
    '(c1, s1) <- advance buff s ;;
    '(c2, s2) <- accumulate in_string fuel buff c1 s1 ;;
    s3 <- terminate s2 ;;
    if negb (c2 =? DQUOTE)%char then Done (set_error s3 1)
    else
      s4 <- emit_store s3 "STRING" ;;
      Done (set_bidx (set_stctr s4 0) (s_bidx s4 + 1))
  else if (c =? VAR)%char then
    '(c1, s1) <- advance buff s ;;
    '(_, s2) <- accumulate is_valid_identifier fuel buff c1 s1 ;;
    s3 <- terminate s2 ;;
    s4 <- emit_store s3 "IDENTIFIER" ;;
    Done (set_stctr s4 0)
  else if isdigit c then
    '(_, s1) <- accumulate isdigit fuel buff c s ;;
    s2 <- terminate s1 ;;
    s3 <- emit_store s2 "INTEGER" ;;
    Done (set_stctr s3 0)
  else if (c =? LBRACE)%char then
    '(c1, s1) <- advance buff s ;;
    if negb (is_valid_identifier c1) then
      s2 <- push s1 c1 ;;
      s3 <- terminate s2 ;;
      Done (set_error s3 1)
    else
      '(c2, s2) <- accumulate is_valid_identifier fuel buff c1 s1 ;;
      s3 <- terminate s2 ;;
      if negb (c2 =? RBRACE)%char then Done (set_error s3 1)
      else
        s4 <- emit_store s3 "GROUP" ;;
        Done (set_bidx (set_stctr s4 0) (s_bidx s4 + 1))
  else if isalpha c then
    '(_, s1) <- accumulate is_valid_identifier fuel buff c s ;;
    s2 <- terminate s1 ;;
    str <- read_cstring (s_store s2) ;;
    kw <- is_valid_keyword (Some str) ;;
    if negb (kw =? 0) then
      s3 <- emit s2 "KEYWORD" str ;;
      Done (set_stctr s3 0)
    else Done (set_stctr (set_error s2 1) 0)
  else
    s1 <- push s c ;;
    '(c1, s2) <- advance buff s1 ;;
    '(_, s3) <- accumulate in_unknown fuel buff c1 s2 ;;
    s4 <- terminate s3 ;;
    Done (set_error s4 1).

(** [while (buff[bidx] != 0 && !error) { c = buff[bidx]; ... }]. *)
Fixpoint scan_loop (fuel : nat) (buff : list ascii) (s : scanner) : outcome scanner :=
  match fuel with
  | O => OutOfFuel
  | S fuel' =>
      c <- buff_at buff (s_bidx s) ;;
      if negb (c =? NUL)%char && (s_error s =? 0) then
        s1 <- loop_body buff s c ;;
        scan_loop fuel' buff s1
      else Done s
  end.

(** The locals as declared at lines 27-37. *)
Definition scanner_init (m : TokenMgr) : scanner :=
  {| s_store := store_new; s_bidx := 0; s_stctr := 0; s_error := 0;
     s_lineno := 1; s_mgr := m; s_out := [] |}.

(** Lines 221-224: the report of an error and the value returned. *)
Definition finish (s : scanner) : outcome (Z * option TokenMgr * list message) :=
  if negb (s_error s =? 0) then
    unknown <- read_cstring (s_store s) ;;
    Done (s_error s, Some (s_mgr s), s_out s ++ [InvalidSyntax unknown (s_lineno s)])
  else Done (s_error s, Some (s_mgr s), s_out s).

(** [build_tokens(buff, tokmgr)]: the status returned, the manager
    afterwards, and what was printed.  Every pass through the loop that
    leaves [error] clear moves [bidx] forward inside the buffer, so the
    length of the buffer plus one bounds the number of loop tests. *)
Definition build_tokens (buff : option (list ascii)) (tokmgr : option TokenMgr)
  : outcome (Z * option TokenMgr * list message) :=
  match buff with
  | None => Done (1, tokmgr, [ErrBufferInvalid])
  | Some b =>
      match tokmgr with
      | None => Done (1, None, [ErrTokMgrInvalid])
      | Some m =>
          s <- scan_loop (S (length b)) b (scanner_init m) ;;
          finish s
      end
  end.

End Scanner.

(** A source text as the buffer that holds it: its characters and the
    terminating NUL. *)
Definition c_string (src : string) : list ascii :=
  list_ascii_of_string src ++ [NUL].

(** The spec's [scan]: [build_tokens] over a buffer and a manager fresh
    from [TokenMgr_new] whose array has [cap] slots; the status, the
    tokens the manager then holds, and what was printed. *)
Definition scan (COMMENT VAR : ascii) (cap : nat) (buff : list ascii)
  : outcome (Z * list (option Token) * list message) :=
  '(status, tm, printed) <-
     build_tokens COMMENT VAR (Some buff) (Some (TokenMgr_new cap)) ;;
  Done (status, from_option tokens [] tm, printed).

(** [n] successive calls of [TokenMgr_next_token]: the pointers returned,
    in call order, and the manager afterwards. *)
Fixpoint next_n (n : nat) (tm : option TokenMgr) : outcome (list tokptr * option TokenMgr) :=
  match n with
  | O => Done ([], tm)
  | S n' =>
      '(p, tm1) <- TokenMgr_next_token tm ;;
      '(ps, tm2) <- next_n n' tm1 ;;
      Done (p :: ps, tm2)
  end.

(** [n] successive calls of [TokenMgr_prev_token]. *)
Fixpoint prev_n (n : nat) (tm : option TokenMgr) : outcome (list tokptr * option TokenMgr) :=
  match n with
  | O => Done ([], tm)
  | S n' =>
      '(p, tm1) <- TokenMgr_prev_token tm ;;
      '(ps, tm2) <- prev_n n' tm1 ;;
      Done (p :: ps, tm2)
  end.

(** A manager as [TokenMgr_new], [TokenMgr_add_token] and
    [TokenMgr_clear_tokens] leave it: the counter is within the array, and
    the slots below it hold the addresses [addrs] of distinct allocated
    tokens. *)
Definition holds (m : TokenMgr) (addrs : list nat) : Prop :=
  Z.of_nat (length (toks m)) < 2 ^ 64
  /\ tok_ctr m = Z.of_nat (length addrs)
  /\ take (length addrs) (toks m) = (fun a => Some (At a)) <$> addrs
  /\ NoDup addrs
  /\ Forall (fun a => (a < length (heap m))%nat) addrs.

(** ** What the statements speak of *)

(** The spec's is_keyword: exact match against print, if, else. *)
Definition spec_is_keyword (text : string) : bool :=
  existsb (fun k => String.eqb k text) ["print"; "if"; "else"]%string.

(** The scanner after an operator token [v] has been appended and [k]
    characters consumed. *)
Definition operator_token (s : scanner) (v : string) (k : Z) : scanner :=
  mkScanner (s_store s) (s_bidx s + k) (s_stctr s) (s_error s) (s_lineno s)
            (with_token (s_mgr s) "OPERATOR" v) (s_out s).

(** The store with [run] written from cell [j] on. *)
Definition written (store : list (option ascii)) (j : nat) (run : list ascii)
  : list (option ascii) :=
  take j store ++ (Some <$> run) ++ drop (j + length run) store.

(** The scratch array with [text] and its terminator written from cell 0. *)
Definition terminated (store : list (option ascii)) (text : list ascii)
  : list (option ascii) :=
  (Some <$> text) ++ Some NUL :: drop (S (length text)) store.

(** [s1] differs from [s] in the scratch array and its counter at most. *)
Definition same_frame (s s1 : scanner) : Prop :=
  s_error s1 = s_error s /\ s_lineno s1 = s_lineno s
  /\ s_mgr s1 = s_mgr s /\ s_out s1 = s_out s.

(** The run did not stop for lack of fuel. *)
Definition fueled {A : Type} (m : outcome A) : Prop := m <> OutOfFuel.

(** A token whose line was never assigned. *)
Definition no_line (t : Token) : Prop := lineno t = None.

(** The states in which [build_tokens], run on [buff] and the manager
    [m], tests the condition of its loop: the initial one, and each one
    a pass through the body leaves. *)
Inductive loop_head (COMMENT VAR : ascii) (buff : list ascii) (m : TokenMgr)
  : scanner -> Prop :=
| head_initial : loop_head COMMENT VAR buff m (scanner_init m)
| head_after_pass (s : scanner) (c : ascii) (s' : scanner) :
    loop_head COMMENT VAR buff m s ->
    buff_at buff (s_bidx s) = Done c -> c <> NUL -> s_error s = 0 ->
    loop_body COMMENT VAR buff s c = Done s' ->
    loop_head COMMENT VAR buff m s'.

(** The number of newlines among characters. *)
Fixpoint newlines (l : list ascii) : Z :=
  match l with
  | [] => 0
  | c :: l' => (if (c =? NEWLINE)%char then 1 else 0) + newlines l'
  end.

(** The character [x] is at none of the positions [i .. j - 1] of the
    buffer. *)
Definition free_of (x : ascii) (buff : list ascii) (i j : Z) : Prop :=
  forall k, i <= k < j -> buff_at buff k <> Done x.

(** The values [build_tokens] gives to a token of type OPERATOR. *)
Definition operator_names : list string :=
  ["NOTEQUALTO"; "NOT"; "LTEQTO"; "LESSTHAN"; "GTEQTO"; "BETWEEN"; "GREATERTHAN";
   "EQUALTO"; "EQUAL"; "PLUS"; "MINUS"; "ASTERISK"; "FSLASH"]%string.

(** A token as [build_tokens] makes them: [val_length] is the length of
    the value, the value fits the scratch array with its terminator, and
    it is what the type stands for: the name of an operator, a
    parenthesis, the characters of a string literal, the characters of
    an identifier (at least one for a group), a digit or more, one of
    the keywords. *)
Definition well_formed (t : Token) : bool :=
  let text := list_ascii_of_string (value t) in
  (val_length t =? Z.of_nat (length text))
  && (length text <? STORE_SIZE)%nat
  && (if String.eqb (type t) "OPERATOR" then existsb (String.eqb (value t)) operator_names
      else if String.eqb (type t) "LPAREN" then String.eqb (value t) "("
      else if String.eqb (type t) "RPAREN" then String.eqb (value t) ")"
      else if String.eqb (type t) "STRING" then forallb in_string text
      else if String.eqb (type t) "IDENTIFIER" then forallb is_valid_identifier text
      else if String.eqb (type t) "INTEGER" then
        match text with [] => false | _ => forallb isdigit text end
      else if String.eqb (type t) "GROUP" then
        match text with [] => false | _ => forallb is_valid_identifier text end
      else if String.eqb (type t) "KEYWORD" then spec_is_keyword (value t)
      else false).

(** The cells of the scratch array below [stctr] have been assigned. *)
Definition assigned (s : scanner) : Prop :=
  exists j : nat,
    s_stctr s = Z.of_nat j
    /\ forall i, (i < j)%nat -> exists c, s_store s !! i = Some (Some c).

(** The characters that lines 50-131 of [build_tokens] test for, between
    the test for the comment character and the test for the sigil: the
    newline, white space, and the characters of the operators, the
    parentheses and the string literals. *)
Definition fixed_character (c : ascii) : bool :=
  (c =? NEWLINE)%char || (c =? BANG)%char || isspace c || (c =? LPAREN)%char
  || (c =? RPAREN)%char || (c =? LESSTHAN)%char || (c =? GREATERTHAN)%char
  || (c =? EQUAL)%char || (c =? PLUS)%char || (c =? MINUS)%char
  || (c =? ASTERISK)%char || (c =? FSLASH)%char || (c =? DQUOTE)%char.



(** The scanner after a token has been appended and [k] characters
    consumed. *)
Definition token_appended (s : scanner) (ty v : string) (k : Z) : scanner :=
  mkScanner (s_store s) (s_bidx s + k) (s_stctr s) (s_error s) (s_lineno s)
            (with_token (s_mgr s) ty v) (s_out s).

(** The scanner after the text [run] has been accumulated from cell 0,
    a token made of it, and [k] characters consumed. *)
Definition text_token (s : scanner) (ty : string) (run : list ascii) (k : Z) : scanner :=
  mkScanner (terminated (s_store s) run) (s_bidx s + k) 0 (s_error s) (s_lineno s)
            (with_token (s_mgr s) ty (string_of_list_ascii run)) (s_out s).

(** The characters that are a token by themselves, with the type and
    the value of the token. *)
Definition single_character_tokens : list (ascii * (string * string)) :=
  [(LPAREN, ("LPAREN", "(")); (RPAREN, ("RPAREN", ")"));
   (PLUS, ("OPERATOR", "PLUS")); (MINUS, ("OPERATOR", "MINUS"));
   (ASTERISK, ("OPERATOR", "ASTERISK")); (FSLASH, ("OPERATOR", "FSLASH"))]%string.

(** The run did not end in the undefined step [f]. *)
Definition avoids {A : Type} (f : fault) (m : outcome A) : Prop := m <> Undefined f.

(** The two ways of reading the scratch array wrongly: a cell that was
    never written, and no terminator up to the end of the array. *)
Definition scratch_fault (f : fault) : Prop :=
  f = IndeterminateRead \/ f = UnterminatedRead.

(** The characters [build_tokens] reads each operator from. *)
Definition operator_texts : list (string * list ascii) :=
  [("NOTEQUALTO", [BANG; EQUAL]); ("NOT", [BANG]);
   ("LTEQTO", [LESSTHAN; EQUAL]); ("LESSTHAN", [LESSTHAN]);
   ("GTEQTO", [GREATERTHAN; EQUAL]); ("BETWEEN", [GREATERTHAN; LESSTHAN]);
   ("GREATERTHAN", [GREATERTHAN]);
   ("EQUALTO", [EQUAL; EQUAL]); ("EQUAL", [EQUAL]);
   ("PLUS", [PLUS]); ("MINUS", [MINUS]); ("ASTERISK", [ASTERISK]);
   ("FSLASH", [FSLASH])]%string.

(** A token written out as source text: the characters of an operator,
    the sigil before an identifier, the braces around a group, the
    quotes around a string literal, and the value itself for an integer,
    a keyword and a parenthesis. *)
Definition render (VAR : ascii) (t : Token) : list ascii :=
  let text := list_ascii_of_string (value t) in
  if String.eqb (type t) "OPERATOR" then
    from_option snd [] (find (fun p => String.eqb (value t) (fst p)) operator_texts)
  else if String.eqb (type t) "IDENTIFIER" then VAR :: text
  else if String.eqb (type t) "GROUP" then LBRACE :: text ++ [RBRACE]
  else if String.eqb (type t) "STRING" then DQUOTE :: text ++ [DQUOTE]
  else text.

(** Tokens written out one after the other, a space after each. *)
Fixpoint source (VAR : ascii) (ts : list Token) : list ascii :=
  match ts with
  | [] => []
  | t :: ts' => render VAR t ++ " "%char :: source VAR ts'
  end.

(** The comment character and the sigil are characters of their own:
    neither is one that the chain of tests gives another meaning, they
    differ, and the sigil is not the terminator of the buffer. *)
Definition plain_markers (COMMENT VAR : ascii) : bool :=
  negb (fixed_character COMMENT) && negb (isdigit COMMENT) && negb (isalpha COMMENT)
  && negb (COMMENT =? LBRACE)%char
  && negb (fixed_character VAR) && negb (isdigit VAR) && negb (isalpha VAR)
  && negb (VAR =? LBRACE)%char && negb (VAR =? COMMENT)%char && negb (VAR =? NUL)%char.

(** [s1] is [s] after a pass that consumed [k] characters, left the
    scratch counter at 0 and appended the token of the type and the value
    of [t]. *)
Definition passed (s s1 : scanner) (t : Token) (k : nat) : Prop :=
  s_bidx s1 = s_bidx s + Z.of_nat k /\ s_stctr s1 = 0
  /\ length (s_store s1) = STORE_SIZE /\ s_error s1 = s_error s
  /\ s_out s1 = s_out s /\ s_mgr s1 = with_token (s_mgr s) (type t) (value t).

(** The largest [int]: [bidx], [stctr] and [lineno] are [int] in the
    code, and a counter that would pass it is a signed overflow there. *)
Definition INT_MAX : Z := 2 ^ 31 - 1.

(** [TOKENTYPE_SIZE] of tokenizer.h, the size of [type] in
    [struct Token]. *)
Definition TOKENTYPE_SIZE : nat := 20.

(** The strings that lines 248-249 can copy into a [Token]: the type
    with its terminator fits the [TOKENTYPE_SIZE] bytes of [type], the
    value with its terminator the 100 bytes that the parameter
    [tok_val[100]] of line 241 declares.  A longer string is copied past
    the array: the model of [TokenMgr_add_token] agrees with the code
    for the strings that fit. *)
Definition fits_the_token (ty v : string) : Prop :=
  (String.length ty < TOKENTYPE_SIZE)%nat /\ (String.length v < STORE_SIZE)%nat.

(** [s1] is [s] after a pass that moved [k] characters on and appended
    one token to the store: a token of type [ty] and value [v], whose
    [val_length] is the length of [v] and whose line nobody assigned.
    The tokens held before are unchanged, the cursor has not moved, and
    the counters of the scanner are as they were. *)
Definition appends (s s1 : scanner) (ty v : string) (k : Z) : Prop :=
  s_bidx s1 = s_bidx s + k /\ s_stctr s1 = s_stctr s
  /\ s_error s1 = s_error s /\ s_lineno s1 = s_lineno s /\ s_out s1 = s_out s
  /\ tokens (s_mgr s1)
     = tokens (s_mgr s)
       ++ [Some {| type := ty; value := v;
                   val_length := Z.of_nat (String.length v); lineno := None |}]
  /\ tok_ctr (s_mgr s1) = tok_ctr (s_mgr s) + 1
  /\ curr_tok (s_mgr s1) = curr_tok (s_mgr s).


(** The array [store] holds the C string [text]: its first cells are
    the characters of [text], none of them NUL, and the cell after them
    is NUL. *)
Definition holds_text (store : list (option ascii)) (text : string) : Prop :=
  let run := list_ascii_of_string text in
  take (S (length run)) store = (Some <$> run) ++ [Some NUL]
  /\ Forall (fun c => c <> NUL) run.

(** * Properties *)

Local Arguments String.eqb : simpl never.
Local Arguments Ascii.eqb : simpl never.

(** ** The outcome monad *)

Lemma bind_Done {A B : Type} (m : outcome A) (k : A -> outcome B) (b : B) :
  bind m k = Done b -> exists a, m = Done a /\ k a = Done b.
Proof. destruct m as [a| |]; simpl; intros H; [eauto | discriminate | discriminate]. Qed.

Lemma bind_Done_eq {A B : Type} (m : outcome A) (k : A -> outcome B) (a : A) :
  m = Done a -> bind m k = k a.
Proof. intros ->. reflexivity. Qed.

Lemma bind_Undefined {A B : Type} (m : outcome A) (k : A -> outcome B) (f : fault) :
  m = Undefined f -> bind m k = Undefined f.
Proof. intros ->. reflexivity. Qed.

(** ** The keyword table *)

Lemma keyword_loop_outcome (s : string) :
  keyword_loop (take KWORDS_SIZE R_Keywords) s
  = if spec_is_keyword s then Done 1 else Undefined NullDeref.
Proof.
  unfold spec_is_keyword. simpl.
  destruct (String.eqb "print" s); [reflexivity|].
  destruct (String.eqb "if" s); [reflexivity|].
  destruct (String.eqb "else" s); reflexivity.
Qed.

(** C3 (the code departs from the claim).  [is_valid_keyword] answers 0
    on a null pointer and 1 on exactly the three keywords; on every other
    string, the empty one included, its loop goes on to [R_Keywords[3]],
    a null pointer, and hands it to strcmp: it does not return false
    there. *)
Theorem is_valid_keyword_outcome :
  is_valid_keyword None = Done 0
  /\ (forall s : string,
        is_valid_keyword (Some s)
        = if spec_is_keyword s then Done 1 else Undefined NullDeref)
  /\ is_valid_keyword (Some "foo"%string) = Undefined NullDeref
  /\ is_valid_keyword (Some ""%string) = Undefined NullDeref.
Proof.
  split; [reflexivity|]. split; [intros s; apply keyword_loop_outcome|].
  split; reflexivity.
Qed.

(** ** The cursor of the token manager *)

(** C4 (the code departs from the claim).  With the cursor unset,
    [TokenMgr_current_token] dereferences the null [curr_tok]: on a
    manager fresh from [TokenMgr_new], after [TokenMgr_reset_token] and
    after [TokenMgr_clear_tokens] the call is undefined, it does not
    return null. *)
Theorem current_token_unset_cursor :
  (forall cap, TokenMgr_current_token (Some (TokenMgr_new cap)) = Undefined NullDeref)
  /\ (forall m, TokenMgr_current_token (TokenMgr_reset_token (Some m)) = Undefined NullDeref)
  /\ (forall m, TokenMgr_current_token (TokenMgr_clear_tokens (Some m)).1
                = Undefined NullDeref).
Proof. repeat split; intros; reflexivity. Qed.

Lemma current_token_at_cursor (m : TokenMgr) (i : Z) (p : tokptr) :
  curr_tok m = Some i -> at_index (toks m) i = Some (Some p) ->
  TokenMgr_current_token (Some m) = Done p.
Proof. intros Hc Hs. unfold TokenMgr_current_token, slot. rewrite Hc, Hs. reflexivity. Qed.

(** C5 (the code departs from the claim).  On an empty store the first
    call of next or previous does not return null: on a fresh manager
    next uses the never-assigned [toks[0]] and previous addresses
    [toks[tok_ctr - 1]] with [tok_ctr = 0], outside the array; on a
    manager that was cleared after holding a token, next returns that
    stale token. *)
Theorem traversal_of_empty_store :
  (forall cap, TokenMgr_next_token (Some (TokenMgr_new (S cap)))
               = Undefined IndeterminateRead)
  /\ TokenMgr_prev_token (Some (TokenMgr_new 8)) = Undefined ToksOutOfBounds
  /\ (let m := with_token (TokenMgr_new 8) "INTEGER" "3" in
      let cleared := {| heap := heap m; toks := toks m; tok_ctr := 0; curr_tok := None |} in
      TokenMgr_clear_tokens (Some m) = (Some cleared, [])
      /\ tokens cleared = []
      /\ TokenMgr_next_token (Some cleared)
         = Done (At 0, Some (set_curr_tok cleared (Some 0)))).
Proof. repeat split; intros; reflexivity. Qed.

(** ** Appending to the token manager *)

Lemma add_token_room (m : TokenMgr) (ty v : string) :
  in_bounds (toks m) (tok_ctr m) = true ->
  TokenMgr_add_token (Some m) ty v = Done (0, Some (with_token m ty v), []).
Proof. intros H. unfold TokenMgr_add_token. rewrite H. reflexivity. Qed.

(** C6 (the code departs from the claim).  [TokenMgr_add_token] never
    grows the array and never tests the counter against it: once every
    slot is used, the next append writes [toks[tok_ctr]] past the end of
    the array. *)
Theorem add_token_full_store (m : TokenMgr) (ty v : string) :
  tok_ctr m = Z.of_nat (length (toks m)) ->
  TokenMgr_add_token (Some m) ty v = Undefined ToksOutOfBounds.
Proof.
  intros H. unfold TokenMgr_add_token, in_bounds. rewrite H.
  rewrite Z.ltb_irrefl, andb_false_r. reflexivity.
Qed.

Lemma add_token_full_store_witness :
  let m := with_token (with_token (TokenMgr_new 2) "INTEGER" "3") "OPERATOR" "PLUS" in
  tok_ctr m = Z.of_nat (length (toks m))
  /\ TokenMgr_add_token (Some m) "INTEGER" "4" = Undefined ToksOutOfBounds.
Proof.
  split; [reflexivity | apply add_token_full_store; reflexivity].
Defined.

(** ** The scanning loop *)

(** Decide the tests on closed characters. *)
Ltac decide_tests :=
  repeat match goal with
  | |- context [if ?b then _ else _] =>
      let r := eval vm_compute in b in
      lazymatch r with
      | true => change b with true
      | false => change b with false
      end; cbv iota
  end.

Lemma eqb_char_false (a b : ascii) : a <> b -> (a =? b)%char = false.
Proof. apply Ascii.eqb_neq. Qed.

Lemma eqb_char_false_sym (a b : ascii) : a <> b -> (b =? a)%char = false.
Proof. intros H. apply Ascii.eqb_neq. congruence. Qed.

Lemma emit_room (s : scanner) (ty v : string) :
  in_bounds (toks (s_mgr s)) (tok_ctr (s_mgr s)) = true ->
  emit s ty v
  = Done (mkScanner (s_store s) (s_bidx s) (s_stctr s) (s_error s) (s_lineno s)
                    (with_token (s_mgr s) ty v) (s_out s)).
Proof.
  intros H. unfold emit. rewrite (add_token_room _ _ _ H). simpl.
  unfold set_mgr. rewrite app_nil_r. reflexivity.
Qed.

Section Operators.

Variables COMMENT VAR : ascii.
Variable buff : list ascii.
Variable s : scanner.
Variable n : ascii.

Hypothesis room : in_bounds (toks (s_mgr s)) (tok_ctr (s_mgr s)) = true.
Hypothesis next_char : buff_at buff (s_bidx s + 1) = Done n.

Lemma loop_body_bang :
  COMMENT <> BANG ->
  loop_body COMMENT VAR buff s BANG
  = Done (if (n =? EQUAL)%char then operator_token s "NOTEQUALTO" 2
          else operator_token s "NOT" 1).
Proof.
  intros HC. unfold loop_body.
  rewrite (eqb_char_false_sym _ _ HC). decide_tests.
  rewrite next_char. simpl.
  destruct (n =? EQUAL)%char; rewrite (emit_room _ _ _ room); simpl;
    unfold operator_token, set_bidx; simpl; do 2 f_equal; lia.
Qed.

Lemma loop_body_lessthan :
  COMMENT <> LESSTHAN ->
  loop_body COMMENT VAR buff s LESSTHAN
  = Done (if (n =? EQUAL)%char then operator_token s "LTEQTO" 2
          else operator_token s "LESSTHAN" 1).
Proof.
  intros HC. unfold loop_body.
  rewrite (eqb_char_false_sym _ _ HC). decide_tests.
  rewrite next_char. simpl.
  destruct (n =? EQUAL)%char; rewrite (emit_room _ _ _ room); simpl;
    unfold operator_token, set_bidx; simpl; do 2 f_equal; lia.
Qed.

Lemma loop_body_greaterthan :
  COMMENT <> GREATERTHAN ->
  loop_body COMMENT VAR buff s GREATERTHAN
  = Done (if (n =? EQUAL)%char then operator_token s "GTEQTO" 2
          else if (n =? LESSTHAN)%char then operator_token s "BETWEEN" 2
          else operator_token s "GREATERTHAN" 1).
Proof.
  intros HC. unfold loop_body.
  rewrite (eqb_char_false_sym _ _ HC). decide_tests.
  unfold advance. rewrite next_char. simpl.
  destruct (n =? EQUAL)%char; [|destruct (n =? LESSTHAN)%char];
    rewrite emit_room by exact room; simpl;
    unfold operator_token, set_bidx; simpl; do 2 f_equal; lia.
Qed.

End Operators.

Section Loop.

Variables COMMENT VAR : ascii.
Variable buff : list ascii.

Lemma scan_loop_step (fuel : nat) (s : scanner) (c : ascii) :
  buff_at buff (s_bidx s) = Done c -> c <> NUL -> s_error s = 0 ->
  scan_loop COMMENT VAR (S fuel) buff s
  = bind (loop_body COMMENT VAR buff s c) (scan_loop COMMENT VAR fuel buff).
Proof.
  intros Hc Hn He. simpl. rewrite Hc. simpl.
  rewrite (eqb_char_false _ _ Hn), He. reflexivity.
Qed.

Lemma scan_loop_end_of_buffer (fuel : nat) (s : scanner) :
  buff_at buff (s_bidx s) = Done NUL ->
  scan_loop COMMENT VAR (S fuel) buff s = Done s.
Proof. intros Hc. simpl. rewrite Hc. reflexivity. Qed.

Lemma scan_loop_error_set (fuel : nat) (s : scanner) (c : ascii) :
  buff_at buff (s_bidx s) = Done c -> s_error s <> 0 ->
  scan_loop COMMENT VAR (S fuel) buff s = Done s.
Proof.
  intros Hc He. simpl. rewrite Hc. simpl.
  apply Z.eqb_neq in He. rewrite He, andb_false_r. reflexivity.
Qed.

End Loop.

Lemma tokens_one_token (cap : nat) (ty v : string) :
  tokens (with_token (TokenMgr_new (S cap)) ty v) = [Some (new_token ty v)].
Proof. reflexivity. Qed.

Lemma in_bounds_new (cap : nat) :
  in_bounds (toks (TokenMgr_new (S cap))) (tok_ctr (TokenMgr_new (S cap))) = true.
Proof.
  unfold in_bounds, TokenMgr_new. cbn [toks tok_ctr].
  rewrite length_replicate. apply andb_true_iff. split; [reflexivity | apply Z.ltb_lt; lia].
Qed.

(** A buffer that holds one operator of [k] characters and the
    terminator. *)
Lemma scan_single_operator (COMMENT VAR : ascii) (cap : nat) (buff : list ascii)
    (c : ascii) (v : string) (k : Z) :
  buff_at buff 0 = Done c -> c <> NUL -> buff_at buff k = Done NUL ->
  loop_body COMMENT VAR buff (scanner_init (TokenMgr_new (S cap))) c
  = Done (operator_token (scanner_init (TokenMgr_new (S cap))) v k) ->
  scan COMMENT VAR (S cap) buff
  = Done (0, [Some (new_token "OPERATOR" v)], []).
Proof.
  intros H0 Hc Hend Hbody. unfold scan, build_tokens.
  rewrite (scan_loop_step _ _ _ _ _ c); [| exact H0 | exact Hc | reflexivity].
  rewrite Hbody. simpl bind at 2.
  destruct buff as [|c0 rest]; [discriminate H0|].
  cbn [length]. rewrite scan_loop_end_of_buffer by exact Hend.
  simpl. rewrite tokens_one_token. reflexivity.
Qed.


(** C10.  Called with a null buffer, or with a buffer and a null token
    manager, [build_tokens] returns 1 after printing its complaint: the
    loop is not entered, nothing is appended, and a manager that was
    passed is left as it was. *)
Theorem build_tokens_null_argument (COMMENT VAR : ascii) :
  (forall tokmgr : option TokenMgr,
      build_tokens COMMENT VAR None tokmgr = Done (1, tokmgr, [ErrBufferInvalid]))
  /\ (forall buff : list ascii,
        build_tokens COMMENT VAR (Some buff) None = Done (1, None, [ErrTokMgrInvalid])).
Proof. split; intros; reflexivity. Qed.

(** ** Accumulation into the scratch array *)

Lemma drop_cons_inv {A} (l : list A) (n : nat) (x : A) (r : list A) :
  drop n l = x :: r -> l !! n = Some x /\ drop (S n) l = r.
Proof.
  intros H. split.
  - rewrite <- (Nat.add_0_r n), <- lookup_drop, H. reflexivity.
  - replace (S n) with (n + 1)%nat by lia. rewrite <- drop_drop, H. reflexivity.
Qed.

Lemma buff_at_drop (buff : list ascii) (i : Z) (c : ascii) (r : list ascii) :
  0 <= i -> drop (Z.to_nat i) buff = c :: r ->
  buff_at buff i = Done c /\ drop (Z.to_nat (i + 1)) buff = r.
Proof.
  intros Hi H. apply drop_cons_inv in H as [Hl Hd]. split.
  - unfold buff_at, at_index. destruct (Z.leb_spec 0 i); [|lia]. rewrite Hl. reflexivity.
  - rewrite Z2Nat.inj_add by lia. rewrite Nat.add_1_r. exact Hd.
Qed.

Lemma store_set_in (store : list (option ascii)) (j : nat) (c : ascii) :
  (j < length store)%nat ->
  store_set store (Z.of_nat j) c = Done (<[j := Some c]> store).
Proof.
  intros H. unfold store_set, in_bounds.
  destruct (Z.leb_spec 0 (Z.of_nat j)); [|lia].
  destruct (Z.ltb_spec (Z.of_nat j) (Z.of_nat (length store))); [|lia].
  rewrite Nat2Z.id. reflexivity.
Qed.

Lemma store_set_out (store : list (option ascii)) (j : nat) (c : ascii) :
  (length store <= j)%nat ->
  store_set store (Z.of_nat j) c = Undefined StoreOverflow.
Proof.
  intros H. unfold store_set, in_bounds.
  destruct (Z.ltb_spec (Z.of_nat j) (Z.of_nat (length store))); [lia|].
  rewrite andb_false_r. reflexivity.
Qed.

Lemma written_nil store j : written store j [] = store.
Proof. unfold written. simpl. rewrite Nat.add_0_r. apply take_drop. Qed.

Lemma written_cons store j c run :
  (j < length store)%nat ->
  written (<[j := Some c]> store) (S j) run = written store j (c :: run).
Proof.
  intros H. unfold written.
  rewrite (take_S_r _ j (Some c)) by (apply list_lookup_insert_eq; exact H).
  rewrite take_insert_ge by lia.
  rewrite drop_insert_lt by lia.
  rewrite <- app_assoc. simpl. do 3 f_equal. f_equal. lia.
Qed.

Lemma accumulate_run (cond : ascii -> bool) (buff : list ascii) (t : ascii) (post : list ascii) :
  cond t = false ->
  forall (run : list ascii) (fuel : nat) (s : scanner) (j : nat),
    0 <= s_bidx s ->
    drop (Z.to_nat (s_bidx s)) buff = run ++ t :: post ->
    Forall (fun c => cond c = true) run ->
    s_stctr s = Z.of_nat j ->
    (j + length run <= length (s_store s))%nat ->
    (length run < fuel)%nat ->
    accumulate cond fuel buff (hd t run) s
    = Done (t, mkScanner (written (s_store s) j run)
                         (s_bidx s + Z.of_nat (length run))
                         (Z.of_nat (j + length run))
                         (s_error s) (s_lineno s) (s_mgr s) (s_out s)).
Proof.
  intros Ht. induction run as [|c run IH]; intros fuel s j Hi Hd Hall Hj Hlen Hf.
  - destruct fuel as [|fuel]; [simpl in Hf; lia|]. simpl. rewrite Ht.
    rewrite written_nil, Z.add_0_r, Nat.add_0_r, <- Hj. destruct s; reflexivity.
  - destruct fuel as [|fuel]; [simpl in Hf; lia|].
    inversion Hall as [|? ? Hc Hall']; subst.
    simpl in Hd. apply buff_at_drop in Hd as [_ Hd]; [|exact Hi].
    simpl in Hlen.
    cbn [accumulate hd]. rewrite Hc.
    unfold push. rewrite Hj, store_set_in by lia. cbn [bind].
    unfold advance.
    assert (Hnext : buff_at buff (s_bidx s + 1) = Done (hd t run)).
    { destruct run as [|c' run']; simpl in Hd; apply buff_at_drop in Hd; try lia; apply Hd. }
    cbn [s_bidx set_stctr set_store]. rewrite Hnext. cbn [bind].
    rewrite (IH fuel _ (S j)); cbn [s_bidx s_stctr s_store s_error s_lineno s_mgr s_out set_bidx set_stctr set_store].
    + rewrite written_cons by lia. do 2 f_equal.
      f_equal; simpl length; lia.
    + lia.
    + exact Hd.
    + exact Hall'.
    + lia.
    + rewrite length_insert. lia.
    + simpl in Hf. lia.
Qed.

Lemma read_cstring_written (run : list ascii) (rest : list (option ascii)) :
  Forall (fun c => c <> NUL) run ->
  read_cstring ((Some <$> run) ++ Some NUL :: rest) = Done (string_of_list_ascii run).
Proof.
  induction 1 as [|c run Hc _ IH].
  - reflexivity.
  - rewrite fmap_cons. cbn [app read_cstring].
    rewrite (eqb_char_false _ _ Hc), IH. reflexivity.
Qed.

Lemma terminate_written (s : scanner) (store : list (option ascii)) (run : list ascii) :
  s_store s = written store 0 run -> s_stctr s = Z.of_nat (length run) ->
  (length run < length store)%nat ->
  terminate s = Done (set_store s ((Some <$> run) ++ Some NUL :: drop (S (length run)) store)).
Proof.
  intros Hs Hc Hlen. unfold terminate. rewrite Hc, store_set_in.
  2:{ rewrite Hs. unfold written. simpl. rewrite length_app, length_fmap, length_drop. lia. }
  simpl. do 2 f_equal. rewrite Hs. unfold written. simpl.
  rewrite insert_app_r_alt by (rewrite length_fmap; lia).
  rewrite length_fmap, Nat.sub_diag.
  rewrite (drop_S store) with (x := default None (store !! length run)).
  - reflexivity.
  - destruct (lookup_lt_is_Some_2 store (length run) Hlen) as [x Hx]. rewrite Hx. reflexivity.
Qed.

Lemma in_string_not_NUL (c : ascii) : in_string c = true -> c <> NUL.
Proof.
  unfold in_string. intros H Hc. subst c. discriminate H.
Qed.

Section StringLiteral.

Variables COMMENT VAR : ascii.
Variable buff : list ascii.
Variable s : scanner.
Variables (text : list ascii) (t : ascii) (post : list ascii).

Hypothesis comment_not_quote : COMMENT <> DQUOTE.
Hypothesis position : 0 <= s_bidx s.
Hypothesis literal : drop (Z.to_nat (s_bidx s)) buff = DQUOTE :: text ++ t :: post.
Hypothesis inside : Forall (fun c => in_string c = true) text.
Hypothesis ending : in_string t = false.
Hypothesis scratch_empty : s_stctr s = 0.
Hypothesis scratch_size : length (s_store s) = STORE_SIZE.

Lemma string_accumulated :
  (length text < STORE_SIZE)%nat ->
  loop_body COMMENT VAR buff s DQUOTE
  = (let s3 := mkScanner ((Some <$> text) ++ Some NUL :: drop (S (length text)) (s_store s))
                         (s_bidx s + 1 + Z.of_nat (length text))
                         (Z.of_nat (length text))
                         (s_error s) (s_lineno s) (s_mgr s) (s_out s) in
     if negb (t =? DQUOTE)%char then Done (set_error s3 1)
     else s4 <- emit_store s3 "STRING" ;;
          Done (set_bidx (set_stctr s4 0) (s_bidx s4 + 1))).
Proof.
  intros Hlen. unfold loop_body.
  rewrite (eqb_char_false_sym _ _ comment_not_quote). decide_tests.
  destruct (buff_at_drop _ _ _ _ position literal) as [_ Hd].
  assert (Hfuel : (length text < length buff)%nat).
  { assert (H := f_equal length literal). rewrite length_drop in H. simpl in H.
    rewrite length_app in H. simpl in H. lia. }
  assert (Hnext : buff_at buff (s_bidx s + 1) = Done (hd t text)).
  { destruct text as [|c' run']; simpl in Hd; apply buff_at_drop in Hd; try lia; apply Hd. }
  unfold advance. rewrite Hnext. cbn [bind].
  rewrite (accumulate_run in_string buff t post ending text _ _ 0%nat);
    cbn [s_bidx s_stctr s_store s_error s_lineno s_mgr s_out set_bidx].
  - cbn [bind]. rewrite (terminate_written _ (s_store s) text); cbn [s_store s_stctr].
    + reflexivity.
    + reflexivity.
    + reflexivity.
    + rewrite scratch_size. exact Hlen.
  - lia.
  - exact Hd.
  - exact inside.
  - exact scratch_empty.
  - rewrite scratch_size. simpl. lia.
  - exact Hfuel.
Qed.

End StringLiteral.

(** ** String literals *)

Lemma in_string_cases (t : ascii) :
  in_string t = false -> t = DQUOTE \/ t = NUL \/ t = NEWLINE.
Proof.
  unfold in_string. intros H.
  destruct (Ascii.eqb_spec t DQUOTE); [tauto|].
  destruct (Ascii.eqb_spec t NUL); [tauto|].
  destruct (Ascii.eqb_spec t NEWLINE); [tauto|]. discriminate H.
Qed.

Section StringLiteralOutcome.

Variables COMMENT VAR : ascii.
Variable buff : list ascii.
Variable s : scanner.
Variables (text : list ascii) (t : ascii) (post : list ascii).

Hypothesis comment_not_quote : COMMENT <> DQUOTE.
Hypothesis position : 0 <= s_bidx s.
Hypothesis literal : drop (Z.to_nat (s_bidx s)) buff = DQUOTE :: text ++ t :: post.
Hypothesis inside : Forall (fun c => in_string c = true) text.
Hypothesis scratch_empty : s_stctr s = 0.
Hypothesis scratch_size : length (s_store s) = STORE_SIZE.
Hypothesis fits : (length text < STORE_SIZE)%nat.

Lemma string_closed :
  t = DQUOTE ->
  in_bounds (toks (s_mgr s)) (tok_ctr (s_mgr s)) = true ->
  loop_body COMMENT VAR buff s DQUOTE
  = Done (mkScanner ((Some <$> text) ++ Some NUL :: drop (S (length text)) (s_store s))
                    (s_bidx s + Z.of_nat (length text) + 2) 0
                    (s_error s) (s_lineno s)
                    (with_token (s_mgr s) "STRING" (string_of_list_ascii text))
                    (s_out s)).
Proof.
  intros Ht Hroom. subst t.
  rewrite (string_accumulated COMMENT VAR buff s text DQUOTE post); try assumption; try reflexivity.
  cbv zeta. decide_tests. unfold emit_store. cbn [s_store].
  rewrite read_cstring_written.
  2:{ eapply Forall_impl; [exact inside|]. intros c Hc. apply in_string_not_NUL, Hc. }
  cbn [bind]. rewrite emit_room by exact Hroom. cbn [bind].
  unfold set_bidx, set_stctr. simpl. do 2 f_equal. lia.
Qed.

Lemma string_unterminated :
  in_string t = false -> t <> DQUOTE ->
  loop_body COMMENT VAR buff s DQUOTE
  = Done (mkScanner ((Some <$> text) ++ Some NUL :: drop (S (length text)) (s_store s))
                    (s_bidx s + Z.of_nat (length text) + 1) (Z.of_nat (length text))
                    1 (s_lineno s) (s_mgr s) (s_out s)).
Proof.
  intros Hend Ht.
  rewrite (string_accumulated COMMENT VAR buff s text t post); try assumption.
  cbv zeta. rewrite (eqb_char_false _ _ Ht). simpl.
  unfold set_error. simpl. do 2 f_equal. lia.
Qed.

End StringLiteralOutcome.

Lemma read_cstring_terminated store text :
  Forall (fun c => in_string c = true) text ->
  read_cstring (terminated store text) = Done (string_of_list_ascii text).
Proof.
  intros H. apply read_cstring_written.
  eapply Forall_impl; [exact H|]. intros c Hc. apply in_string_not_NUL, Hc.
Qed.

Lemma tokens_new (cap : nat) : tokens (TokenMgr_new cap) = [].
Proof. reflexivity. Qed.

Lemma string_literal_pass
    (COMMENT VAR : ascii) (buff : list ascii) (s : scanner)
    (text : list ascii) (t : ascii) (post : list ascii) (cap : nat) :
  COMMENT <> DQUOTE ->
  s_error s = 0 -> s_stctr s = 0 -> length (s_store s) = STORE_SIZE ->
  0 <= s_bidx s ->
  drop (Z.to_nat (s_bidx s)) buff = DQUOTE :: text ++ t :: post ->
  Forall (fun c => in_string c = true) text ->
  in_string t = false ->
  (length text < STORE_SIZE)%nat ->
  (t = DQUOTE ->
   in_bounds (toks (s_mgr s)) (tok_ctr (s_mgr s)) = true ->
   loop_body COMMENT VAR buff s DQUOTE
   = Done (mkScanner (terminated (s_store s) text)
                     (s_bidx s + Z.of_nat (length text) + 2) 0 (s_error s) (s_lineno s)
                     (with_token (s_mgr s) "STRING" (string_of_list_ascii text))
                     (s_out s)))
  /\ (t <> DQUOTE ->
      let failed := mkScanner (terminated (s_store s) text)
                              (s_bidx s + Z.of_nat (length text) + 1)
                              (Z.of_nat (length text)) 1 (s_lineno s) (s_mgr s) (s_out s) in
      loop_body COMMENT VAR buff s DQUOTE = Done failed
      /\ (forall fuel, scan_loop COMMENT VAR (S (S fuel)) buff s = Done failed)
      /\ finish failed
         = Done (1, Some (s_mgr s),
                 s_out s ++ [InvalidSyntax (string_of_list_ascii text) (s_lineno s)]))
  /\ scan COMMENT VAR (S cap) (DQUOTE :: text ++ [DQUOTE; NUL])
     = Done (0, [Some (new_token "STRING" (string_of_list_ascii text))], [])
  /\ scan COMMENT VAR cap (DQUOTE :: c_string "abc")
     = Done (1, [], [InvalidSyntax "abc" 1]).
Proof.
  intros HC He Hst Hsz Hpos Hlit Hin Hend Hfit.
  assert (Hbody : t <> DQUOTE ->
     loop_body COMMENT VAR buff s DQUOTE
     = Done (mkScanner (terminated (s_store s) text)
                              (s_bidx s + Z.of_nat (length text) + 1)
                              (Z.of_nat (length text)) 1 (s_lineno s) (s_mgr s) (s_out s))).
  { intros Ht. apply (string_unterminated COMMENT VAR buff s text t post); assumption. }
  split; [|split; [|split]].
  - intros Ht Hroom.
    apply (string_closed COMMENT VAR buff s text t post); assumption.
  - intros Ht failed. split; [exact (Hbody Ht)|]. split.
    + intros fuel.
      destruct (buff_at_drop _ _ _ _ Hpos Hlit) as [Hq _].
      rewrite (scan_loop_step _ _ _ _ _ DQUOTE); [| exact Hq | discriminate | exact He].
      rewrite (Hbody Ht). cbn [bind].
      apply (scan_loop_error_set _ _ _ _ _ t); [|discriminate].
      cbn [s_bidx].
      assert (Hd : drop (Z.to_nat (s_bidx s + Z.of_nat (length text) + 1)) buff = t :: post).
      { replace (Z.to_nat (s_bidx s + Z.of_nat (length text) + 1))
          with (Z.to_nat (s_bidx s) + S (length text))%nat by lia.
        rewrite <- drop_drop, Hlit. simpl. rewrite drop_app_length. reflexivity. }
      apply buff_at_drop in Hd; [apply Hd | lia].
    + unfold finish, failed. cbn [s_error s_store s_mgr s_out s_lineno].
      rewrite read_cstring_terminated by exact Hin. reflexivity.
  - assert (Hb : loop_body COMMENT VAR (DQUOTE :: text ++ [DQUOTE; NUL])
                   (scanner_init (TokenMgr_new (S cap))) DQUOTE
                 = Done (mkScanner (terminated store_new text)
                                   (Z.of_nat (length text) + 2) 0 0 1
                                   (with_token (TokenMgr_new (S cap)) "STRING"
                                               (string_of_list_ascii text)) [])).
    { apply (string_closed COMMENT VAR _ (scanner_init (TokenMgr_new (S cap))) text DQUOTE [NUL]);
        try assumption; reflexivity. }
    unfold scan, build_tokens.
    rewrite (scan_loop_step _ _ _ _ _ DQUOTE); [| reflexivity | discriminate | reflexivity].
    rewrite Hb. cbn [bind length].
    rewrite scan_loop_end_of_buffer.
    + unfold finish. cbn [s_error s_mgr s_out]. simpl. rewrite tokens_one_token. reflexivity.
    + cbn [s_bidx].
      assert (Hd : drop (Z.to_nat (Z.of_nat (length text) + 2)) (DQUOTE :: text ++ [DQUOTE; NUL])
                   = [NUL]).
      { replace (Z.to_nat (Z.of_nat (length text) + 2)) with (S (length text + 1)) by lia.
        cbn [drop]. rewrite <- drop_drop, drop_app_length. reflexivity. }
      apply buff_at_drop in Hd; [apply Hd | lia].
  - assert (Hb : loop_body COMMENT VAR (DQUOTE :: c_string "abc")
                   (scanner_init (TokenMgr_new cap)) DQUOTE
                 = Done (mkScanner (terminated store_new (list_ascii_of_string "abc"))
                                   4 3 1 1 (TokenMgr_new cap) [])).
    { apply (string_unterminated COMMENT VAR _ (scanner_init (TokenMgr_new cap))
               (list_ascii_of_string "abc") NUL []);
        try assumption; try reflexivity; try discriminate; try (simpl; lia).
      - repeat constructor.
      - vm_compute. lia. }
    unfold scan, build_tokens.
    rewrite (scan_loop_step _ _ _ _ _ DQUOTE); [| reflexivity | discriminate | reflexivity].
    rewrite Hb. cbn [bind length c_string].
    rewrite (scan_loop_error_set _ _ _ _ _ NUL); [| reflexivity | discriminate].
    reflexivity.
Qed.

Lemma accumulate_overflow (cond : ascii -> bool) (buff : list ascii) (c0 : ascii) :
  forall (run rest : list ascii) (fuel : nat) (s : scanner) (j : nat),
    0 <= s_bidx s ->
    drop (Z.to_nat (s_bidx s)) buff = run ++ rest ->
    Forall (fun c => cond c = true) run ->
    s_stctr s = Z.of_nat j ->
    (j <= length (s_store s) < j + length run)%nat ->
    (length (s_store s) - j < fuel)%nat ->
    accumulate cond fuel buff (hd c0 run) s = Undefined StoreOverflow.
Proof.
  induction run as [|c run IH]; intros rest fuel s j Hi Hd Hall Hj Hlen Hf.
  - simpl in Hlen. lia.
  - destruct fuel as [|fuel]; [lia|].
    inversion Hall as [|? ? Hc Hall']; subst.
    cbn [accumulate hd]. rewrite Hc. unfold push. rewrite Hj.
    destruct (Nat.eq_dec j (length (s_store s))) as [Heq|Hne].
    + rewrite store_set_out by lia. reflexivity.
    + rewrite store_set_in by lia. cbn [bind].
      simpl in Hd. apply buff_at_drop in Hd as [_ Hd]; [|exact Hi].
      simpl in Hlen.
      destruct run as [|c' run']; [simpl in Hlen; lia|].
      assert (Hnext : buff_at buff (s_bidx s + 1) = Done c').
      { simpl in Hd. apply buff_at_drop in Hd; [apply Hd | lia]. }
      unfold advance. cbn [s_bidx set_stctr set_store]. rewrite Hnext. cbn [bind].
      apply (IH rest fuel _ (S j));
        cbn [s_bidx s_stctr s_store set_bidx set_stctr set_store].
      * lia.
      * exact Hd.
      * exact Hall'.
      * lia.
      * rewrite length_insert. simpl in *. lia.
      * rewrite length_insert. lia.
Qed.

Lemma overlong_string_pass
    (COMMENT VAR : ascii) (buff : list ascii) (s : scanner)
    (text : list ascii) (t : ascii) (post : list ascii) :
  COMMENT <> DQUOTE ->
  s_stctr s = 0 -> length (s_store s) = STORE_SIZE ->
  0 <= s_bidx s ->
  drop (Z.to_nat (s_bidx s)) buff = DQUOTE :: text ++ t :: post ->
  Forall (fun c => in_string c = true) text ->
  in_string t = false ->
  (STORE_SIZE <= length text)%nat ->
  loop_body COMMENT VAR buff s DQUOTE = Undefined StoreOverflow.
Proof.
  intros HC Hst Hsz Hpos Hlit Hin Hend Hlong.
  unfold loop_body.
  rewrite (eqb_char_false_sym _ _ HC). decide_tests.
  destruct (buff_at_drop _ _ _ _ Hpos Hlit) as [_ Hd].
  assert (Hfuel : (length text < length buff)%nat).
  { assert (H := f_equal length Hlit). rewrite length_drop in H. simpl in H.
    rewrite length_app in H. simpl in H. lia. }
  assert (Hnext : buff_at buff (s_bidx s + 1) = Done (hd t text)).
  { destruct text as [|c' run']; simpl in Hd; apply buff_at_drop in Hd; try lia; apply Hd. }
  unfold advance. rewrite Hnext. cbn [bind].
  destruct (Nat.eq_dec (length text) STORE_SIZE) as [Heq|Hne].
  - rewrite (accumulate_run in_string buff t post Hend text _ _ 0%nat);
      cbn [s_bidx s_stctr s_store set_bidx]; try assumption; try lia.
    cbn [bind]. unfold terminate. cbn [s_stctr s_store].
    rewrite store_set_out; [reflexivity|].
    unfold written. simpl. rewrite length_app, length_fmap, length_drop. lia.
  - assert (Hacc : accumulate in_string (length buff) buff (hd t text)
                     (set_bidx s (s_bidx s + 1)) = Undefined StoreOverflow).
    { apply (accumulate_overflow in_string buff t text (t :: post) _ _ 0%nat);
        cbn [s_bidx s_stctr s_store set_bidx];
        [lia | exact Hd | exact Hin | exact Hst | lia | lia]. }
    rewrite Hacc. reflexivity.
Qed.

(** ** What one pass of the loop changes *)

Lemma store_set_length (store st : list (option ascii)) (i : Z) (c : ascii) :
  store_set store i c = Done st -> length st = length store.
Proof.
  unfold store_set. destruct (in_bounds store i); [|discriminate].
  intros H. injection H as <-. apply length_insert.
Qed.

Lemma push_frame (s s1 : scanner) (c : ascii) :
  push s c = Done s1 ->
  same_frame s s1 /\ s_bidx s1 = s_bidx s
  /\ length (s_store s1) = length (s_store s).
Proof.
  unfold push. intros H. apply bind_Done in H as (st & Hst & H).
  injection H as <-. repeat split. apply (store_set_length _ _ _ _ Hst).
Qed.

Lemma terminate_frame (s s1 : scanner) :
  terminate s = Done s1 ->
  same_frame s s1 /\ s_bidx s1 = s_bidx s /\ s_stctr s1 = s_stctr s
  /\ length (s_store s1) = length (s_store s).
Proof.
  unfold terminate. intros H. apply bind_Done in H as (st & Hst & H).
  injection H as <-. repeat split. apply (store_set_length _ _ _ _ Hst).
Qed.

Lemma advance_frame (buff : list ascii) (s s1 : scanner) (c : ascii) :
  advance buff s = Done (c, s1) ->
  same_frame s s1 /\ s_bidx s1 = s_bidx s + 1 /\ buff_at buff (s_bidx s1) = Done c
  /\ s_stctr s1 = s_stctr s
  /\ length (s_store s1) = length (s_store s).
Proof.
  unfold advance. intros H. apply bind_Done in H as (c' & Hc & H).
  injection H as <- <-. repeat split. exact Hc.
Qed.

Lemma same_frame_trans (s s1 s2 : scanner) :
  same_frame s s1 -> same_frame s1 s2 -> same_frame s s2.
Proof. unfold same_frame. intuition congruence. Qed.

Lemma accumulate_frame (cond : ascii -> bool) (buff : list ascii) :
  forall (fuel : nat) (c : ascii) (s : scanner) (c' : ascii) (s1 : scanner),
    accumulate cond fuel buff c s = Done (c', s1) ->
    same_frame s s1 /\ s_bidx s <= s_bidx s1
    /\ (cond c = true -> s_bidx s < s_bidx s1)
    /\ (buff_at buff (s_bidx s) = Done c -> buff_at buff (s_bidx s1) = Done c')
    /\ cond c' = false
    /\ length (s_store s1) = length (s_store s).
Proof.
  induction fuel as [|fuel IH]; intros c s c' s1 H; [discriminate H|].
  simpl in H. destruct (cond c) eqn:Hc.
  - apply bind_Done in H as (s2 & Hp & H).
    apply bind_Done in H as ([c2 s3] & Ha & H).
    apply push_frame in Hp as (Hf1 & Hb1 & Hl1).
    apply advance_frame in Ha as (Hf2 & Hb2 & Hr & _ & Hl2).
    apply IH in H as (Hf3 & Hle & _ & Hrd & Hc' & Hl3).
    split; [|split; [|split; [|split; [|split]]]].
    + eapply same_frame_trans; [|exact Hf3]. eapply same_frame_trans; eassumption.
    + lia.
    + intros _. lia.
    + intros _. apply Hrd, Hr.
    + exact Hc'.
    + congruence.
  - injection H as <- <-. repeat split; try lia; try congruence; auto.
Qed.

Lemma skip_comment_frame (buff : list ascii) :
  forall (fuel : nat) (c : ascii) (s : scanner) (c' : ascii) (s1 : scanner),
    skip_comment fuel buff c s = Done (c', s1) ->
    same_frame s s1 /\ s_bidx s <= s_bidx s1
    /\ (c <> NEWLINE -> c <> NUL -> s_bidx s < s_bidx s1)
    /\ s_stctr s1 = s_stctr s
    /\ length (s_store s1) = length (s_store s).
Proof.
  induction fuel as [|fuel IH]; intros c s c' s1 H; [discriminate H|].
  simpl in H.
  destruct (Ascii.eqb_spec c NEWLINE) as [Hn|Hn]; simpl in H.
  { injection H as <- <-. repeat split; try lia; congruence. }
  destruct (Ascii.eqb_spec c NUL) as [Hz|Hz]; simpl in H.
  { injection H as <- <-. repeat split; try lia; congruence. }
  apply bind_Done in H as ([c2 s3] & Ha & H).
  apply advance_frame in Ha as (Hf2 & Hb2 & _ & Hst & Hl2).
  apply IH in H as (Hf3 & Hle & _ & Hst' & Hl3).
  split; [|split; [|split; [|split]]].
  - eapply same_frame_trans; eassumption.
  - lia.
  - intros _ _. lia.
  - congruence.
  - congruence.
Qed.

Lemma emit_frame (s s1 : scanner) (ty v : string) :
  emit s ty v = Done s1 ->
  s_mgr s1 = with_token (s_mgr s) ty v
  /\ in_bounds (toks (s_mgr s)) (tok_ctr (s_mgr s)) = true
  /\ s_error s1 = s_error s /\ s_lineno s1 = s_lineno s /\ s_out s1 = s_out s
  /\ s_bidx s1 = s_bidx s /\ s_stctr s1 = s_stctr s
  /\ s_store s1 = s_store s.
Proof.
  unfold emit, TokenMgr_add_token. intros H.
  destruct (in_bounds (toks (s_mgr s)) (tok_ctr (s_mgr s))); [|discriminate H].
  simpl in H. injection H as <-. unfold set_mgr. simpl. rewrite app_nil_r.
  repeat split.
Qed.

Lemma emit_store_frame (s s1 : scanner) (ty : string) :
  emit_store s ty = Done s1 ->
  exists v, s_mgr s1 = with_token (s_mgr s) ty v
  /\ in_bounds (toks (s_mgr s)) (tok_ctr (s_mgr s)) = true
  /\ s_error s1 = s_error s /\ s_lineno s1 = s_lineno s /\ s_out s1 = s_out s
  /\ s_bidx s1 = s_bidx s /\ s_stctr s1 = s_stctr s
  /\ s_store s1 = s_store s.
Proof.
  unfold emit_store. intros H. apply bind_Done in H as (v & _ & H).
  exists v. apply emit_frame, H.
Qed.

Lemma isalpha_identifier (c : ascii) : isalpha c = true -> is_valid_identifier c = true.
Proof. unfold is_valid_identifier. intros ->. reflexivity. Qed.

(** Take apart a run of the monad that ended in [Done]. *)
Ltac crack :=
  repeat match goal with
  | H : bind _ _ = Done _ |- _ =>
      let a := fresh "a" in
      let Ha := fresh "Ha" in
      apply bind_Done in H; destruct H as (a & Ha & H); cbv beta in H
  | H : match ?p with pair _ _ => _ end = Done _ |- _ => destruct p
  | H : (if ?b then _ else _) = Done _ |- _ => destruct b eqn:?
  | H : Done _ = Done _ |- _ => injection H as H; try subst
  | H : Undefined _ = Done _ |- _ => discriminate H
  | H : OutOfFuel = Done _ |- _ => discriminate H
  end.

(** Replace what is known of each primitive by what it leaves unchanged. *)
Ltac frames :=
  repeat match goal with
  | H : push _ _ = Done _ |- _ => apply push_frame in H; destruct H as (? & ? & ?)
  | H : terminate _ = Done _ |- _ =>
      apply terminate_frame in H; destruct H as (? & ? & ? & ?)
  | H : advance _ _ = Done _ |- _ =>
      apply advance_frame in H; destruct H as (? & ? & ? & ? & ?)
  | H : accumulate _ _ _ _ _ = Done _ |- _ =>
      apply accumulate_frame in H; destruct H as (? & ? & ? & ? & ? & ?)
  | H : skip_comment _ _ _ _ = Done _ |- _ =>
      apply skip_comment_frame in H; destruct H as (? & ? & ? & ? & ?)
  | H : emit _ _ _ = Done _ |- _ =>
      apply emit_frame in H; destruct H as (? & ? & ? & ? & ? & ? & ? & ?)
  | H : emit_store _ _ = Done _ |- _ =>
      apply emit_store_frame in H; destruct H as (? & ? & ? & ? & ? & ? & ? & ? & ?)
  | H : same_frame _ _ |- _ => destruct H as (? & ? & ? & ?)
  end.

Section OnePass.

Variables COMMENT VAR : ascii.
Variable buff : list ascii.

Lemma loop_body_effect (s : scanner) (c : ascii) (s' : scanner) :
  c <> NUL ->
  buff_at buff (s_bidx s) = Done c ->
  loop_body COMMENT VAR buff s c = Done s' ->
  s_out s' = s_out s
  /\ s_lineno s'
     = s_lineno s + (if negb (c =? COMMENT)%char && (c =? NEWLINE)%char then 1 else 0)
  /\ length (s_store s') = length (s_store s)
  /\ s_bidx s <= s_bidx s'
  /\ (COMMENT <> NEWLINE -> s_bidx s < s_bidx s')
  /\ ((s_error s' = s_error s /\ (COMMENT <> NEWLINE -> s_bidx s < s_bidx s')
       /\ (s_mgr s' = s_mgr s \/ exists ty v, s_mgr s' = with_token (s_mgr s) ty v)
       /\ (s_stctr s = 0 -> s_stctr s' = 0))
      \/ (s_error s' = 1 /\ s_mgr s' = s_mgr s
          /\ exists c', buff_at buff (s_bidx s') = Done c')).
Proof.
  intros Hc Hread H. unfold loop_body in H.
  destruct (Ascii.eqb_spec c COMMENT) as [HisC|HnotC].
  { subst c. crack. frames. simpl in *.
    split; [congruence|]. split; [lia|]. split; [congruence|]. split; [lia|].
    split; [auto|]. left. repeat split; try congruence; auto. }
  destruct (c =? NEWLINE)%char eqn:Hnl.
  { crack. simpl. split; [reflexivity|]. split; [lia|]. split; [reflexivity|].
    split; [lia|]. split; [intros; lia|].
    left. repeat split; try (intros; lia); auto. }
  cbn [negb andb].
  crack; frames;
    try (assert (is_valid_identifier c = true) by (apply isalpha_identifier; assumption));
    repeat match goal with
           | H : ?P -> _, H' : ?P |- _ => specialize (H H')
           end;
    simpl in *;
    (split; [congruence|]); (split; [lia|]); (split; [congruence|]); (split; [lia|]);
    (split; [intros _; lia|]);
    first
      [ left; split; [congruence|]; split; [intros _; lia|]; split;
        [ first [ left; congruence
                | right; eexists _, _; etransitivity; [eassumption|]; f_equal; congruence ]
        | intros; congruence ]
      | right; split; [reflexivity|]; split; [congruence|];
        match goal with
        | H : buff_at buff _ = Done ?x |- _ => exists x; rewrite <- H; f_equal; congruence
        end ].
Qed.

End OnePass.

(** ** Fuel *)

Lemma fueled_Done {A : Type} (a : A) : fueled (Done a).
Proof. discriminate. Qed.

Lemma fueled_Undefined {A : Type} (f : fault) : fueled (@Undefined A f).
Proof. discriminate. Qed.

Lemma fueled_bind {A B : Type} (m : outcome A) (k : A -> outcome B) :
  fueled m -> (forall a, m = Done a -> fueled (k a)) -> fueled (bind m k).
Proof.
  intros Hm Hk. destruct m as [a|f|]; simpl.
  - apply Hk. reflexivity.
  - discriminate.
  - contradiction Hm. reflexivity.
Qed.

Lemma fueled_buff_at (buff : list ascii) (i : Z) : fueled (buff_at buff i).
Proof. unfold buff_at. destruct (at_index buff i); discriminate. Qed.

Lemma fueled_store_set store i c : fueled (store_set store i c).
Proof. unfold store_set. destruct (in_bounds store i); discriminate. Qed.

Lemma fueled_read_cstring (a : list (option ascii)) : fueled (read_cstring a).
Proof.
  induction a as [|[c|] a IH]; simpl; try discriminate.
  destruct (c =? NUL)%char; [discriminate|].
  apply fueled_bind; [exact IH | intros; discriminate].
Qed.

Lemma fueled_push s c : fueled (push s c).
Proof. apply fueled_bind; [apply fueled_store_set | intros; discriminate]. Qed.

Lemma fueled_terminate s : fueled (terminate s).
Proof. apply fueled_bind; [apply fueled_store_set | intros; discriminate]. Qed.

Lemma fueled_advance buff s : fueled (advance buff s).
Proof. apply fueled_bind; [apply fueled_buff_at | intros; discriminate]. Qed.

Lemma fueled_emit s ty v : fueled (emit s ty v).
Proof.
  unfold emit, TokenMgr_add_token.
  destruct (in_bounds (toks (s_mgr s)) (tok_ctr (s_mgr s))); discriminate.
Qed.

Lemma fueled_emit_store s ty : fueled (emit_store s ty).
Proof.
  apply fueled_bind; [apply fueled_read_cstring | intros; apply fueled_emit].
Qed.

Lemma fueled_is_valid_keyword str : fueled (is_valid_keyword str).
Proof.
  destruct str as [s|]; [|discriminate]. unfold is_valid_keyword.
  rewrite keyword_loop_outcome. destruct (spec_is_keyword s); discriminate.
Qed.

Lemma buff_at_in_range (buff : list ascii) (i : Z) (c : ascii) :
  buff_at buff i = Done c -> 0 <= i < Z.of_nat (length buff).
Proof.
  unfold buff_at, at_index. destruct (Z.leb_spec 0 i); [|discriminate].
  destruct (buff !! Z.to_nat i) eqn:E; [|discriminate]. intros _.
  apply lookup_lt_Some in E. lia.
Qed.

Lemma fueled_accumulate (cond : ascii -> bool) (buff : list ascii) :
  forall (fuel : nat) (c : ascii) (s : scanner),
    buff_at buff (s_bidx s) = Done c ->
    Z.of_nat (length buff) <= Z.of_nat fuel + s_bidx s ->
    fueled (accumulate cond fuel buff c s).
Proof.
  induction fuel as [|fuel IH]; intros c s Hread Hfuel.
  - apply buff_at_in_range in Hread. lia.
  - simpl. destruct (cond c); [|discriminate].
    apply fueled_bind; [apply fueled_push|]. intros s1 Hp.
    apply fueled_bind; [apply fueled_advance|]. intros [c' s2] Ha.
    apply push_frame in Hp as (_ & Hb & _). apply advance_frame in Ha as (_ & Hb' & Hr & _).
    apply IH; [exact Hr | lia].
Qed.

Lemma fueled_skip_comment (buff : list ascii) :
  forall (fuel : nat) (c : ascii) (s : scanner),
    buff_at buff (s_bidx s) = Done c ->
    Z.of_nat (length buff) <= Z.of_nat fuel + s_bidx s ->
    fueled (skip_comment fuel buff c s).
Proof.
  induction fuel as [|fuel IH]; intros c s Hread Hfuel.
  - apply buff_at_in_range in Hread. lia.
  - simpl. destruct (negb (c =? NEWLINE)%char && negb (c =? NUL)%char); [|discriminate].
    apply fueled_bind; [apply fueled_advance|]. intros [c' s2] Ha.
    apply advance_frame in Ha as (_ & Hb' & Hr & _).
    apply IH; [exact Hr | lia].
Qed.

(** Walk through the goal, one primitive at a time. *)
Ltac fuel_step :=
  lazymatch goal with
  | |- fueled (Done _) => apply fueled_Done
  | |- fueled (if ?b then _ else _) => destruct b eqn:?
  | |- fueled (match ?p with pair _ _ => _ end) => destruct p
  | |- fueled (bind ?m _) =>
      apply fueled_bind;
      [ first [ apply fueled_buff_at | apply fueled_push | apply fueled_terminate
              | apply fueled_advance | apply fueled_emit | apply fueled_emit_store
              | apply fueled_read_cstring | apply fueled_is_valid_keyword
              | frames; apply fueled_accumulate;
                [ first [ eassumption | congruence ] | lia ]
              | frames; apply fueled_skip_comment;
                [ first [ eassumption | congruence ] | lia ] ]
      | let a := fresh "a" in let Ha := fresh "Ha" in intros a Ha; cbv beta ]
  end.

Section Fuel.

Variables COMMENT VAR : ascii.
Variable buff : list ascii.

Lemma fueled_loop_body (s : scanner) (c : ascii) :
  buff_at buff (s_bidx s) = Done c ->
  fueled (loop_body COMMENT VAR buff s c).
Proof.
  intros Hread. assert (Hr := buff_at_in_range _ _ _ Hread).
  unfold loop_body. repeat fuel_step.
Qed.

End Fuel.

Section Termination.

Variables COMMENT VAR : ascii.
Variable buff : list ascii.
Hypothesis comment_not_newline : COMMENT <> NEWLINE.

Lemma fueled_scan_loop :
  forall (fuel : nat) (s : scanner),
    (0 < fuel)%nat ->
    Z.of_nat (length buff) < Z.of_nat fuel + s_bidx s ->
    fueled (scan_loop COMMENT VAR fuel buff s).
Proof.
  induction fuel as [|fuel IH]; intros s Hpos Hfuel; [lia|].
  simpl. apply fueled_bind; [apply fueled_buff_at|]. intros c Hread.
  destruct (Ascii.eqb_spec c NUL) as [Hz|Hz]; [apply fueled_Done|].
  destruct (Z.eqb_spec (s_error s) 0) as [He|He]; [|apply fueled_Done].
  cbn [negb andb].
  apply fueled_bind; [apply fueled_loop_body, Hread|]. intros s1 Hbody.
  assert (Hr := buff_at_in_range _ _ _ Hread).
  destruct (loop_body_effect COMMENT VAR buff s c s1 Hz Hread Hbody)
    as (_ & _ & _ & _ & _ & [(_ & Hprog & _) | (Herr & _ & c' & Hread')]).
  - specialize (Hprog comment_not_newline). apply IH; lia.
  - destruct fuel as [|fuel']; [lia|].
    rewrite (scan_loop_error_set _ _ _ _ _ c'); [apply fueled_Done| exact Hread' | lia].
Qed.

Lemma fueled_finish (s : scanner) : fueled (finish s).
Proof.
  unfold finish. destruct (negb (s_error s =? 0)); [|apply fueled_Done].
  apply fueled_bind; [apply fueled_read_cstring | intros; apply fueled_Done].
Qed.

End Termination.

(** The fuel [build_tokens] gives its loop is never used up: whatever
    the buffer and the manager, the model ends in [Done] or in an
    undefined step of the C program.  (With the comment character equal
    to the newline, line 44-47 would loop for ever on a newline.) *)
Theorem build_tokens_never_out_of_fuel
    (COMMENT VAR : ascii) (buff : option (list ascii)) (tokmgr : option TokenMgr) :
  COMMENT <> NEWLINE ->
  build_tokens COMMENT VAR buff tokmgr <> OutOfFuel.
Proof.
  intros HCN. unfold build_tokens.
  destruct buff as [b|]; [|discriminate].
  destruct tokmgr as [m|]; [|discriminate].
  apply fueled_bind.
  - apply fueled_scan_loop; [exact HCN | lia | simpl; lia].
  - intros s _. apply fueled_finish.
Qed.

Lemma build_tokens_never_out_of_fuel_witness :
  "#"%char <> NEWLINE
  /\ build_tokens "#"%char "$"%char (Some (c_string "3 + 4")) (Some (TokenMgr_new 4))
     <> OutOfFuel.
Proof.
  split; [discriminate|].
  apply (build_tokens_never_out_of_fuel "#"%char "$"%char). discriminate.
Defined.

(** ** Line numbers *)

Section Lines.

Variables COMMENT VAR : ascii.
Variable buff : list ascii.

Lemma scan_loop_tokens :
  forall (fuel : nat) (s s' : scanner),
    scan_loop COMMENT VAR fuel buff s = Done s' ->
    exists new, heap (s_mgr s') = heap (s_mgr s) ++ new /\ Forall no_line new.
Proof.
  induction fuel as [|fuel IH]; intros s s' H; [discriminate H|].
  simpl in H. apply bind_Done in H as (c & Hread & H).
  destruct (Ascii.eqb_spec c NUL) as [Hz|Hz]; simpl in H.
  { injection H as <-. exists []. rewrite app_nil_r. split; [reflexivity|constructor]. }
  destruct (s_error s =? 0); simpl in H.
  2:{ injection H as <-. exists []. rewrite app_nil_r. split; [reflexivity|constructor]. }
  apply bind_Done in H as (s1 & Hbody & H).
  apply IH in H as (new & Hheap & Hnew).
  destruct (loop_body_effect COMMENT VAR buff s c s1 Hz Hread Hbody)
    as (_ & _ & _ & _ & _ & [(_ & _ & [Hm | (ty & v & Hm)] & _) | (_ & Hm & _)]).
  - exists new. rewrite Hheap, Hm. split; [reflexivity|exact Hnew].
  - exists (new_token ty v :: new). rewrite Hheap, Hm. simpl.
    rewrite <- app_assoc. split; [reflexivity|]. constructor; [reflexivity|exact Hnew].
  - exists new. rewrite Hheap, Hm. split; [reflexivity|exact Hnew].
Qed.

End Lines.

(** C1 (the code departs from the claim).  [TokenMgr_add_token] has no
    line parameter and assigns [type], [value] and [val_length] only, and
    [build_tokens] never hands it [lineno]: every [Token] a scan
    allocates has its [lineno] field unassigned, whatever the number of
    newlines before it. *)
Theorem tokens_carry_no_line
    (COMMENT VAR : ascii) (buff : list ascii) (m : TokenMgr)
    (status : Z) (tm' : option TokenMgr) (printed : list message) :
  build_tokens COMMENT VAR (Some buff) (Some m) = Done (status, tm', printed) ->
  exists m' new,
    tm' = Some m' /\ heap m' = heap m ++ new /\ Forall no_line new.
Proof.
  unfold build_tokens. intros H. apply bind_Done in H as (s & Hloop & H).
  apply scan_loop_tokens in Hloop as (new & Hheap & Hnew).
  exists (s_mgr s), new. unfold finish in H.
  destruct (negb (s_error s =? 0)).
  - apply bind_Done in H as (u & _ & H). injection H as _ <- _. auto.
  - injection H as _ <- _. auto.
Qed.

Lemma tokens_carry_no_line_witness :
  let buff := NEWLINE :: NEWLINE :: c_string "3 +" in
  let m' := with_token (with_token (TokenMgr_new 4) "INTEGER" "3") "OPERATOR" "PLUS" in
  build_tokens "#"%char "$"%char (Some buff) (Some (TokenMgr_new 4)) = Done (0, Some m', [])
  /\ tokens m' = [Some (mkToken "INTEGER" "3" 1 None); Some (mkToken "OPERATOR" "PLUS" 4 None)]
  /\ exists m1 new,
      Some m' = Some m1 /\ heap m1 = heap (TokenMgr_new 4) ++ new /\ Forall no_line new.
Proof.
  intros buff m'. split; [reflexivity|]. split; [reflexivity|].
  apply (tokens_carry_no_line "#"%char "$"%char buff (TokenMgr_new 4) 0 (Some m') []).
  reflexivity.
Defined.

(** ** Errors *)

Lemma isalpha_branch (c : ascii) :
  isalpha c = true ->
  (c =? NEWLINE)%char = false /\ (c =? BANG)%char = false /\ isspace c = false
  /\ (c =? LPAREN)%char = false /\ (c =? RPAREN)%char = false
  /\ (c =? LESSTHAN)%char = false /\ (c =? GREATERTHAN)%char = false
  /\ (c =? EQUAL)%char = false /\ (c =? PLUS)%char = false
  /\ (c =? MINUS)%char = false /\ (c =? ASTERISK)%char = false
  /\ (c =? FSLASH)%char = false /\ (c =? DQUOTE)%char = false
  /\ isdigit c = false /\ (c =? LBRACE)%char = false.
Proof.
  destruct c as [[] [] [] [] [] [] [] []]; intros H; vm_compute in H;
    try discriminate H; vm_compute; repeat split.
Qed.

Lemma identifier_not_NUL (c : ascii) : is_valid_identifier c = true -> c <> NUL.
Proof. intros H ->. discriminate H. Qed.

Lemma unknown_word_pass
    (COMMENT VAR : ascii) (buff : list ascii) (s : scanner)
    (c : ascii) (word : list ascii) (t : ascii) (post : list ascii) :
  c <> COMMENT -> c <> VAR -> isalpha c = true ->
  s_stctr s = 0 -> length (s_store s) = STORE_SIZE ->
  0 <= s_bidx s ->
  drop (Z.to_nat (s_bidx s)) buff = (c :: word) ++ t :: post ->
  Forall (fun x => is_valid_identifier x = true) word ->
  is_valid_identifier t = false ->
  (length (c :: word) < STORE_SIZE)%nat ->
  spec_is_keyword (string_of_list_ascii (c :: word)) = false ->
  loop_body COMMENT VAR buff s c = Undefined NullDeref.
Proof.
  intros HC HV Halpha Hst Hsz Hpos Hbuf Hword Ht Hfit Hkw.
  assert (Hrun : Forall (fun x => is_valid_identifier x = true) (c :: word)).
  { constructor; [apply isalpha_identifier, Halpha | exact Hword]. }
  destruct (isalpha_branch c Halpha)
    as (T1 & T2 & T3 & T4 & T5 & T6 & T7 & T8 & T9 & T10 & T11 & T12 & T13 & T14 & T15).
  unfold loop_body.
  rewrite (eqb_char_false _ _ HC), T1, T2, T3, T4, T5, T6, T7, T8, T9, T10, T11, T12, T13,
    (eqb_char_false _ _ HV), T14, T15, Halpha.
  assert (Hfuel : (length (c :: word) < length buff)%nat).
  { assert (H := f_equal length Hbuf). rewrite length_drop, length_app in H.
    simpl in H. simpl. lia. }
  change c with (hd t (c :: word)) at 1.
  rewrite (accumulate_run is_valid_identifier buff t post Ht (c :: word) _ _ 0%nat);
    try assumption; [|rewrite Hsz; simpl in *; lia].
  cbn [bind]. rewrite (terminate_written _ (s_store s) (c :: word)); cbn [s_store s_stctr];
    [| reflexivity | reflexivity | rewrite Hsz; exact Hfit].
  cbn [bind set_store s_store].
  rewrite read_cstring_written.
  2:{ eapply Forall_impl; [exact Hrun|]. intros x Hx. apply identifier_not_NUL, Hx. }
  cbn [bind]. unfold is_valid_keyword. rewrite keyword_loop_outcome, Hkw. reflexivity.
Qed.

(** ** Traversal of a store that holds tokens *)

Lemma set_curr_tok_same (m : TokenMgr) (c : option Z) :
  curr_tok m = c -> set_curr_tok m c = m.
Proof. destruct m. simpl. intros <-. reflexivity. Qed.

Lemma size_t_small (z : Z) : 0 <= z < 2 ^ 64 -> size_t z = z.
Proof. intros H. unfold size_t. apply Z.mod_small, H. Qed.

Section Traversal.

Variable m : TokenMgr.
Variable addrs : list nat.
Hypothesis store : holds m addrs.

Lemma holds_length : (length addrs <= length (toks m))%nat.
Proof.
  destruct store as (_ & _ & Ht & _).
  assert (H := f_equal length Ht). rewrite length_take, length_fmap in H. lia.
Qed.

Lemma holds_slot (c : option Z) (i : nat) (a : nat) :
  addrs !! i = Some a -> slot (set_curr_tok m c) (Z.of_nat i) = Done (At a).
Proof.
  intros Ha. destruct store as (_ & _ & Ht & _).
  assert (Hi := lookup_lt_Some _ _ _ Ha).
  unfold slot, at_index. cbn [toks set_curr_tok].
  destruct (Z.leb_spec 0 (Z.of_nat i)); [|lia]. rewrite Nat2Z.id.
  rewrite <- (lookup_take_lt (toks m) (length addrs) i Hi), Ht.
  rewrite list_lookup_fmap, Ha. reflexivity.
Qed.

Lemma holds_last_slot (c : option Z) (a : nat) :
  addrs !! (length addrs - 1)%nat = Some a ->
  slot (set_curr_tok m c) (size_t (tok_ctr m - 1)) = Done (At a).
Proof.
  intros Ha. assert (Hi := lookup_lt_Some _ _ _ Ha).
  assert (Hl := holds_length).
  destruct store as (Hcap & Hctr & _).
  rewrite Hctr, size_t_small by lia.
  replace (Z.of_nat (length addrs) - 1) with (Z.of_nat (length addrs - 1)) by lia.
  apply holds_slot, Ha.
Qed.

Lemma distinct_addresses (i j : nat) (a b : nat) :
  addrs !! i = Some a -> addrs !! j = Some b -> i <> j ->
  tokptr_eqb (At a) (At b) = false.
Proof.
  intros Ha Hb Hij. destruct store as (_ & _ & _ & Hnd & _).
  simpl. apply Nat.eqb_neq. intros ->.
  apply Hij. eapply NoDup_lookup; eassumption.
Qed.

Lemma next_from_unset (a : nat) :
  addrs !! 0%nat = Some a ->
  TokenMgr_next_token (Some (set_curr_tok m None))
  = Done (At a, Some (set_curr_tok m (Some 0))).
Proof.
  intros Ha. unfold TokenMgr_next_token. cbn [curr_tok set_curr_tok].
  change (slot _ 0) with (slot (set_curr_tok m (Some 0)) (Z.of_nat 0)).
  rewrite (holds_slot _ _ _ Ha). reflexivity.
Qed.

Lemma next_inside (i : nat) (b : nat) :
  addrs !! S i = Some b ->
  TokenMgr_next_token (Some (set_curr_tok m (Some (Z.of_nat i))))
  = Done (At b, Some (set_curr_tok m (Some (Z.of_nat (S i))))).
Proof.
  intros Hb. assert (Hi := lookup_lt_Some _ _ _ Hb).
  destruct (lookup_lt_is_Some_2 addrs i) as [a Ha]; [lia|].
  destruct (lookup_lt_is_Some_2 addrs (length addrs - 1)) as [z Hz]; [lia|].
  unfold TokenMgr_next_token. cbn [curr_tok set_curr_tok].
  change (slot _ (Z.of_nat i)) with (slot (set_curr_tok m (Some (Z.of_nat i))) (Z.of_nat i)).
  rewrite (holds_slot _ _ _ Ha). cbn [bind].
  change (tok_ctr _) with (tok_ctr m).
  change (slot _ (size_t (tok_ctr m - 1)))
    with (slot (set_curr_tok m (Some (Z.of_nat i))) (size_t (tok_ctr m - 1))).
  rewrite (holds_last_slot _ _ Hz). cbn [bind].
  rewrite (distinct_addresses i (length addrs - 1) a z Ha Hz) by lia.
  replace (Z.of_nat i + 1) with (Z.of_nat (S i)) by lia.
  change (slot _ (Z.of_nat (S i)))
    with (slot (set_curr_tok m (Some (Z.of_nat (S i)))) (Z.of_nat (S i))).
  rewrite (holds_slot _ _ _ Hb). reflexivity.
Qed.

Lemma next_at_the_last (i : nat) :
  S i = length addrs ->
  TokenMgr_next_token (Some (set_curr_tok m (Some (Z.of_nat i))))
  = Done (NULL, Some (set_curr_tok m (Some (Z.of_nat i)))).
Proof.
  intros Hi.
  destruct (lookup_lt_is_Some_2 addrs i) as [a Ha]; [lia|].
  unfold TokenMgr_next_token. cbn [curr_tok set_curr_tok].
  change (slot _ (Z.of_nat i)) with (slot (set_curr_tok m (Some (Z.of_nat i))) (Z.of_nat i)).
  rewrite (holds_slot _ _ _ Ha). cbn [bind].
  change (tok_ctr _) with (tok_ctr m).
  change (slot _ (size_t (tok_ctr m - 1)))
    with (slot (set_curr_tok m (Some (Z.of_nat i))) (size_t (tok_ctr m - 1))).
  rewrite (holds_last_slot _ a).
  2:{ replace (length addrs - 1)%nat with i by lia. exact Ha. }
  cbn [bind]. simpl. rewrite Nat.eqb_refl. reflexivity.
Qed.

Lemma next_n_inside :
  forall (k i : nat),
    (i + k < length addrs)%nat ->
    next_n k (Some (set_curr_tok m (Some (Z.of_nat i))))
    = Done (At <$> take k (drop (S i) addrs),
            Some (set_curr_tok m (Some (Z.of_nat (i + k))))).
Proof.
  induction k as [|k IH]; intros i Hik.
  - simpl. rewrite Nat.add_0_r. reflexivity.
  - destruct (lookup_lt_is_Some_2 addrs (S i)) as [b Hb]; [lia|].
    cbn [next_n]. rewrite (next_inside i b Hb). cbn [bind].
    rewrite (IH (S i)) by lia. cbn [bind].
    rewrite (drop_S addrs b (S i) Hb). cbn [take fmap list_fmap].
    replace (S i + k)%nat with (i + S k)%nat by lia. reflexivity.
Qed.

Lemma prev_from_unset (a : nat) :
  addrs !! (length addrs - 1)%nat = Some a ->
  TokenMgr_prev_token (Some (set_curr_tok m None))
  = Done (At a, Some (set_curr_tok m (Some (Z.of_nat (length addrs - 1))))).
Proof.
  intros Ha. assert (Hi := lookup_lt_Some _ _ _ Ha). assert (Hl := holds_length).
  unfold TokenMgr_prev_token. cbn [curr_tok set_curr_tok tok_ctr].
  assert (Hsz : size_t (tok_ctr m - 1) = Z.of_nat (length addrs - 1)).
  { destruct store as (Hcap & Hctr & _). rewrite Hctr, size_t_small by lia. lia. }
  rewrite Hsz.
  change (slot _ (Z.of_nat (length addrs - 1)))
    with (slot (set_curr_tok m (Some (Z.of_nat (length addrs - 1))))
               (Z.of_nat (length addrs - 1))).
  rewrite (holds_slot _ _ _ Ha). reflexivity.
Qed.

Lemma prev_inside (i : nat) (b : nat) :
  addrs !! i = Some b -> (S i < length addrs)%nat ->
  TokenMgr_prev_token (Some (set_curr_tok m (Some (Z.of_nat (S i)))))
  = Done (At b, Some (set_curr_tok m (Some (Z.of_nat i)))).
Proof.
  intros Hb Hi.
  destruct (lookup_lt_is_Some_2 addrs (S i)) as [a Ha]; [lia|].
  destruct (lookup_lt_is_Some_2 addrs 0) as [z Hz]; [lia|].
  unfold TokenMgr_prev_token. cbn [curr_tok set_curr_tok].
  change (slot _ (Z.of_nat (S i)))
    with (slot (set_curr_tok m (Some (Z.of_nat (S i)))) (Z.of_nat (S i))).
  rewrite (holds_slot _ _ _ Ha). cbn [bind].
  change (slot _ 0) with (slot (set_curr_tok m (Some (Z.of_nat (S i)))) (Z.of_nat 0)).
  rewrite (holds_slot _ _ _ Hz). cbn [bind].
  rewrite (distinct_addresses (S i) 0 a z Ha Hz) by lia.
  replace (Z.of_nat (S i) - 1) with (Z.of_nat i) by lia.
  change (slot _ (Z.of_nat i)) with (slot (set_curr_tok m (Some (Z.of_nat i))) (Z.of_nat i)).
  rewrite (holds_slot _ _ _ Hb). reflexivity.
Qed.

Lemma prev_at_the_first :
  (0 < length addrs)%nat ->
  TokenMgr_prev_token (Some (set_curr_tok m (Some 0)))
  = Done (NULL, Some (set_curr_tok m (Some 0))).
Proof.
  intros Hi.
  destruct (lookup_lt_is_Some_2 addrs 0) as [z Hz]; [lia|].
  unfold TokenMgr_prev_token. cbn [curr_tok set_curr_tok].
  change (slot _ 0) with (slot (set_curr_tok m (Some 0)) (Z.of_nat 0)).
  rewrite (holds_slot _ _ _ Hz). cbn [bind]. simpl. rewrite Nat.eqb_refl. reflexivity.
Qed.

Lemma prev_n_inside :
  forall (k i : nat),
    (k <= i < length addrs)%nat ->
    prev_n k (Some (set_curr_tok m (Some (Z.of_nat i))))
    = Done (At <$> reverse (take k (drop (i - k) addrs)),
            Some (set_curr_tok m (Some (Z.of_nat (i - k))))).
Proof.
  induction k as [|k IH]; intros i Hik.
  - simpl. rewrite Nat.sub_0_r. reflexivity.
  - destruct i as [|i]; [lia|].
    destruct (lookup_lt_is_Some_2 addrs i) as [b Hb]; [lia|].
    cbn [prev_n]. rewrite (prev_inside i b Hb) by lia. cbn [bind].
    rewrite (IH i) by lia. cbn [bind].
    cbn [Nat.sub]. do 3 f_equal.
    rewrite (take_S_r _ k b).
    + rewrite reverse_snoc. reflexivity.
    + rewrite lookup_drop. replace (i - k + k)%nat with i by lia. exact Hb.
Qed.

End Traversal.

(** The traversal law on a store that holds [N >= 1] tokens, with the
    cursor unset: [N] calls of next return the tokens in append order and
    leave the cursor on the last one, where one more call returns null
    and moves nothing; [N] calls of previous return them in reverse
    order and leave the cursor on the first one, where one more call
    returns null. *)
Theorem traversal_of_a_store_with_tokens (m : TokenMgr) (addrs : list nat) :
  holds m addrs -> (0 < length addrs)%nat ->
  let N := length addrs in
  let fresh := set_curr_tok m None in
  let at_last := set_curr_tok m (Some (Z.of_nat (N - 1))) in
  let at_first := set_curr_tok m (Some 0) in
  next_n N (Some fresh) = Done (At <$> addrs, Some at_last)
  /\ TokenMgr_next_token (Some at_last) = Done (NULL, Some at_last)
  /\ prev_n N (Some fresh) = Done (At <$> reverse addrs, Some at_first)
  /\ TokenMgr_prev_token (Some at_first) = Done (NULL, Some at_first).
Proof.
  intros Hm Hpos N fresh at_last at_first.
  destruct (lookup_lt_is_Some_2 addrs 0) as [a0 H0]; [lia|].
  destruct (lookup_lt_is_Some_2 addrs (N - 1)) as [z Hz]; [unfold N; lia|].
  assert (HN : N = S (N - 1)) by (unfold N; lia).
  assert (Hhead : addrs = a0 :: drop 1 addrs) by (apply (drop_S addrs a0 0 H0)).
  assert (Hlast : addrs = take (N - 1) addrs ++ [z]).
  { rewrite <- (take_drop (N - 1) addrs) at 1. f_equal.
    rewrite (drop_S addrs z (N - 1) Hz). rewrite drop_ge by (unfold N; lia). reflexivity. }
  repeat split.
  - rewrite HN at 1. cbn [next_n]. unfold fresh. rewrite (next_from_unset m addrs Hm a0 H0).
    cbn [bind]. change (set_curr_tok m (Some 0)) with (set_curr_tok m (Some (Z.of_nat 0))).
    rewrite (next_n_inside m addrs Hm (N - 1) 0) by (unfold N; lia).
    cbn [bind]. unfold at_last. rewrite Nat.add_0_l.
    do 3 f_equal. rewrite Hhead at 2. cbn [fmap list_fmap]. f_equal.
    rewrite take_ge; [reflexivity|]. rewrite length_drop. unfold N. lia.
  - apply (next_at_the_last m addrs Hm). unfold N. lia.
  - rewrite HN at 1. cbn [prev_n]. unfold fresh. rewrite (prev_from_unset m addrs Hm z Hz).
    cbn [bind]. fold N.
    rewrite (prev_n_inside m addrs Hm (N - 1) (N - 1)) by (unfold N; lia).
    cbn [bind]. unfold at_first. rewrite Nat.sub_diag. cbn [drop].
    do 3 f_equal. rewrite Hlast at 2. rewrite reverse_snoc. reflexivity.
  - apply (prev_at_the_first m addrs Hm). exact Hpos.
Qed.

Lemma holds_new (cap : nat) : Z.of_nat cap < 2 ^ 64 -> holds (TokenMgr_new cap) [].
Proof.
  intros Hcap. unfold holds, TokenMgr_new. cbn [toks tok_ctr heap length take].
  rewrite length_replicate. repeat split; try assumption; constructor.
Qed.

Lemma holds_with_token (m : TokenMgr) (addrs : list nat) (ty v : string) :
  holds m addrs -> in_bounds (toks m) (tok_ctr m) = true ->
  holds (with_token m ty v) (addrs ++ [length (heap m)]).
Proof.
  intros (Hcap & Hctr & Ht & Hnd & Hall) Hroom.
  unfold in_bounds in Hroom. apply andb_true_iff in Hroom as [_ Hlt].
  apply Z.ltb_lt in Hlt. rewrite Hctr in Hlt.
  unfold holds, with_token. cbn [toks tok_ctr heap].
  rewrite length_insert, !length_app, Hctr, Nat2Z.id. cbn [length].
  split; [exact Hcap|]. split; [rewrite size_t_small; lia|]. split; [|split].
  - replace (length addrs + 1)%nat with (S (length addrs)) by lia.
    rewrite (take_S_r _ _ (Some (At (length (heap m))))).
    + rewrite take_insert_ge by lia. rewrite Ht, fmap_app. reflexivity.
    + apply list_lookup_insert_eq. lia.
  - apply NoDup_app. split; [exact Hnd|]. split; [|apply NoDup_singleton].
    intros a Ha Hin. apply list_elem_of_singleton in Hin. subst a.
    rewrite Forall_forall in Hall. specialize (Hall _ Ha). lia.
  - apply Forall_app. split.
    + eapply Forall_impl; [exact Hall|]. intros a Ha. simpl in Ha. lia.
    + constructor; [lia|constructor].
Qed.

Lemma traversal_of_a_store_with_tokens_witness :
  let m := with_token (with_token (with_token (TokenMgr_new 4) "INTEGER" "3")
                                  "OPERATOR" "PLUS") "INTEGER" "4" in
  let addrs := [0; 1; 2]%nat in
  holds m addrs /\ (0 < length addrs)%nat
  /\ next_n 3 (Some (set_curr_tok m None))
     = Done ([At 0; At 1; At 2], Some (set_curr_tok m (Some 2)))
  /\ TokenMgr_next_token (Some (set_curr_tok m (Some 2)))
     = Done (NULL, Some (set_curr_tok m (Some 2)))
  /\ prev_n 3 (Some (set_curr_tok m None))
     = Done ([At 2; At 1; At 0], Some (set_curr_tok m (Some 0)))
  /\ TokenMgr_prev_token (Some (set_curr_tok m (Some 0)))
     = Done (NULL, Some (set_curr_tok m (Some 0))).
Proof.
  intros m addrs.
  assert (Hm : holds m addrs).
  { assert (H0 : holds (TokenMgr_new 4) []) by (apply holds_new; reflexivity).
    assert (H1 := holds_with_token _ _ "INTEGER" "3" H0 eq_refl).
    assert (H2 := holds_with_token _ _ "OPERATOR" "PLUS" H1 eq_refl).
    exact (holds_with_token _ _ "INTEGER" "4" H2 eq_refl). }
  assert (Hpos : (0 < length addrs)%nat) by (simpl; lia).
  split; [exact Hm|]. split; [exact Hpos|].
  exact (traversal_of_a_store_with_tokens m addrs Hm Hpos).
Defined.


(** ** The state at the head of the loop *)

Lemma loop_head_invariant
    (COMMENT VAR : ascii) (buff : list ascii) (m : TokenMgr) (s : scanner) :
  loop_head COMMENT VAR buff m s ->
  0 <= s_bidx s /\ length (s_store s) = STORE_SIZE /\ 1 <= s_lineno s
  /\ (s_error s = 0 -> s_stctr s = 0).
Proof.
  induction 1 as [|s c s' _ IH Hread Hc He Hbody].
  - repeat split; simpl; lia.
  - destruct IH as (Hpos & Hlen & Hline & Hst).
    destruct (loop_body_effect COMMENT VAR buff s c s' Hc Hread Hbody)
      as (_ & Hl & Hsz & Hle & _ & Hcases).
    split; [lia|]. split; [congruence|]. split.
    + rewrite Hl. destruct (negb (c =? COMMENT)%char && (c =? NEWLINE)%char); lia.
    + intros He'. destruct Hcases as [(_ & _ & _ & Hkeep) | (H1 & _)]; [auto|lia].
Qed.

(** Whenever [build_tokens] tests the condition of its loop, [bidx] is
    not negative, the scratch array has its 100 cells, the line counter
    is at least 1, and, as long as [error] is clear, [stctr] is 0: every
    token is accumulated from cell 0. *)
Theorem scratch_is_empty_at_the_loop_head
    (COMMENT VAR : ascii) (buff : list ascii) (m : TokenMgr) (s : scanner) :
  loop_head COMMENT VAR buff m s ->
  0 <= s_bidx s /\ length (s_store s) = STORE_SIZE /\ 1 <= s_lineno s
  /\ (s_error s = 0 -> s_stctr s = 0).
Proof. apply loop_head_invariant. Qed.

Lemma scratch_is_empty_at_the_loop_head_witness :
  let buff := c_string "12 +" in
  let m := TokenMgr_new 4 in
  let s := mkScanner (<[2%nat := Some NUL]>
                        (<[1%nat := Some "2"%char]> (<[0%nat := Some "1"%char]> store_new)))
                     2 0 0 1 (with_token m "INTEGER" "12") [] in
  loop_head "#"%char "$"%char buff m s
  /\ 0 <= s_bidx s /\ length (s_store s) = STORE_SIZE /\ 1 <= s_lineno s
  /\ (s_error s = 0 -> s_stctr s = 0).
Proof.
  intros buff m s.
  assert (H : loop_head "#"%char "$"%char buff m s).
  { apply (head_after_pass _ _ _ _ (scanner_init m) "1"%char);
      [apply head_initial | reflexivity | discriminate | reflexivity | reflexivity]. }
  split; [exact H|].
  exact (scratch_is_empty_at_the_loop_head "#"%char "$"%char buff m s H).
Defined.

(** ** From a pass to the whole scan *)

Section WholeScan.

Variables COMMENT VAR : ascii.
Variable buff : list ascii.
Variable m : TokenMgr.
Hypothesis comment_not_newline : COMMENT <> NEWLINE.

(** The loop reaches each of its heads, with fuel to spare. *)
Lemma scan_loop_reaches_head (s : scanner) :
  loop_head COMMENT VAR buff m s ->
  exists k : nat,
    Z.of_nat k <= s_bidx s
    /\ forall fuel, scan_loop COMMENT VAR (k + fuel) buff (scanner_init m)
                    = scan_loop COMMENT VAR fuel buff s.
Proof.
  induction 1 as [|s c s' _ IH Hread Hc He Hbody].
  - exists 0%nat. split; [simpl; lia | reflexivity].
  - destruct IH as (k & Hk & Hrun).
    destruct (loop_body_effect COMMENT VAR buff s c s' Hc Hread Hbody)
      as (_ & _ & _ & _ & Hprog & _).
    specialize (Hprog comment_not_newline).
    exists (S k). split; [lia|]. intros fuel.
    replace (S k + fuel)%nat with (k + S fuel)%nat by lia.
    rewrite Hrun, (scan_loop_step _ _ _ _ _ c Hread Hc He), Hbody. reflexivity.
Qed.

Lemma build_tokens_from_head (s : scanner) (c : ascii) :
  loop_head COMMENT VAR buff m s ->
  buff_at buff (s_bidx s) = Done c ->
  exists fuel,
    build_tokens COMMENT VAR (Some buff) (Some m)
    = bind (scan_loop COMMENT VAR (S (S fuel)) buff s) finish.
Proof.
  intros Hhead Hread.
  destruct (scan_loop_reaches_head s Hhead) as (k & Hk & Hrun).
  apply buff_at_in_range in Hread.
  exists (length buff - k - 1)%nat. unfold build_tokens.
  replace (S (length buff)) with (k + S (S (length buff - k - 1)))%nat by lia.
  rewrite Hrun. reflexivity.
Qed.

(** A pass that is undefined makes the call undefined. *)
Lemma undefined_pass (s : scanner) (c : ascii) (f : fault) :
  loop_head COMMENT VAR buff m s -> s_error s = 0 ->
  buff_at buff (s_bidx s) = Done c -> c <> NUL ->
  loop_body COMMENT VAR buff s c = Undefined f ->
  build_tokens COMMENT VAR (Some buff) (Some m) = Undefined f.
Proof.
  intros Hhead He Hread Hc Hbody.
  destruct (build_tokens_from_head s c Hhead Hread) as (fuel & ->).
  rewrite (scan_loop_step _ _ _ _ _ c Hread Hc He), Hbody. reflexivity.
Qed.

(** A pass that sets [error] is the last one. *)
Lemma failing_pass (s : scanner) (c : ascii) (s' : scanner) :
  loop_head COMMENT VAR buff m s -> s_error s = 0 ->
  buff_at buff (s_bidx s) = Done c -> c <> NUL ->
  loop_body COMMENT VAR buff s c = Done s' -> s_error s' <> 0 ->
  build_tokens COMMENT VAR (Some buff) (Some m) = finish s'.
Proof.
  intros Hhead He Hread Hc Hbody Herr.
  destruct (build_tokens_from_head s c Hhead Hread) as (fuel & ->).
  rewrite (scan_loop_step _ _ _ _ _ c Hread Hc He), Hbody. cbn [bind].
  destruct (loop_body_effect COMMENT VAR buff s c s' Hc Hread Hbody)
    as (_ & _ & _ & _ & _ & [(Hsame & _) | (_ & _ & c' & Hread')]); [congruence|].
  rewrite (scan_loop_error_set _ _ _ _ _ c' Hread' Herr). reflexivity.
Qed.

(** The terminator at a head of the loop ends the scan. *)
Lemma end_of_buffer (s : scanner) :
  loop_head COMMENT VAR buff m s ->
  buff_at buff (s_bidx s) = Done NUL ->
  build_tokens COMMENT VAR (Some buff) (Some m) = finish s.
Proof.
  intros Hhead Hread.
  destruct (build_tokens_from_head s NUL Hhead Hread) as (fuel & ->).
  rewrite (scan_loop_end_of_buffer _ _ _ _ _ Hread). reflexivity.
Qed.

End WholeScan.

(** ** The first error ends the scan *)

(** Once a pass through the loop sets [error], the loop is left at
    once: [error] is 1, the manager is the one the pass started from,
    the pass printed nothing, and [build_tokens] goes on to its report
    from the state the pass left. *)
Theorem first_error_stops_the_scan
    (COMMENT VAR : ascii) (buff : list ascii) (m : TokenMgr)
    (s : scanner) (c : ascii) (s' : scanner) :
  COMMENT <> NEWLINE ->
  loop_head COMMENT VAR buff m s -> s_error s = 0 ->
  buff_at buff (s_bidx s) = Done c -> c <> NUL ->
  loop_body COMMENT VAR buff s c = Done s' ->
  s_error s' <> 0 ->
  s_error s' = 1 /\ s_mgr s' = s_mgr s /\ s_out s' = s_out s
  /\ build_tokens COMMENT VAR (Some buff) (Some m) = finish s'.
Proof.
  intros HCN Hhead He Hread Hc Hbody Herr.
  destruct (loop_body_effect COMMENT VAR buff s c s' Hc Hread Hbody)
    as (Hout & _ & _ & _ & _ & [(Hsame & _) | (H1 & Hm & _)]); [congruence|].
  repeat split; try assumption.
  apply (failing_pass COMMENT VAR buff m HCN s c s'); assumption.
Qed.

Lemma first_error_stops_the_scan_witness :
  let buff := c_string "3 {!}" in
  let m := TokenMgr_new 4 in
  let m1 := with_token m "INTEGER" "3" in
  let s1 := mkScanner (<[1%nat := Some NUL]> (<[0%nat := Some "3"%char]> store_new))
                      1 0 0 1 m1 [] in
  let s := set_bidx s1 2 in
  let s' := mkScanner (<[1%nat := Some NUL]> (<[0%nat := Some "!"%char]> (s_store s)))
                      3 1 1 1 m1 [] in
  "#"%char <> NEWLINE
  /\ loop_head "#"%char "$"%char buff m s
  /\ s_error s = 0 /\ buff_at buff (s_bidx s) = Done LBRACE /\ LBRACE <> NUL
  /\ loop_body "#"%char "$"%char buff s LBRACE = Done s'
  /\ s_error s' <> 0
  /\ finish s' = Done (1, Some m1, [InvalidSyntax "!" 1])
  /\ s_error s' = 1 /\ s_mgr s' = s_mgr s /\ s_out s' = s_out s
  /\ build_tokens "#"%char "$"%char (Some buff) (Some m) = finish s'.
Proof.
  intros buff m m1 s1 s s'.
  assert (H0 : "#"%char <> NEWLINE) by discriminate.
  assert (Hh1 : loop_head "#"%char "$"%char buff m s1).
  { apply (head_after_pass _ _ _ _ (scanner_init m) "3"%char);
      [apply head_initial | reflexivity | discriminate | reflexivity | reflexivity]. }
  assert (Hh : loop_head "#"%char "$"%char buff m s).
  { apply (head_after_pass _ _ _ _ s1 " "%char);
      [exact Hh1 | reflexivity | discriminate | reflexivity | reflexivity]. }
  assert (H1 : s_error s = 0) by reflexivity.
  assert (H2 : buff_at buff (s_bidx s) = Done LBRACE) by reflexivity.
  assert (H3 : LBRACE <> NUL) by discriminate.
  assert (H4 : loop_body "#"%char "$"%char buff s LBRACE = Done s') by reflexivity.
  assert (H5 : s_error s' <> 0) by discriminate.
  assert (H6 : finish s' = Done (1, Some m1, [InvalidSyntax "!" 1])) by reflexivity.
  repeat (split; [assumption|]).
  exact (first_error_stops_the_scan "#"%char "$"%char buff m s LBRACE s' H0 Hh H1 H2 H3 H4 H5).
Defined.

(** ** The claims on over-long tokens and unknown words *)

(** C2 (the code departs from the claim).  The scratch array is bounded
    (100 bytes), but nothing tests [stctr] against the bound: when the
    loop meets a string literal whose text has 100 characters or more,
    the pass that scans it writes [store[100]], outside the array: the
    call is undefined, and no error is reported. *)
Theorem overlong_string_overflows_the_scratch_buffer
    (COMMENT VAR : ascii) (buff : list ascii) (m : TokenMgr) (s : scanner)
    (text : list ascii) (t : ascii) (post : list ascii) :
  COMMENT <> DQUOTE -> COMMENT <> NEWLINE ->
  loop_head COMMENT VAR buff m s -> s_error s = 0 ->
  drop (Z.to_nat (s_bidx s)) buff = DQUOTE :: text ++ t :: post ->
  Forall (fun c => in_string c = true) text ->
  in_string t = false ->
  (STORE_SIZE <= length text)%nat ->
  loop_body COMMENT VAR buff s DQUOTE = Undefined StoreOverflow
  /\ build_tokens COMMENT VAR (Some buff) (Some m) = Undefined StoreOverflow.
Proof.
  intros HC HCN Hhead He Hlit Hin Hend Hlong.
  destruct (loop_head_invariant _ _ _ _ _ Hhead) as (Hpos & Hsz & _ & Hst).
  assert (Hbody : loop_body COMMENT VAR buff s DQUOTE = Undefined StoreOverflow).
  { apply (overlong_string_pass COMMENT VAR buff s text t post); auto. }
  split; [exact Hbody|].
  destruct (buff_at_drop _ _ _ _ Hpos Hlit) as [Hread _].
  apply (undefined_pass COMMENT VAR buff m HCN s DQUOTE); auto; discriminate.
Qed.

Lemma overlong_string_overflows_the_scratch_buffer_witness :
  let text := replicate 100 "a"%char in
  let buff := DQUOTE :: text ++ [DQUOTE; NUL] in
  let m := TokenMgr_new 4 in
  let s := scanner_init m in
  ("#"%char <> DQUOTE /\ "#"%char <> NEWLINE
   /\ loop_head "#"%char "$"%char buff m s /\ s_error s = 0
   /\ drop (Z.to_nat (s_bidx s)) buff = DQUOTE :: text ++ DQUOTE :: [NUL]
   /\ Forall (fun c => in_string c = true) text
   /\ in_string DQUOTE = false
   /\ (STORE_SIZE <= length text)%nat)
  /\ loop_body "#"%char "$"%char buff s DQUOTE = Undefined StoreOverflow
  /\ build_tokens "#"%char "$"%char (Some buff) (Some m) = Undefined StoreOverflow.
Proof.
  intros text buff m s.
  assert (Hc : "#"%char <> DQUOTE) by discriminate.
  assert (Hh : loop_head "#"%char "$"%char buff m s) by apply head_initial.
  assert (Hin : Forall (fun c => in_string c = true) text).
  { apply Forall_replicate. reflexivity. }
  assert (Hlong : (STORE_SIZE <= length text)%nat).
  { unfold text. rewrite length_replicate. apply Nat.le_refl. }
  assert (Hcn : "#"%char <> NEWLINE) by discriminate.
  split.
  { repeat (split; [first [reflexivity | assumption]|]). assumption. }
  exact (overlong_string_overflows_the_scratch_buffer
           "#"%char "$"%char buff m s text DQUOTE [NUL] Hc Hcn Hh eq_refl eq_refl Hin
           eq_refl Hlong).
Defined.

(** C7 (the code departs from the claim).  A bare word that is not a
    keyword is an unrecognized construct, but the pass that meets it
    never reaches [error = 1] at line 204: [is_valid_keyword] first runs
    into the null entries of [R_Keywords], so the call is undefined and
    neither a store nor an error indication comes back. *)
Theorem unknown_word_is_not_reported
    (COMMENT VAR : ascii) (buff : list ascii) (m : TokenMgr) (s : scanner)
    (c : ascii) (word : list ascii) (t : ascii) (post : list ascii) :
  COMMENT <> NEWLINE ->
  c <> COMMENT -> c <> VAR -> isalpha c = true ->
  loop_head COMMENT VAR buff m s -> s_error s = 0 ->
  drop (Z.to_nat (s_bidx s)) buff = (c :: word) ++ t :: post ->
  Forall (fun x => is_valid_identifier x = true) word ->
  is_valid_identifier t = false ->
  (length (c :: word) < STORE_SIZE)%nat ->
  spec_is_keyword (string_of_list_ascii (c :: word)) = false ->
  loop_body COMMENT VAR buff s c = Undefined NullDeref
  /\ build_tokens COMMENT VAR (Some buff) (Some m) = Undefined NullDeref.
Proof.
  intros HCN HC HV Halpha Hhead He Hbuf Hword Ht Hfit Hkw.
  destruct (loop_head_invariant _ _ _ _ _ Hhead) as (Hpos & Hsz & _ & Hst).
  assert (Hbody : loop_body COMMENT VAR buff s c = Undefined NullDeref).
  { apply (unknown_word_pass COMMENT VAR buff s c word t post); auto. }
  split; [exact Hbody|].
  simpl in Hbuf. destruct (buff_at_drop _ _ _ _ Hpos Hbuf) as [Hread _].
  apply (undefined_pass COMMENT VAR buff m HCN s c); auto.
  all: intros ->; discriminate Halpha.
Qed.

Lemma unknown_word_is_not_reported_witness :
  let buff := c_string "+foo" in
  let m := TokenMgr_new 8 in
  let s := set_bidx (scanner_init (with_token m "OPERATOR" "PLUS")) 1 in
  let c := "f"%char in
  let word := list_ascii_of_string "oo" in
  ("#"%char <> NEWLINE /\ c <> "#"%char /\ c <> "$"%char /\ isalpha c = true
   /\ loop_head "#"%char "$"%char buff m s /\ s_error s = 0
   /\ drop (Z.to_nat (s_bidx s)) buff = (c :: word) ++ NUL :: []
   /\ Forall (fun x => is_valid_identifier x = true) word
   /\ is_valid_identifier NUL = false
   /\ (length (c :: word) < STORE_SIZE)%nat
   /\ spec_is_keyword (string_of_list_ascii (c :: word)) = false)
  /\ loop_body "#"%char "$"%char buff s c = Undefined NullDeref
  /\ build_tokens "#"%char "$"%char (Some buff) (Some m) = Undefined NullDeref.
Proof.
  intros buff m s c word.
  assert (H1 : c <> "#"%char) by discriminate.
  assert (H2 : c <> "$"%char) by discriminate.
  assert (Hh : loop_head "#"%char "$"%char buff m s).
  { apply (head_after_pass _ _ _ _ (scanner_init m) "+"%char);
      [apply head_initial | reflexivity | discriminate | reflexivity | reflexivity]. }
  assert (H3 : Forall (fun x => is_valid_identifier x = true) word) by (repeat constructor).
  assert (H4 : (length (c :: word) < STORE_SIZE)%nat) by (vm_compute; lia).
  assert (H0 : "#"%char <> NEWLINE) by discriminate.
  split.
  { repeat (split; [first [reflexivity | assumption]|]). reflexivity. }
  exact (unknown_word_is_not_reported "#"%char "$"%char buff m s c word NUL [] H0 H1 H2
           eq_refl Hh eq_refl eq_refl H3 eq_refl H4 eq_refl).
Defined.

(** An unrecognized character with no delimiter after it: the loop of
    lines 211-215 does not stop at the terminator and reads past the
    end of the buffer. *)
Example unknown_character_at_the_end :
  scan "#"%char "$"%char 8 (c_string "3 + ?") = Undefined BuffOverread
  /\ scan "#"%char "$"%char 8 (c_string "3 + ?=")
     = Done (1, [Some (new_token "INTEGER" "3"); Some (new_token "OPERATOR" "PLUS")],
             [InvalidSyntax "?" 1]).
Proof. split; reflexivity. Qed.


(** ** The scans the spec lists *)

(** The spec's examples, with [#] and [$] for the two characters that
    tokens.h leaves unnamed: [3 + 4] yields INTEGER 3, OPERATOR PLUS,
    INTEGER 4; a braced name yields one GROUP token; a brace followed by
    a character that is not of an identifier is an error on line 1 that
    leaves the store empty; a comment runs to the end of its line; a
    sigil introduces an IDENTIFIER. *)
Example scans_of_the_spec :
  scan "#"%char "$"%char 8 (c_string "3 + 4")
  = Done (0, [Some (new_token "INTEGER" "3"); Some (new_token "OPERATOR" "PLUS");
              Some (new_token "INTEGER" "4")], [])
  /\ scan "#"%char "$"%char 8 (c_string "{name}")
     = Done (0, [Some (new_token "GROUP" "name")], [])
  /\ scan "#"%char "$"%char 8 (c_string "{!}")
     = Done (1, [], [InvalidSyntax "!" 1])
  /\ scan "#"%char "$"%char 8 (c_string "print $x # 12")
     = Done (0, [Some (new_token "KEYWORD" "print"); Some (new_token "IDENTIFIER" "x")], [])
  /\ scan "#"%char "$"%char 8 (NEWLINE :: c_string "{a")
     = Done (1, [], [InvalidSyntax "a" 2]).
Proof. repeat split. Qed.

(** * The token manager as a store *)

Section Store.

Variable m : TokenMgr.
Variable addrs : list nat.
Hypothesis store : holds m addrs.

Lemma slot_holds (i : nat) (a : nat) :
  addrs !! i = Some a -> slot m (Z.of_nat i) = Done (At a).
Proof. intros Ha. exact (holds_slot m addrs store None i a Ha). Qed.

Lemma tokens_holds : tokens m = (fun a => heap m !! a) <$> addrs.
Proof.
  destruct store as (_ & Hctr & Ht & _).
  unfold tokens. rewrite Hctr, Nat2Z.id, Ht, <- list_fmap_compose. reflexivity.
Qed.

Lemma holds_allocated : exists ts, (fun a => heap m !! a) <$> addrs = Some <$> ts.
Proof.
  destruct store as (_ & _ & _ & _ & Hall). clear store.
  induction Hall as [|a l Ha _ (ts & IH)].
  - exists []. reflexivity.
  - destruct (lookup_lt_is_Some_2 (heap m) a Ha) as [t Ht].
    exists (t :: ts). rewrite !fmap_cons, Ht, IH. reflexivity.
Qed.

Lemma token_at_holds (ts : list Token) (i : nat) (t : Token) :
  (fun a => heap m !! a) <$> addrs = Some <$> ts ->
  ts !! i = Some t -> token_at m (Z.of_nat i) = Done t.
Proof.
  intros Hts Ht.
  assert (Hl := f_equal (fun l => l !! i) Hts). cbv beta in Hl.
  rewrite !list_lookup_fmap, Ht in Hl. cbn in Hl.
  destruct (addrs !! i) as [a|] eqn:Ha; [|discriminate Hl]. cbn in Hl.
  unfold token_at. rewrite (slot_holds i a Ha). cbn [bind].
  injection Hl as ->. reflexivity.
Qed.

Lemma print_loop_holds (ts : list Token) :
  (fun a => heap m !! a) <$> addrs = Some <$> ts ->
  forall (n i : nat),
    (i + n <= length ts)%nat ->
    print_loop m (Z.of_nat i) n
    = Done ((fun t => (type t, value t)) <$> take n (drop i ts)).
Proof.
  intros Hts. induction n as [|n IH]; intros i Hin; [reflexivity|].
  destruct (lookup_lt_is_Some_2 ts i) as [t Ht]; [lia|].
  cbn [print_loop]. rewrite (token_at_holds ts i t Hts Ht). cbn [bind].
  replace (Z.of_nat i + 1) with (Z.of_nat (S i)) by lia.
  rewrite (IH (S i)) by lia. cbn [bind].
  rewrite (drop_S ts t i Ht). reflexivity.
Qed.

Lemma free_loop_holds :
  forall (n i : nat),
    (i + n <= length addrs)%nat ->
    free_loop m (Z.of_nat i) n = Done (At <$> take n (drop i addrs)).
Proof.
  induction n as [|n IH]; intros i Hin; [reflexivity|].
  destruct (lookup_lt_is_Some_2 addrs i) as [a Ha]; [lia|].
  cbn [free_loop]. rewrite (slot_holds i a Ha). cbn [bind].
  replace (Z.of_nat i + 1) with (Z.of_nat (S i)) by lia.
  rewrite (IH (S i)) by lia. cbn [bind].
  rewrite (drop_S addrs a i Ha). reflexivity.
Qed.

End Store.

Lemma holds_cleared (m : TokenMgr) (addrs : list nat) :
  holds m addrs ->
  holds {| heap := heap m; toks := toks m; tok_ctr := 0; curr_tok := None |} [].
Proof.
  intros (Hcap & _). unfold holds. cbn [toks tok_ctr heap length take].
  repeat split; try assumption; constructor.
Qed.

(** [TokenMgr_print_tokens] prints the tokens of the store, one line
    each, in append order, wherever the cursor is; called with a null
    manager it dereferences it. *)
Theorem print_tokens_lists_the_store (m : TokenMgr) (addrs : list nat) :
  holds m addrs ->
  exists ts : list Token,
    tokens m = Some <$> ts
    /\ TokenMgr_print_tokens (Some m) = Done ((fun t => (type t, value t)) <$> ts)
    /\ TokenMgr_print_tokens None = Undefined NullDeref.
Proof.
  intros Hm. destruct (holds_allocated m addrs Hm) as (ts & Hts).
  exists ts. split; [rewrite (tokens_holds m addrs Hm); exact Hts|].
  split; [|reflexivity].
  assert (Hlen : length ts = length addrs).
  { assert (H := f_equal length Hts). rewrite !length_fmap in H. lia. }
  unfold TokenMgr_print_tokens.
  destruct Hm as (Hcap & Hctr & Hrest). rewrite Hctr, Nat2Z.id.
  change (print_loop m 0) with (print_loop m (Z.of_nat 0)).
  rewrite (print_loop_holds m addrs (conj Hcap (conj Hctr Hrest)) ts Hts (length addrs) 0) by lia.
  rewrite drop_0, take_ge by lia. reflexivity.
Qed.

Lemma print_tokens_lists_the_store_witness :
  let m := with_token (with_token (TokenMgr_new 4) "INTEGER" "3") "OPERATOR" "PLUS" in
  holds m [0; 1]%nat
  /\ TokenMgr_print_tokens (Some m)
     = Done [("INTEGER", "3"); ("OPERATOR", "PLUS")]%string
  /\ exists ts : list Token,
      tokens m = Some <$> ts
      /\ TokenMgr_print_tokens (Some m) = Done ((fun t => (type t, value t)) <$> ts)
      /\ TokenMgr_print_tokens None = Undefined NullDeref.
Proof.
  intros m.
  assert (Hm : holds m [0; 1]%nat).
  { assert (H0 : holds (TokenMgr_new 4) []) by (apply holds_new; reflexivity).
    assert (H1 := holds_with_token _ _ "INTEGER" "3" H0 eq_refl).
    exact (holds_with_token _ _ "OPERATOR" "PLUS" H1 eq_refl). }
  split; [exact Hm|]. split; [reflexivity|].
  exact (print_tokens_lists_the_store m [0; 1]%nat Hm).
Defined.

(** [TokenMgr_free] returns 0 after freeing the token of each slot below
    the counter, once each; a token that [TokenMgr_clear_tokens] dropped
    from the count is never freed.  Called with a null manager it
    returns 1 and frees nothing. *)
Theorem free_releases_the_counted_tokens (m : TokenMgr) (addrs : list nat) :
  holds m addrs ->
  TokenMgr_free (Some m) = Done (0, [], At <$> addrs)
  /\ TokenMgr_free (TokenMgr_clear_tokens (Some m)).1 = Done (0, [], [])
  /\ TokenMgr_free None = Done (1, [ErrClearInvalid], []).
Proof.
  intros Hm. split; [|split; reflexivity].
  unfold TokenMgr_free.
  assert (Hctr : tok_ctr m = Z.of_nat (length addrs)) by apply Hm.
  rewrite Hctr, Nat2Z.id.
  change (free_loop m 0) with (free_loop m (Z.of_nat 0)).
  rewrite (free_loop_holds m addrs Hm (length addrs) 0) by lia.
  rewrite drop_0, take_ge by lia. reflexivity.
Qed.

Lemma free_releases_the_counted_tokens_witness :
  let m := with_token (with_token (TokenMgr_new 4) "INTEGER" "3") "OPERATOR" "PLUS" in
  holds m [0; 1]%nat
  /\ TokenMgr_free (Some m) = Done (0, [], [At 0; At 1])
  /\ TokenMgr_free (TokenMgr_clear_tokens (Some m)).1 = Done (0, [], [])
  /\ TokenMgr_free None = Done (1, [ErrClearInvalid], []).
Proof.
  intros m.
  assert (Hm : holds m [0; 1]%nat).
  { assert (H0 : holds (TokenMgr_new 4) []) by (apply holds_new; reflexivity).
    assert (H1 := holds_with_token _ _ "INTEGER" "3" H0 eq_refl).
    exact (holds_with_token _ _ "OPERATOR" "PLUS" H1 eq_refl). }
  split; [exact Hm|].
  exact (free_releases_the_counted_tokens m [0; 1]%nat Hm).
Defined.

(** [get_first_token] and [get_last_token] return the first and the
    last token of the store and null on an empty store, whatever the
    cursor, and leave the manager alone. *)
Theorem first_and_last_token (m : TokenMgr) (addrs : list nat) :
  holds m addrs ->
  get_first_token (Some m) = Done (from_option At NULL (head addrs))
  /\ get_last_token (Some m) = Done (from_option At NULL (last addrs)).
Proof.
  intros Hm. assert (Hctr : tok_ctr m = Z.of_nat (length addrs)) by apply Hm.
  unfold get_first_token, get_last_token. rewrite Hctr.
  destruct addrs as [|a0 rest].
  - split; reflexivity.
  - assert (Hlt : (Z.of_nat (length (a0 :: rest)) <? 1) = false).
    { apply Z.ltb_ge. simpl. lia. }
    rewrite Hlt. split.
    + apply (slot_holds m (a0 :: rest) Hm 0 a0). reflexivity.
    + destruct (lookup_lt_is_Some_2 (a0 :: rest) (length (a0 :: rest) - 1)) as [z Hz];
        [simpl; lia|].
      rewrite <- Hctr.
      transitivity (Done (At z)); [exact (holds_last_slot m (a0 :: rest) Hm None z Hz)|].
      rewrite last_lookup.
      replace (Init.Nat.pred (length (a0 :: rest))) with (length (a0 :: rest) - 1)%nat by lia.
      rewrite Hz. reflexivity.
Qed.

Lemma first_and_last_token_witness :
  let m := with_token (with_token (TokenMgr_new 4) "INTEGER" "3") "OPERATOR" "PLUS" in
  holds m [0; 1]%nat
  /\ get_first_token (Some m) = Done (At 0)
  /\ get_last_token (Some m) = Done (At 1).
Proof.
  intros m.
  assert (Hm : holds m [0; 1]%nat).
  { assert (H0 : holds (TokenMgr_new 4) []) by (apply holds_new; reflexivity).
    assert (H1 := holds_with_token _ _ "INTEGER" "3" H0 eq_refl).
    exact (holds_with_token _ _ "OPERATOR" "PLUS" H1 eq_refl). }
  split; [exact Hm|].
  exact (first_and_last_token m [0; 1]%nat Hm).
Defined.

Lemma room_for_one_more (m : TokenMgr) (addrs : list nat) :
  holds m addrs -> (length addrs < length (toks m))%nat ->
  in_bounds (toks m) (tok_ctr m) = true.
Proof.
  intros (_ & Hctr & _) Hlt. unfold in_bounds. rewrite Hctr.
  apply andb_true_iff. split; [apply Z.leb_le | apply Z.ltb_lt]; lia.
Qed.

Lemma tokens_with_token (m : TokenMgr) (addrs : list nat) (ty v : string) :
  holds m addrs -> in_bounds (toks m) (tok_ctr m) = true ->
  tokens (with_token m ty v) = tokens m ++ [Some (new_token ty v)].
Proof.
  intros Hm Hroom.
  rewrite (tokens_holds _ _ (holds_with_token m addrs ty v Hm Hroom)), (tokens_holds m addrs Hm).
  rewrite fmap_app. cbn [heap with_token]. f_equal.
  - apply Forall_fmap_ext.
    destruct Hm as (_ & _ & _ & _ & Hall).
    eapply Forall_impl; [exact Hall|]. intros a Ha. simpl in Ha.
    apply lookup_app_l. exact Ha.
  - cbn. rewrite lookup_app_r, Nat.sub_diag by lia. reflexivity.
Qed.

(** The scanner after [TokenMgr_add_token] has stored a token in a free
    slot, seen through the tokens of the store. *)
Lemma with_token_appends (s : scanner) (addrs : list nat) (ty v : string) (k : Z)
    (store' : list (option ascii)) :
  holds (s_mgr s) addrs -> (length addrs < length (toks (s_mgr s)))%nat ->
  appends s (mkScanner store' (s_bidx s + k) (s_stctr s) (s_error s) (s_lineno s)
                       (with_token (s_mgr s) ty v) (s_out s)) ty v k.
Proof.
  intros Hm Hlt. assert (Hroom := room_for_one_more _ addrs Hm Hlt).
  unfold appends. cbn [s_bidx s_stctr s_error s_lineno s_out s_mgr].
  repeat split.
  - rewrite (tokens_with_token _ addrs) by assumption. reflexivity.
  - destruct Hm as (Hcap & Hctr & _). cbn [tok_ctr with_token]. unfold size_t.
    apply Z.mod_small. lia.
Qed.

Lemma operator_token_appends (s : scanner) (addrs : list nat) (v : string) (k : Z) :
  holds (s_mgr s) addrs -> (length addrs < length (toks (s_mgr s)))%nat ->
  appends s (operator_token s v k) "OPERATOR" v k.
Proof. apply with_token_appends. Qed.

Lemma token_appended_appends (s : scanner) (addrs : list nat) (ty v : string) (k : Z) :
  holds (s_mgr s) addrs -> (length addrs < length (toks (s_mgr s)))%nat ->
  appends s (token_appended s ty v k) ty v k.
Proof. apply with_token_appends. Qed.

Lemma text_token_appends (s : scanner) (addrs : list nat) (ty : string)
    (run : list ascii) (k : Z) :
  s_stctr s = 0 ->
  holds (s_mgr s) addrs -> (length addrs < length (toks (s_mgr s)))%nat ->
  appends s (text_token s ty run k) ty (string_of_list_ascii run) k.
Proof.
  intros Hst Hm Hlt. unfold text_token. rewrite <- Hst.
  apply (with_token_appends s addrs); assumption.
Qed.

(** Appending to a store with a free slot, a type and a value that fit
    the arrays of the [Token]: [TokenMgr_add_token] returns 0 and prints
    nothing, the tokens of the store are the old ones followed by the
    new one, [get_last_token] returns the new token, its [val_length]
    is the length of its value, and the cursor stays where it was. *)
Theorem add_token_appends (m : TokenMgr) (addrs : list nat) (ty v : string) :
  fits_the_token ty v ->
  holds m addrs -> (length addrs < length (toks m))%nat ->
  exists m' : TokenMgr,
    TokenMgr_add_token (Some m) ty v = Done (0, Some m', [])
    /\ holds m' (addrs ++ [length (heap m)])
    /\ tokens m' = tokens m ++ [Some (mkToken ty v (Z.of_nat (String.length v)) None)]
    /\ get_last_token (Some m') = Done (At (length (heap m)))
    /\ deref m' (At (length (heap m))) = Some (mkToken ty v (Z.of_nat (String.length v)) None)
    /\ curr_tok m' = curr_tok m.
Proof.
  intros _ Hm Hlt. assert (Hroom := room_for_one_more m addrs Hm Hlt).
  assert (Hm' := holds_with_token m addrs ty v Hm Hroom).
  exists (with_token m ty v).
  split; [apply add_token_room, Hroom|]. split; [exact Hm'|].
  split; [apply (tokens_with_token m addrs); assumption|].
  split; [|split; [|reflexivity]].
  - unfold get_last_token.
    assert (Hctr : tok_ctr (with_token m ty v) = Z.of_nat (length (addrs ++ [length (heap m)])))
      by apply Hm'.
    assert (Hpos : (tok_ctr (with_token m ty v) <? 1) = false).
    { rewrite Hctr, length_app. apply Z.ltb_ge. simpl. lia. }
    rewrite Hpos.
    apply (holds_last_slot _ _ Hm' None).
    rewrite length_app. cbn [length].
    replace (length addrs + 1 - 1)%nat with (length addrs) by lia.
    rewrite lookup_app_r, Nat.sub_diag by lia. reflexivity.
  - cbn. rewrite lookup_app_r, Nat.sub_diag by lia. reflexivity.
Qed.

Lemma add_token_appends_witness :
  let m := with_token (TokenMgr_new 4) "INTEGER" "3" in
  fits_the_token "OPERATOR" "PLUS"
  /\ holds m [0%nat] /\ (length [0%nat] < length (toks m))%nat
  /\ exists m' : TokenMgr,
      TokenMgr_add_token (Some m) "OPERATOR" "PLUS" = Done (0, Some m', [])
      /\ holds m' ([0%nat] ++ [length (heap m)])
      /\ tokens m' = tokens m ++ [Some (mkToken "OPERATOR" "PLUS" 4 None)]
      /\ get_last_token (Some m') = Done (At (length (heap m)))
      /\ deref m' (At (length (heap m))) = Some (mkToken "OPERATOR" "PLUS" 4 None)
      /\ curr_tok m' = curr_tok m.
Proof.
  intros m.
  assert (Hfit : fits_the_token "OPERATOR" "PLUS")
    by (unfold fits_the_token, TOKENTYPE_SIZE, STORE_SIZE; simpl; lia).
  assert (Hm : holds m [0%nat]).
  { assert (H0 : holds (TokenMgr_new 4) []) by (apply holds_new; reflexivity).
    exact (holds_with_token _ _ "INTEGER" "3" H0 eq_refl). }
  assert (Hlt : (length [0%nat] < length (toks m))%nat) by (simpl; lia).
  split; [exact Hfit|]. split; [exact Hm|]. split; [exact Hlt|].
  exact (add_token_appends m [0%nat] "OPERATOR" "PLUS" Hfit Hm Hlt).
Defined.

(** [TokenMgr_clear_tokens] empties the store without freeing or
    erasing anything: the counter and the cursor are reset, the first and
    the last token are null, and the next append (of a type and a value
    that fit the arrays of the [Token]) reuses slot 0, so that the store
    then holds the new token alone, while every token allocated before
    is still allocated. *)
Theorem clear_recycles_the_slots (m : TokenMgr) (ty v : string) :
  fits_the_token ty v ->
  (0 < length (toks m))%nat ->
  exists m0 m1 : TokenMgr,
    TokenMgr_clear_tokens (Some m) = (Some m0, [])
    /\ tokens m0 = [] /\ curr_tok m0 = None /\ heap m0 = heap m
    /\ get_first_token (Some m0) = Done NULL /\ get_last_token (Some m0) = Done NULL
    /\ TokenMgr_add_token (Some m0) ty v = Done (0, Some m1, [])
    /\ tokens m1 = [Some (mkToken ty v (Z.of_nat (String.length v)) None)]
    /\ heap m1 = heap m ++ [mkToken ty v (Z.of_nat (String.length v)) None].
Proof.
  intros _ Hcap.
  exists {| heap := heap m; toks := toks m; tok_ctr := 0; curr_tok := None |}.
  eexists. split; [reflexivity|]. split; [reflexivity|]. split; [reflexivity|].
  split; [reflexivity|]. split; [reflexivity|]. split; [reflexivity|].
  split; [|split].
  - apply add_token_room. unfold in_bounds. cbn [toks tok_ctr].
    apply andb_true_iff. split; [reflexivity | apply Z.ltb_lt; lia].
  - unfold tokens, with_token. cbn [toks tok_ctr heap].
    destruct (toks m) as [|x rest]; [simpl in Hcap; lia|].
    change (size_t (0 + 1)) with 1. change (Z.to_nat 1) with 1%nat.
    change (Z.to_nat 0) with 0%nat. cbn.
    rewrite lookup_app_r, Nat.sub_diag by lia. reflexivity.
  - reflexivity.
Qed.

Lemma clear_recycles_the_slots_witness :
  let m := with_token (with_token (TokenMgr_new 4) "INTEGER" "3") "OPERATOR" "PLUS" in
  fits_the_token "INTEGER" "4"
  /\ (0 < length (toks m))%nat
  /\ exists m0 m1 : TokenMgr,
      TokenMgr_clear_tokens (Some m) = (Some m0, [])
      /\ tokens m0 = [] /\ curr_tok m0 = None /\ heap m0 = heap m
      /\ get_first_token (Some m0) = Done NULL /\ get_last_token (Some m0) = Done NULL
      /\ TokenMgr_add_token (Some m0) "INTEGER" "4" = Done (0, Some m1, [])
      /\ tokens m1 = [Some (mkToken "INTEGER" "4" 1 None)]
      /\ heap m1 = heap m ++ [mkToken "INTEGER" "4" 1 None].
Proof.
  intros m.
  assert (Hfit : fits_the_token "INTEGER" "4")
    by (unfold fits_the_token, TOKENTYPE_SIZE, STORE_SIZE; simpl; lia).
  assert (H : (0 < length (toks m))%nat) by (simpl; lia).
  split; [exact Hfit|]. split; [exact H|].
  exact (clear_recycles_the_slots m "INTEGER" "4" Hfit H).
Defined.

(** ** Traversal past the ends *)

Lemma next_n_app (a b : nat) (tm : option TokenMgr) :
  next_n (a + b) tm
  = bind (next_n a tm) (fun r =>
      bind (next_n b r.2) (fun r' => Done (r.1 ++ r'.1, r'.2))).
Proof.
  revert tm. induction a as [|a IH]; intros tm.
  - cbn. destruct (next_n b tm) as [[ps tm']| |]; reflexivity.
  - cbn [Nat.add next_n].
    destruct (TokenMgr_next_token tm) as [[p tm1]| |]; [|reflexivity|reflexivity].
    cbn [bind]. rewrite IH.
    destruct (next_n a tm1) as [[ps tm2]| |]; [|reflexivity|reflexivity].
    cbn [bind fst snd].
    destruct (next_n b tm2) as [[qs tm3]| |]; reflexivity.
Qed.

Lemma prev_n_app (a b : nat) (tm : option TokenMgr) :
  prev_n (a + b) tm
  = bind (prev_n a tm) (fun r =>
      bind (prev_n b r.2) (fun r' => Done (r.1 ++ r'.1, r'.2))).
Proof.
  revert tm. induction a as [|a IH]; intros tm.
  - cbn. destruct (prev_n b tm) as [[ps tm']| |]; reflexivity.
  - cbn [Nat.add prev_n].
    destruct (TokenMgr_prev_token tm) as [[p tm1]| |]; [|reflexivity|reflexivity].
    cbn [bind]. rewrite IH.
    destruct (prev_n a tm1) as [[ps tm2]| |]; [|reflexivity|reflexivity].
    cbn [bind fst snd].
    destruct (prev_n b tm2) as [[qs tm3]| |]; reflexivity.
Qed.

Section Ends.

Variable m : TokenMgr.
Variable addrs : list nat.
Hypothesis store : holds m addrs.
Hypothesis not_empty : (0 < length addrs)%nat.

Lemma next_n_all :
  next_n (length addrs) (Some (set_curr_tok m None))
  = Done (At <$> addrs, Some (set_curr_tok m (Some (Z.of_nat (length addrs - 1))))).
Proof.
  destruct (lookup_lt_is_Some_2 addrs 0) as [a0 H0]; [lia|].
  assert (HN : length addrs = S (length addrs - 1)) by lia.
  assert (Hhead : addrs = a0 :: drop 1 addrs) by (apply (drop_S addrs a0 0 H0)).
  rewrite HN at 1. cbn [next_n]. rewrite (next_from_unset m addrs store a0 H0).
  cbn [bind]. change (set_curr_tok m (Some 0)) with (set_curr_tok m (Some (Z.of_nat 0))).
  rewrite (next_n_inside m addrs store (length addrs - 1) 0) by lia.
  cbn [bind]. rewrite Nat.add_0_l.
  do 3 f_equal. rewrite Hhead at 3. cbn [fmap list_fmap]. f_equal.
  rewrite take_ge; [reflexivity|]. rewrite length_drop. lia.
Qed.

Lemma prev_n_all :
  prev_n (length addrs) (Some (set_curr_tok m None))
  = Done (At <$> reverse addrs, Some (set_curr_tok m (Some 0))).
Proof.
  destruct (lookup_lt_is_Some_2 addrs (length addrs - 1)) as [z Hz]; [lia|].
  assert (HN : length addrs = S (length addrs - 1)) by lia.
  assert (Hlast : addrs = take (length addrs - 1) addrs ++ [z]).
  { rewrite <- (take_drop (length addrs - 1) addrs) at 1. f_equal.
    rewrite (drop_S addrs z (length addrs - 1) Hz). rewrite drop_ge by lia. reflexivity. }
  rewrite HN at 1. cbn [prev_n]. rewrite (prev_from_unset m addrs store z Hz).
  cbn [bind].
  rewrite (prev_n_inside m addrs store (length addrs - 1) (length addrs - 1)) by lia.
  cbn [bind]. rewrite Nat.sub_diag. cbn [drop].
  do 3 f_equal. rewrite Hlast at 3. rewrite reverse_snoc. reflexivity.
Qed.

Lemma next_n_past_the_last (k : nat) :
  next_n k (Some (set_curr_tok m (Some (Z.of_nat (length addrs - 1)))))
  = Done (replicate k NULL, Some (set_curr_tok m (Some (Z.of_nat (length addrs - 1))))).
Proof.
  induction k as [|k IH]; [reflexivity|].
  cbn [next_n]. rewrite (next_at_the_last m addrs store (length addrs - 1)) by lia.
  cbn [bind]. rewrite IH. reflexivity.
Qed.

Lemma prev_n_past_the_first (k : nat) :
  prev_n k (Some (set_curr_tok m (Some 0)))
  = Done (replicate k NULL, Some (set_curr_tok m (Some 0))).
Proof.
  induction k as [|k IH]; [reflexivity|].
  cbn [prev_n]. rewrite (prev_at_the_first m addrs store) by lia.
  cbn [bind]. rewrite IH. reflexivity.
Qed.

End Ends.

(** Once next has returned the last token (previous: the first one),
    every further call returns null and leaves the cursor where it is,
    until [TokenMgr_reset_token] unsets the cursor: then the traversal
    starts over and returns the same tokens again. *)
Theorem traversal_ends_in_null_until_reset (m : TokenMgr) (addrs : list nat) (k : nat) :
  holds m addrs -> (0 < length addrs)%nat ->
  let N := length addrs in
  let fresh := set_curr_tok m None in
  let at_last := set_curr_tok m (Some (Z.of_nat (N - 1))) in
  let at_first := set_curr_tok m (Some 0) in
  next_n (N + k) (Some fresh) = Done ((At <$> addrs) ++ replicate k NULL, Some at_last)
  /\ prev_n (N + k) (Some fresh) = Done ((At <$> reverse addrs) ++ replicate k NULL, Some at_first)
  /\ next_n N (TokenMgr_reset_token (Some at_last)) = Done (At <$> addrs, Some at_last)
  /\ prev_n N (TokenMgr_reset_token (Some at_first)) = Done (At <$> reverse addrs, Some at_first).
Proof.
  intros Hm Hpos N fresh at_last at_first.
  split; [|split; [|split]].
  - rewrite next_n_app. unfold N, fresh. rewrite (next_n_all m addrs Hm Hpos).
    cbn [bind fst snd]. rewrite (next_n_past_the_last m addrs Hm Hpos k). reflexivity.
  - rewrite prev_n_app. unfold N, fresh. rewrite (prev_n_all m addrs Hm Hpos).
    cbn [bind fst snd]. rewrite (prev_n_past_the_first m addrs Hm Hpos k). reflexivity.
  - exact (next_n_all m addrs Hm Hpos).
  - exact (prev_n_all m addrs Hm Hpos).
Qed.

Lemma traversal_ends_in_null_until_reset_witness :
  let m := with_token (with_token (TokenMgr_new 4) "INTEGER" "3") "OPERATOR" "PLUS" in
  holds m [0; 1]%nat /\ (0 < length [0; 1]%nat)%nat
  /\ next_n 5 (Some (set_curr_tok m None))
     = Done ([At 0; At 1; NULL; NULL; NULL], Some (set_curr_tok m (Some 1)))
  /\ prev_n 5 (Some (set_curr_tok m None))
     = Done ([At 1; At 0; NULL; NULL; NULL], Some (set_curr_tok m (Some 0)))
  /\ next_n 2 (TokenMgr_reset_token (Some (set_curr_tok m (Some 1))))
     = Done ([At 0; At 1], Some (set_curr_tok m (Some 1)))
  /\ prev_n 2 (TokenMgr_reset_token (Some (set_curr_tok m (Some 0))))
     = Done ([At 1; At 0], Some (set_curr_tok m (Some 0))).
Proof.
  intros m.
  assert (Hm : holds m [0; 1]%nat).
  { assert (H0 : holds (TokenMgr_new 4) []) by (apply holds_new; reflexivity).
    assert (H1 := holds_with_token _ _ "INTEGER" "3" H0 eq_refl).
    exact (holds_with_token _ _ "OPERATOR" "PLUS" H1 eq_refl). }
  assert (Hpos : (0 < length [0; 1]%nat)%nat) by (simpl; lia).
  split; [exact Hm|]. split; [exact Hpos|].
  exact (traversal_ends_in_null_until_reset m [0; 1]%nat 3 Hm Hpos).
Defined.

(** After a call of next or previous that returned, the cursor is set
    and [TokenMgr_current_token] is defined: it returns the token the
    call returned, or, when the call returned null at the end of the
    store, the token the cursor stayed on. *)
Theorem current_token_follows_the_cursor
    (m : TokenMgr) (p : tokptr) (tm' : option TokenMgr) :
  TokenMgr_next_token (Some m) = Done (p, tm')
  \/ TokenMgr_prev_token (Some m) = Done (p, tm') ->
  TokenMgr_current_token tm' = Done p
  \/ (p = NULL /\ tm' = Some m /\ exists q, TokenMgr_current_token (Some m) = Done q).
Proof.
  unfold TokenMgr_next_token, TokenMgr_prev_token, TokenMgr_current_token.
  intros [H|H]; destruct (curr_tok m) as [i|] eqn:Hc.
  - apply bind_Done in H as (cur & Hcur & H).
    apply bind_Done in H as (final & Hfinal & H).
    destruct (tokptr_eqb cur final).
    + injection H as <- <-. right. eauto.
    + apply bind_Done in H as (q & Hq & H). injection H as <- <-. left. exact Hq.
  - apply bind_Done in H as (q & Hq & H). injection H as <- <-. left. exact Hq.
  - apply bind_Done in H as (cur & Hcur & H).
    apply bind_Done in H as (first & Hfirst & H).
    destruct (tokptr_eqb cur first).
    + injection H as <- <-. right. eauto.
    + apply bind_Done in H as (q & Hq & H). injection H as <- <-. left. exact Hq.
  - apply bind_Done in H as (q & Hq & H). injection H as <- <-. left. exact Hq.
Qed.

Lemma current_token_follows_the_cursor_witness :
  let m := with_token (with_token (TokenMgr_new 4) "INTEGER" "3") "OPERATOR" "PLUS" in
  (TokenMgr_next_token (Some m) = Done (At 0, Some (set_curr_tok m (Some 0)))
   \/ TokenMgr_prev_token (Some m) = Done (At 0, Some (set_curr_tok m (Some 0))))
  /\ (TokenMgr_current_token (Some (set_curr_tok m (Some 0))) = Done (At 0)
      \/ (At 0 = NULL /\ Some (set_curr_tok m (Some 0)) = Some m
          /\ exists q, TokenMgr_current_token (Some m) = Done q)).
Proof.
  intros m.
  assert (H : TokenMgr_next_token (Some m) = Done (At 0, Some (set_curr_tok m (Some 0)))
              \/ TokenMgr_prev_token (Some m) = Done (At 0, Some (set_curr_tok m (Some 0))))
    by (left; reflexivity).
  split; [exact H|].
  exact (current_token_follows_the_cursor m (At 0) _ H).
Defined.

(** * What a scan does to the token manager *)

Section PassManager.

Variables COMMENT VAR : ascii.
Variable buff : list ascii.

Lemma loop_body_mgr (s : scanner) (c : ascii) (s' : scanner) :
  loop_body COMMENT VAR buff s c = Done s' ->
  s_mgr s' = s_mgr s
  \/ exists ty v,
      in_bounds (toks (s_mgr s)) (tok_ctr (s_mgr s)) = true
      /\ s_mgr s' = with_token (s_mgr s) ty v.
Proof.
  intros H. unfold loop_body in H.
  crack; frames; simpl in *;
    first [ left; congruence
          | right; eexists _, _; split;
            [ first [eassumption | congruence]
            | etransitivity; [eassumption|]; f_equal; congruence ] ].
Qed.

End PassManager.

(** ** The characters a pass moves over *)

Lemma accumulate_span (cond : ascii -> bool) (buff : list ascii) :
  forall (fuel : nat) (c : ascii) (s : scanner) (c' : ascii) (s1 : scanner),
    accumulate cond fuel buff c s = Done (c', s1) ->
    (forall x, cond x = false -> free_of x buff (s_bidx s + 1) (s_bidx s1))
    /\ ((s_bidx s1 = s_bidx s /\ c' = c /\ cond c = false)
        \/ (s_bidx s < s_bidx s1 /\ cond c = true /\ buff_at buff (s_bidx s1) = Done c')).
Proof.
  induction fuel as [|fuel IH]; intros c s c' s1 H; [discriminate H|].
  simpl in H. destruct (cond c) eqn:Hc.
  - apply bind_Done in H as (s2 & Hp & H).
    apply bind_Done in H as ([c2 s3] & Ha & H).
    apply push_frame in Hp as (_ & Hb1 & _).
    apply advance_frame in Ha as (_ & Hb2 & Hr & _).
    apply IH in H as (Hfree & Hcase). split.
    + intros x Hx k Hk Hread.
      destruct (Z.eq_dec k (s_bidx s3)) as [->|Hne].
      * rewrite Hr in Hread. injection Hread as ->.
        destruct Hcase as [(He & _) | (_ & Hc2 & _)]; [lia | congruence].
      * apply (Hfree x Hx k); [lia | exact Hread].
    + right. split; [destruct Hcase as [(He & _) | (Hlt & _)]; lia|].
      split; [reflexivity|].
      destruct Hcase as [(He & -> & _) | (_ & _ & Hr')]; [rewrite He; exact Hr | exact Hr'].
  - injection H as <- <-. split; [|left; auto].
    intros x _ k Hk. lia.
Qed.

Lemma skip_comment_span (buff : list ascii) :
  forall (fuel : nat) (c : ascii) (s : scanner) (c' : ascii) (s1 : scanner),
    skip_comment fuel buff c s = Done (c', s1) ->
    free_of NEWLINE buff (s_bidx s + 1) (s_bidx s1)
    /\ free_of NUL buff (s_bidx s + 1) (s_bidx s1)
    /\ ((s_bidx s1 = s_bidx s /\ c' = c)
        \/ (s_bidx s < s_bidx s1 /\ c <> NEWLINE /\ c <> NUL
            /\ buff_at buff (s_bidx s1) = Done c'))
    /\ (c' = NEWLINE \/ c' = NUL)
    /\ s1 = set_bidx s (s_bidx s1).
Proof.
  induction fuel as [|fuel IH]; intros c s c' s1 H; [discriminate H|].
  simpl in H.
  destruct (Ascii.eqb_spec c NEWLINE) as [Hn|Hn]; simpl in H.
  { injection H as <- <-. repeat split; try (intros k Hk; lia); auto. destruct s; reflexivity. }
  destruct (Ascii.eqb_spec c NUL) as [Hz|Hz]; simpl in H.
  { injection H as <- <-. repeat split; try (intros k Hk; lia); auto. destruct s; reflexivity. }
  apply bind_Done in H as ([c2 s3] & Ha & H).
  assert (Hs3 : s3 = set_bidx s (s_bidx s + 1)).
  { unfold advance in Ha. apply bind_Done in Ha as (x & _ & Ha). injection Ha as _ <-. reflexivity. }
  apply advance_frame in Ha as (_ & Hb2 & Hr & _).
  apply IH in H as (Hf1 & Hf2 & Hcase & Hend & Hs1).
  assert (Hstep : forall x, c2 = x -> s_bidx s3 < s_bidx s1 -> x <> NEWLINE /\ x <> NUL).
  { intros x <- Hlt. destruct Hcase as [(He & _) | (_ & H1 & H2 & _)]; [lia | auto]. }
  split; [|split; [|split; [|split]]].
  - intros k Hk Hread. destruct (Z.eq_dec k (s_bidx s3)) as [->|Hne].
    + rewrite Hr in Hread. injection Hread as Hc2. destruct (Hstep _ Hc2) as [H1 H2]; [lia | congruence].
    + apply (Hf1 k); [lia | exact Hread].
  - intros k Hk Hread. destruct (Z.eq_dec k (s_bidx s3)) as [->|Hne].
    + rewrite Hr in Hread. injection Hread as Hc2. destruct (Hstep _ Hc2) as [H1 H2]; [lia | congruence].
    + apply (Hf2 k); [lia | exact Hread].
  - right. split; [destruct Hcase as [(He & _) | (Hlt & _)]; lia|].
    split; [exact Hn|]. split; [exact Hz|].
    destruct Hcase as [(He & -> ) | (_ & _ & _ & Hr')]; [rewrite He; exact Hr | exact Hr'].
  - exact Hend.
  - rewrite Hs1, Hs3. reflexivity.
Qed.

Lemma in_unknown_newline (COMMENT VAR : ascii) : in_unknown COMMENT VAR NEWLINE = false.
Proof.
  unfold in_unknown.
  destruct (NEWLINE =? COMMENT)%char, (NEWLINE =? VAR)%char; reflexivity.
Qed.

(** A closed test that failed, or a test on a character that has turned
    out to be the one it excludes. *)
Ltac absurd_test :=
  match goal with
  | H : ?a <> ?a |- _ => contradiction H; reflexivity
  | H : in_unknown _ _ NEWLINE = true |- _ => rewrite in_unknown_newline in H; discriminate H
  | H : _ = true |- _ => solve [vm_compute in H; discriminate H]
  | H : _ = false |- _ => solve [vm_compute in H; discriminate H]
  end.

(** [k] is a position the pass moved over, [Hx] says that the excluded
    character is there. *)
Ltac pointwise buff k Hx :=
  repeat match goal with
  | Hc : buff_at buff ?i = Done ?c |- _ =>
      lazymatch i with k => fail | _ => idtac end;
      destruct (Z.eq_dec k i) as [->|?];
      [ first [ exfalso; lia
              | rewrite Hc in Hx; injection Hx as Hx;
                try subst c; try subst; exfalso; absurd_test ]
      | clear Hc ]
  end;
  repeat match goal with
  | Hq : free_of _ buff _ _ |- _ =>
      first [ exact (Hq k ltac:(lia) Hx) | clear Hq ]
  end;
  exfalso; lia.

(** [frames], keeping what each loop moved over. *)
Ltac spans buff :=
  repeat match goal with
  | H : accumulate ?cond _ buff _ _ = Done _ |- _ =>
      let Hsp := fresh "Hsp" in
      let Hcase := fresh "Hcase" in
      destruct (accumulate_span _ _ _ _ _ _ _ H) as (Hsp & Hcase);
      try (let Hn := fresh "Hfree" in
           assert (Hn := Hsp NEWLINE ltac:(first [reflexivity | apply in_unknown_newline])));
      try (let Hz := fresh "Hfree" in assert (Hz := Hsp NUL ltac:(reflexivity)));
      clear Hsp;
      apply accumulate_frame in H; destruct H as (? & _ & _ & _ & ? & ?);
      destruct Hcase as [(? & ? & ?)|(? & ? & ?)]
  end.

Section PassSpan.

Variables COMMENT VAR : ascii.
Variable buff : list ascii.
Hypothesis comment_not_newline : COMMENT <> NEWLINE.

Lemma loop_body_span (s : scanner) (c : ascii) (s' : scanner) :
  c <> NUL -> buff_at buff (s_bidx s) = Done c -> s_error s = 0 ->
  loop_body COMMENT VAR buff s c = Done s' ->
  (c <> NEWLINE -> free_of NEWLINE buff (s_bidx s) (s_bidx s'))
  /\ (c = NEWLINE -> s_bidx s' = s_bidx s + 1)
  /\ (s_error s' = 0 -> free_of NUL buff (s_bidx s) (s_bidx s')).
Proof.
  intros Hc Hread He H. unfold loop_body in H.
  destruct (Ascii.eqb_spec c COMMENT) as [HisC|HnotC].
  { subst c. crack.
    apply skip_comment_span in Ha as (Hf1 & Hf2 & Hcase & _ & _).
    split; [|split; [congruence|]].
    - intros _ k Hk Hx. destruct Hcase as [(? & ?)|(? & ? & ? & ?)]; pointwise buff k Hx.
    - intros _ k Hk Hx. destruct Hcase as [(? & ?)|(? & ? & ? & ?)]; pointwise buff k Hx. }
  destruct (Ascii.eqb_spec c NEWLINE) as [Hnl|Hnl].
  { crack. simpl. split; [congruence|]. split; [reflexivity|].
    intros _ k Hk Hx. pointwise buff k Hx. }
  crack; spans buff; frames; simpl in *;
    (split; [intros _ k Hk Hx | split; [congruence | intros He' k Hk Hx]]);
    try (exfalso; congruence);
    pointwise buff k Hx.
Qed.

End PassSpan.

(** ** The text a pass accumulates *)



(** ** Tokens are well formed *)


Lemma length_string_of_list_ascii (run : list ascii) :
  String.length (string_of_list_ascii run) = length run.
Proof. induction run as [|c run IH]; [reflexivity|]. simpl. rewrite IH. reflexivity. Qed.


Lemma keyword_is_short (str : string) :
  spec_is_keyword str = true -> well_formed (new_token "KEYWORD" str) = true.
Proof.
  unfold spec_is_keyword. simpl. intros H.
  destruct (String.eqb "print" str) eqn:E1; [apply String.eqb_eq in E1; subst str; reflexivity|].
  destruct (String.eqb "if" str) eqn:E2; [apply String.eqb_eq in E2; subst str; reflexivity|].
  destruct (String.eqb "else" str) eqn:E3; [apply String.eqb_eq in E3; subst str; reflexivity|].
  discriminate H.
Qed.





Section PassToken.

Variables COMMENT VAR : ascii.
Variable buff : list ascii.


End PassToken.

(** ** The state a scan ends in *)

Section ScanResult.

Variables COMMENT VAR : ascii.
Variable buff : list ascii.
Variable m : TokenMgr.

Lemma scan_loop_final :
  forall (fuel : nat) (s s' : scanner),
    loop_head COMMENT VAR buff m s ->
    scan_loop COMMENT VAR fuel buff s = Done s' ->
    loop_head COMMENT VAR buff m s'
    /\ exists c, buff_at buff (s_bidx s') = Done c /\ (c = NUL \/ s_error s' <> 0).
Proof.
  induction fuel as [|fuel IH]; intros s s' Hhead H; [discriminate H|].
  simpl in H. apply bind_Done in H as (c & Hread & H).
  destruct (Ascii.eqb_spec c NUL) as [Hz|Hz]; simpl in H.
  { injection H as <-. split; [exact Hhead|]. exists c. auto. }
  destruct (Z.eqb_spec (s_error s) 0) as [He|He]; simpl in H.
  2:{ injection H as <-. split; [exact Hhead|]. exists c. auto. }
  apply bind_Done in H as (s1 & Hbody & H).
  apply (IH s1 s'); [|exact H].
  apply (head_after_pass _ _ _ _ s c); assumption.
Qed.

Lemma build_tokens_final (r : Z * option TokenMgr * list message) :
  build_tokens COMMENT VAR (Some buff) (Some m) = Done r ->
  exists s c,
    loop_head COMMENT VAR buff m s /\ buff_at buff (s_bidx s) = Done c
    /\ (c = NUL \/ s_error s <> 0) /\ finish s = Done r.
Proof.
  unfold build_tokens. intros H. apply bind_Done in H as (s & Hloop & H).
  apply scan_loop_final in Hloop as (Hhead & c & Hread & Hend); [|apply head_initial].
  exists s, c. auto.
Qed.

Lemma loop_head_store (addrs : list nat) (s : scanner) :
  holds m addrs -> loop_head COMMENT VAR buff m s ->
  exists new,
    heap (s_mgr s) = heap m ++ new
    /\ holds (s_mgr s) (addrs ++ seq (length (heap m)) (length new))
    /\ tokens (s_mgr s) = tokens m ++ (Some <$> new)
    /\ curr_tok (s_mgr s) = curr_tok m.
Proof.
  intros Hm. induction 1 as [|s c s' _ IH Hread Hc He Hbody].
  - exists []. simpl. rewrite !app_nil_r. auto.
  - destruct IH as (new & Hheap & Hholds & Htok & Hcur).
    destruct (loop_body_mgr COMMENT VAR buff s c s' Hbody) as [-> | (ty & v & Hroom & ->)].
    + exists new. auto.
    + exists (new ++ [new_token ty v]). cbn [heap with_token curr_tok].
      split; [rewrite Hheap, app_assoc; reflexivity|].
      split; [|split; [|exact Hcur]].
      * rewrite length_app. cbn [length]. rewrite Nat.add_1_r, seq_S, app_assoc.
        replace (length (heap m) + length new)%nat with (length (heap (s_mgr s)))
          by (rewrite Hheap, length_app; reflexivity).
        apply holds_with_token; assumption.
      * rewrite (tokens_with_token _ _ ty v Hholds Hroom), Htok, fmap_app, app_assoc.
        reflexivity.
Qed.


End ScanResult.

(** [build_tokens] appends: when it returns, with whatever status, the
    tokens the store held before are still there, in the same slots and
    the same order, the tokens of the scan follow them, each in a slot
    and at an address of its own, and the cursor is where it was. *)
Theorem build_tokens_appends_to_the_store
    (COMMENT VAR : ascii) (buff : list ascii) (m : TokenMgr) (addrs : list nat)
    (status : Z) (tm' : option TokenMgr) (printed : list message) :
  holds m addrs ->
  build_tokens COMMENT VAR (Some buff) (Some m) = Done (status, tm', printed) ->
  exists m' new,
    tm' = Some m' /\ heap m' = heap m ++ new
    /\ holds m' (addrs ++ seq (length (heap m)) (length new))
    /\ tokens m' = tokens m ++ (Some <$> new)
    /\ curr_tok m' = curr_tok m.
Proof.
  intros Hm H. apply build_tokens_final in H as (s & c & Hhead & _ & _ & Hfin).
  destruct (loop_head_store COMMENT VAR buff m addrs s Hm Hhead) as (new & Hnew).
  exists (s_mgr s), new. split; [|exact Hnew].
  unfold finish in Hfin. destruct (negb (s_error s =? 0)).
  - apply bind_Done in Hfin as (u & _ & Hfin). injection Hfin as _ <- _. reflexivity.
  - injection Hfin as _ <- _. reflexivity.
Qed.

Lemma build_tokens_appends_to_the_store_witness :
  let m := with_token (TokenMgr_new 4) "KEYWORD" "print" in
  let m' := with_token (with_token m "INTEGER" "3") "OPERATOR" "PLUS" in
  holds m [0%nat]
  /\ build_tokens "#"%char "$"%char (Some (c_string "3 + ?=")) (Some m)
     = Done (1, Some m', [InvalidSyntax "?" 1])
  /\ exists m1 new,
      Some m' = Some m1 /\ heap m1 = heap m ++ new
      /\ holds m1 ([0%nat] ++ seq (length (heap m)) (length new))
      /\ tokens m1 = tokens m ++ (Some <$> new)
      /\ curr_tok m1 = curr_tok m.
Proof.
  intros m m'.
  assert (Hm : holds m [0%nat]).
  { assert (H0 : holds (TokenMgr_new 4) []) by (apply holds_new; reflexivity).
    exact (holds_with_token _ _ "KEYWORD" "print" H0 eq_refl). }
  assert (Hrun : build_tokens "#"%char "$"%char (Some (c_string "3 + ?=")) (Some m)
                 = Done (1, Some m', [InvalidSyntax "?" 1])) by reflexivity.
  split; [exact Hm|]. split; [exact Hrun|].
  exact (build_tokens_appends_to_the_store "#"%char "$"%char (c_string "3 + ?=") m [0%nat]
           1 (Some m') [InvalidSyntax "?" 1] Hm Hrun).
Defined.



(** ** Lines and terminators *)

Lemma take_step (buff : list ascii) (i : Z) (c : ascii) :
  buff_at buff i = Done c ->
  take (Z.to_nat (i + 1)) buff = take (Z.to_nat i) buff ++ [c].
Proof.
  unfold buff_at, at_index. destruct (Z.leb_spec 0 i); [|discriminate].
  destruct (buff !! Z.to_nat i) eqn:E; [|discriminate]. intros Hd. injection Hd as ->.
  rewrite Z2Nat.inj_add by lia. change (Z.to_nat 1) with 1%nat. rewrite Nat.add_1_r.
  apply take_S_r, E.
Qed.

Lemma take_past_the_end (buff : list ascii) (i : Z) :
  0 <= i -> (forall c, buff_at buff i <> Done c) ->
  take (Z.to_nat (i + 1)) buff = take (Z.to_nat i) buff.
Proof.
  intros Hi Hno. unfold buff_at, at_index in Hno. destruct (Z.leb_spec 0 i); [|lia].
  destruct (buff !! Z.to_nat i) eqn:E; [exfalso; apply (Hno a); reflexivity|].
  apply lookup_ge_None in E. rewrite !take_ge by lia. reflexivity.
Qed.

Lemma newlines_app (l1 l2 : list ascii) : newlines (l1 ++ l2) = newlines l1 + newlines l2.
Proof. induction l1 as [|c l1 IH]; simpl; [reflexivity|]. rewrite IH. lia. Qed.

Lemma newlines_free (buff : list ascii) (i : Z) :
  0 <= i ->
  forall n : nat,
    free_of NEWLINE buff i (i + Z.of_nat n) ->
    newlines (take (Z.to_nat (i + Z.of_nat n)) buff) = newlines (take (Z.to_nat i) buff).
Proof.
  intros Hi. induction n as [|n IH]; intros Hfree.
  - rewrite Z.add_0_r. reflexivity.
  - assert (Hprev : free_of NEWLINE buff i (i + Z.of_nat n)).
    { intros k Hk. apply Hfree. lia. }
    replace (i + Z.of_nat (S n)) with (i + Z.of_nat n + 1) by lia.
    destruct (buff_at buff (i + Z.of_nat n)) as [c| |] eqn:E.
    + rewrite (take_step _ _ _ E), newlines_app, (IH Hprev). simpl.
      destruct (Ascii.eqb_spec c NEWLINE) as [->|_]; [|lia].
      exfalso. apply (Hfree (i + Z.of_nat n)); [lia | exact E].
    + rewrite take_past_the_end; [apply IH, Hprev | lia | intros c; rewrite E; discriminate].
    + rewrite take_past_the_end; [apply IH, Hprev | lia | intros c; rewrite E; discriminate].
Qed.

Lemma newlines_between (buff : list ascii) (i j : Z) :
  0 <= i <= j -> free_of NEWLINE buff i j ->
  newlines (take (Z.to_nat j) buff) = newlines (take (Z.to_nat i) buff).
Proof.
  intros Hij Hfree. replace j with (i + Z.of_nat (Z.to_nat (j - i))) in * by lia.
  apply newlines_free; [lia | exact Hfree].
Qed.

Lemma free_of_prefix (x : ascii) (buff : list ascii) (j : Z) :
  free_of x buff 0 j -> Forall (fun c => c <> x) (take (Z.to_nat j) buff).
Proof.
  intros Hfree. apply Forall_lookup. intros idx c Hc.
  apply lookup_take_Some in Hc as [Hc Hlt]. intros ->.
  apply (Hfree (Z.of_nat idx)); [lia|].
  unfold buff_at, at_index. destruct (Z.leb_spec 0 (Z.of_nat idx)); [|lia].
  rewrite Nat2Z.id, Hc. reflexivity.
Qed.

Section ScanLines.

Variables COMMENT VAR : ascii.
Variable buff : list ascii.
Variable m : TokenMgr.
Hypothesis comment_not_newline : COMMENT <> NEWLINE.

Lemma loop_head_lines (s : scanner) :
  loop_head COMMENT VAR buff m s ->
  s_out s = [] /\ (s_error s = 0 \/ s_error s = 1)
  /\ s_lineno s = 1 + newlines (take (Z.to_nat (s_bidx s)) buff)
  /\ (s_error s = 0 -> free_of NUL buff 0 (s_bidx s)).
Proof.
  induction 1 as [|s c s' Hhead IH Hread Hc He Hbody].
  - simpl. repeat split; auto. intros _ k Hk. lia.
  - destruct IH as (Hout & _ & Hline & Hnul).
    destruct (loop_head_invariant _ _ _ _ _ Hhead) as (Hpos & _).
    destruct (loop_body_effect COMMENT VAR buff s c s' Hc Hread Hbody)
      as (Hout' & Hline' & _ & Hle & _ & Hcases).
    destruct (loop_body_span COMMENT VAR buff comment_not_newline s c s' Hc Hread He Hbody)
      as (Hfree & Hstep & Hfree0).
    split; [congruence|].
    split; [destruct Hcases as [(Hsame & _) | (H1 & _)]; [left; congruence | right; exact H1]|].
    split.
    + rewrite Hline', Hline.
      destruct (Ascii.eqb_spec c NEWLINE) as [Hnl|Hnl].
      * rewrite (Hstep Hnl), (take_step _ _ _ Hread), newlines_app. subst c.
        rewrite (eqb_char_false_sym _ _ comment_not_newline). simpl. lia.
      * rewrite (newlines_between buff (s_bidx s) (s_bidx s')); [|lia|exact (Hfree Hnl)].
        rewrite andb_false_r. lia.
    + intros He' k Hk Hx.
      destruct (Z_lt_le_dec k (s_bidx s)) as [Hlt|Hge].
      * apply (Hnul He k); [lia | exact Hx].
      * apply (Hfree0 He' k); [lia | exact Hx].
Qed.

End ScanLines.

(** What [read_cstring] returns is the C string the array holds. *)
Lemma read_cstring_holds_text (a : list (option ascii)) (text : string) :
  read_cstring a = Done text -> holds_text a text.
Proof.
  unfold holds_text. revert text.
  induction a as [|[c|] a IH]; intros text H; simpl in H; try discriminate H.
  destruct (Ascii.eqb_spec c NUL) as [->|Hc].
  - injection H as <-. simpl. rewrite take_0. split; [reflexivity | constructor].
  - apply bind_Done in H as (rest & Hrest & H). injection H as <-.
    destruct (IH rest Hrest) as [Htake Hall].
    cbn [list_ascii_of_string length]. split.
    + change (take (S (S (length (list_ascii_of_string rest)))) (Some c :: a))
        with (Some c :: take (S (length (list_ascii_of_string rest))) a).
      rewrite Htake. reflexivity.
    + constructor; assumption.
Qed.

(** What [build_tokens] returns and prints, in terms of the state [s]
    in which the loop was left.  Status 0 comes with no output, and only
    when that state has [error] clear and [bidx] on the first NUL of the
    buffer, every character before it gone through.  Status 1 comes with
    [error] set in that state and exactly one message: its text is the
    C string the scratch array holds in that state, its line is the
    value of [lineno] there, which is 1 plus the number of newlines
    before [bidx].  There is no other status, and the manager handed
    back is the one of that state. *)
Theorem build_tokens_status_and_report
    (COMMENT VAR : ascii) (buff : list ascii) (m : TokenMgr)
    (status : Z) (tm' : option TokenMgr) (printed : list message) :
  COMMENT <> NEWLINE ->
  build_tokens COMMENT VAR (Some buff) (Some m) = Done (status, tm', printed) ->
  exists s : scanner,
    loop_head COMMENT VAR buff m s /\ tm' = Some (s_mgr s) /\ status = s_error s
    /\ s_lineno s = 1 + newlines (take (Z.to_nat (s_bidx s)) buff)
    /\ ((status = 0 /\ printed = []
         /\ buff !! Z.to_nat (s_bidx s) = Some NUL
         /\ Forall (fun c => c <> NUL) (take (Z.to_nat (s_bidx s)) buff))
        \/ (status = 1
            /\ exists text : string,
                holds_text (s_store s) text
                /\ printed = [InvalidSyntax text (s_lineno s)])).
Proof.
  intros HCN H. apply build_tokens_final in H as (s & c & Hhead & Hread & Hend & Hfin).
  destruct (loop_head_lines COMMENT VAR buff m HCN s Hhead) as (Hout & Herr & Hline & Hnul).
  exists s. split; [exact Hhead|].
  unfold finish in Hfin. destruct Herr as [He|He]; rewrite He in Hfin; simpl in Hfin.
  - injection Hfin as <- <- <-. split; [reflexivity|]. split; [symmetry; exact He|].
    split; [exact Hline|]. left. split; [reflexivity|]. split; [exact Hout|].
    destruct Hend as [->|Hne]; [|congruence].
    split; [|apply free_of_prefix, Hnul, He].
    unfold buff_at, at_index in Hread. destruct (0 <=? s_bidx s); [|discriminate].
    destruct (buff !! Z.to_nat (s_bidx s)) as [x|]; [|discriminate]. congruence.
  - apply bind_Done in Hfin as (text & Htext & Hfin). injection Hfin as <- <- <-.
    split; [reflexivity|]. split; [symmetry; exact He|]. split; [exact Hline|].
    right. split; [reflexivity|]. exists text.
    split; [exact (read_cstring_holds_text _ _ Htext)|].
    rewrite Hout. reflexivity.
Qed.

Lemma build_tokens_status_and_report_witness :
  let good := c_string "3 + 4" in
  let bad := NEWLINE :: c_string "{a" in
  let m := TokenMgr_new 4 in
  let m' := with_token (with_token (with_token m "INTEGER" "3") "OPERATOR" "PLUS")
                       "INTEGER" "4" in
  "#"%char <> NEWLINE
  /\ build_tokens "#"%char "$"%char (Some good) (Some m) = Done (0, Some m', [])
  /\ build_tokens "#"%char "$"%char (Some bad) (Some m) = Done (1, Some m, [InvalidSyntax "a" 2])
  /\ (exists s : scanner,
        loop_head "#"%char "$"%char good m s /\ Some m' = Some (s_mgr s) /\ 0 = s_error s
        /\ s_lineno s = 1 + newlines (take (Z.to_nat (s_bidx s)) good)
        /\ ((0 = 0 /\ @nil message = []
             /\ good !! Z.to_nat (s_bidx s) = Some NUL
             /\ Forall (fun c => c <> NUL) (take (Z.to_nat (s_bidx s)) good))
            \/ (0 = 1
                /\ exists text : string,
                    holds_text (s_store s) text
                    /\ @nil message = [InvalidSyntax text (s_lineno s)])))
  /\ (exists s : scanner,
        loop_head "#"%char "$"%char bad m s /\ Some m = Some (s_mgr s) /\ 1 = s_error s
        /\ s_lineno s = 1 + newlines (take (Z.to_nat (s_bidx s)) bad)
        /\ ((1 = 0 /\ [InvalidSyntax "a" 2] = []
             /\ bad !! Z.to_nat (s_bidx s) = Some NUL
             /\ Forall (fun c => c <> NUL) (take (Z.to_nat (s_bidx s)) bad))
            \/ (1 = 1
                /\ exists text : string,
                    holds_text (s_store s) text
                    /\ [InvalidSyntax "a" 2] = [InvalidSyntax text (s_lineno s)]))).
Proof.
  intros good bad m m'.
  assert (H0 : "#"%char <> NEWLINE) by discriminate.
  assert (H1 : build_tokens "#"%char "$"%char (Some good) (Some m) = Done (0, Some m', []))
    by (vm_compute; reflexivity).
  assert (H2 : build_tokens "#"%char "$"%char (Some bad) (Some m)
               = Done (1, Some m, [InvalidSyntax "a" 2]))
    by (vm_compute; reflexivity).
  split; [exact H0|]. split; [exact H1|]. split; [exact H2|]. split.
  - exact (build_tokens_status_and_report "#"%char "$"%char good m 0 (Some m') [] H0 H1).
  - exact (build_tokens_status_and_report "#"%char "$"%char bad m 1 (Some m) _ H0 H2).
Defined.

(** ** The line counter *)

Lemma newlines_bounded (l : list ascii) : 0 <= newlines l <= Z.of_nat (length l).
Proof.
  induction l as [|x l IH]; simpl; [lia|].
  destruct (x =? NEWLINE)%char; lia.
Qed.

(** The line counter, for a buffer shorter than [INT_MAX] bytes: a pass
    through the loop adds one to [lineno] when the character at [bidx]
    is a newline, and leaves it alone on every other character, other
    white space included; [lineno] stays an [int]. *)
Theorem line_counter_counts_newlines
    (COMMENT VAR : ascii) (buff : list ascii) (m : TokenMgr)
    (s : scanner) (c : ascii) (s' : scanner) :
  COMMENT <> NEWLINE -> Z.of_nat (length buff) < INT_MAX ->
  loop_head COMMENT VAR buff m s -> s_error s = 0 ->
  buff_at buff (s_bidx s) = Done c -> c <> NUL ->
  loop_body COMMENT VAR buff s c = Done s' ->
  s_lineno s' = s_lineno s + (if (c =? NEWLINE)%char then 1 else 0)
  /\ 1 <= s_lineno s <= INT_MAX /\ 1 <= s_lineno s' <= INT_MAX.
Proof.
  intros HCN Hshort Hhead He Hread Hc Hbody.
  assert (Hhead' := head_after_pass COMMENT VAR buff m s c s' Hhead Hread Hc He Hbody).
  destruct (loop_head_lines COMMENT VAR buff m HCN s Hhead) as (_ & _ & Hl & _).
  destruct (loop_head_lines COMMENT VAR buff m HCN s' Hhead') as (_ & _ & Hl' & _).
  assert (Hn := newlines_bounded (take (Z.to_nat (s_bidx s)) buff)).
  assert (Hn' := newlines_bounded (take (Z.to_nat (s_bidx s')) buff)).
  rewrite length_take in Hn, Hn'.
  split; [|lia].
  destruct (loop_body_effect COMMENT VAR buff s c s' Hc Hread Hbody) as (_ & Hline & _).
  rewrite Hline.
  destruct (Ascii.eqb_spec c COMMENT) as [->|_]; [|reflexivity].
  rewrite (eqb_char_false _ _ HCN). reflexivity.
Qed.

Lemma line_counter_counts_newlines_witness :
  let buff := NEWLINE :: " "%char :: c_string "3" in
  let m := TokenMgr_new 4 in
  let s := scanner_init m in
  let s1 := set_bidx (set_lineno s 2) 1 in
  "#"%char <> NEWLINE /\ Z.of_nat (length buff) < INT_MAX
  /\ loop_head "#"%char "$"%char buff m s /\ s_error s = 0
  /\ buff_at buff (s_bidx s) = Done NEWLINE /\ NEWLINE <> NUL
  /\ loop_body "#"%char "$"%char buff s NEWLINE = Done s1
  /\ loop_head "#"%char "$"%char buff m s1 /\ s_error s1 = 0
  /\ buff_at buff (s_bidx s1) = Done " "%char /\ " "%char <> NUL
  /\ loop_body "#"%char "$"%char buff s1 " "%char = Done (set_bidx s1 2)
  /\ (s_lineno s1 = s_lineno s + 1
      /\ 1 <= s_lineno s <= INT_MAX /\ 1 <= s_lineno s1 <= INT_MAX)
  /\ (s_lineno (set_bidx s1 2) = s_lineno s1 + 0
      /\ 1 <= s_lineno s1 <= INT_MAX /\ 1 <= s_lineno (set_bidx s1 2) <= INT_MAX).
Proof.
  intros buff m s s1.
  assert (H0 : "#"%char <> NEWLINE) by discriminate.
  assert (Hs : Z.of_nat (length buff) < INT_MAX) by (vm_compute; reflexivity).
  assert (Hh : loop_head "#"%char "$"%char buff m s) by apply head_initial.
  assert (He : s_error s = 0) by reflexivity.
  assert (H1 : buff_at buff (s_bidx s) = Done NEWLINE) by reflexivity.
  assert (H2 : NEWLINE <> NUL) by discriminate.
  assert (H3 : loop_body "#"%char "$"%char buff s NEWLINE = Done s1) by reflexivity.
  assert (Hh1 : loop_head "#"%char "$"%char buff m s1)
    by exact (head_after_pass _ _ _ _ s NEWLINE s1 Hh H1 H2 He H3).
  assert (He1 : s_error s1 = 0) by reflexivity.
  assert (H4 : buff_at buff (s_bidx s1) = Done " "%char) by reflexivity.
  assert (H5 : " "%char <> NUL) by discriminate.
  assert (H6 : loop_body "#"%char "$"%char buff s1 " "%char = Done (set_bidx s1 2))
    by reflexivity.
  repeat (split; [assumption|]). split.
  - exact (line_counter_counts_newlines "#"%char "$"%char buff m s NEWLINE s1
             H0 Hs Hh He H1 H2 H3).
  - exact (line_counter_counts_newlines "#"%char "$"%char buff m s1 " "%char _
             H0 Hs Hh1 He1 H4 H5 H6).
Defined.

(** ** The text of the report *)

Lemma push_assigned (s s1 : scanner) (c : ascii) :
  push s c = Done s1 -> assigned s -> assigned s1.
Proof.
  unfold push. intros H (j & Hj & Hfill).
  apply bind_Done in H as (st & Hst & H). injection H as <-.
  assert (Hin : (j < length (s_store s))%nat).
  { rewrite Hj in Hst. destruct (Nat.lt_ge_cases j (length (s_store s))) as [Hlt|Hge]; [exact Hlt|].
    rewrite store_set_out in Hst by exact Hge. discriminate Hst. }
  rewrite Hj, store_set_in in Hst by exact Hin. injection Hst as <-.
  exists (S j). cbn [s_stctr s_store set_stctr set_store]. split; [lia|].
  intros i Hi. destruct (Nat.eq_dec i j) as [->|Hne].
  - exists c. apply list_lookup_insert_eq, Hin.
  - rewrite list_lookup_insert_ne by congruence. apply Hfill. lia.
Qed.

Lemma advance_assigned (buff : list ascii) (s s1 : scanner) (c : ascii) :
  advance buff s = Done (c, s1) -> assigned s -> assigned s1.
Proof.
  unfold advance. intros H Ha. apply bind_Done in H as (x & _ & H).
  injection H as _ <-. exact Ha.
Qed.

Lemma accumulate_assigned (cond : ascii -> bool) (buff : list ascii) :
  forall (fuel : nat) (c : ascii) (s : scanner) (c' : ascii) (s1 : scanner),
    accumulate cond fuel buff c s = Done (c', s1) -> assigned s -> assigned s1.
Proof.
  induction fuel as [|fuel IH]; intros c s c' s1 H Ha; [discriminate H|].
  simpl in H. destruct (cond c).
  - apply bind_Done in H as (s2 & Hp & H).
    apply bind_Done in H as ([c2 s3] & Hadv & H).
    apply (IH _ _ _ _ H). apply (advance_assigned _ _ _ _ Hadv).
    apply (push_assigned _ _ _ Hp Ha).
  - injection H as _ <-. exact Ha.
Qed.

Lemma read_cstring_assigned (l : list (option ascii)) (j : nat) :
  (forall i, (i < j)%nat -> exists c, l !! i = Some (Some c)) ->
  l !! j = Some (Some NUL) ->
  exists v, read_cstring l = Done v.
Proof.
  revert l. induction j as [|j IH]; intros l Hfill Hend.
  - destruct l as [|x l]; [discriminate Hend|]. simpl in Hend. injection Hend as ->.
    exists EmptyString. reflexivity.
  - destruct l as [|x l]; [discriminate Hend|].
    destruct (Hfill 0%nat) as (c & Hc); [lia|]. simpl in Hc. injection Hc as ->.
    simpl. destruct (c =? NUL)%char; [eexists; reflexivity|].
    destruct (IH l) as (v & Hv).
    + intros i Hi. apply (Hfill (S i)). lia.
    + exact Hend.
    + rewrite Hv. eexists. reflexivity.
Qed.

Lemma terminate_readable (s s1 : scanner) :
  terminate s = Done s1 -> assigned s -> exists v, read_cstring (s_store s1) = Done v.
Proof.
  unfold terminate. intros H (j & Hj & Hfill).
  apply bind_Done in H as (st & Hst & H). injection H as <-.
  assert (Hin : (j < length (s_store s))%nat).
  { rewrite Hj in Hst. destruct (Nat.lt_ge_cases j (length (s_store s))) as [Hlt|Hge]; [exact Hlt|].
    rewrite store_set_out in Hst by exact Hge. discriminate Hst. }
  rewrite Hj, store_set_in in Hst by exact Hin. injection Hst as <-.
  cbn [s_store set_store]. apply (read_cstring_assigned _ j).
  - intros i Hi. rewrite list_lookup_insert_ne by lia. apply Hfill, Hi.
  - apply list_lookup_insert_eq, Hin.
Qed.

Section PassReport.

Variables COMMENT VAR : ascii.
Variable buff : list ascii.

Lemma loop_body_report (s : scanner) (c : ascii) (s' : scanner) :
  s_stctr s = 0 -> s_error s = 0 ->
  loop_body COMMENT VAR buff s c = Done s' -> s_error s' <> 0 ->
  exists text, read_cstring (s_store s') = Done text.
Proof.
  intros Hst He H Herr.
  assert (Hs : assigned s).
  { exists 0%nat. split; [exact Hst|]. intros i Hi. lia. }
  unfold loop_body in H.
  crack;
    repeat match goal with
           | Hp : push ?s0 _ = Done ?s1, Ha : assigned ?s0 |- _ =>
               lazymatch goal with
               | _ : assigned s1 |- _ => fail
               | _ => assert (assigned s1) by exact (push_assigned _ _ _ Hp Ha)
               end
           | Hp : advance _ ?s0 = Done (_, ?s1), Ha : assigned ?s0 |- _ =>
               lazymatch goal with
               | _ : assigned s1 |- _ => fail
               | _ => assert (assigned s1) by exact (advance_assigned _ _ _ _ Hp Ha)
               end
           | Hp : accumulate _ _ _ _ ?s0 = Done (_, ?s1), Ha : assigned ?s0 |- _ =>
               lazymatch goal with
               | _ : assigned s1 |- _ => fail
               | _ => assert (assigned s1) by exact (accumulate_assigned _ _ _ _ _ _ _ Hp Ha)
               end
           | Hp : terminate ?s0 = Done ?s1, Ha : assigned ?s0 |- _ =>
               lazymatch goal with
               | _ : exists v, read_cstring (s_store s1) = Done v |- _ => fail
               | _ => assert (exists v, read_cstring (s_store s1) = Done v)
                        by exact (terminate_readable _ _ Hp Ha)
               end
           end;
    frames; simpl in *;
    first [ exfalso; congruence | assumption | eauto ].
Qed.

End PassReport.

(** A pass that sets [error] is reported: [build_tokens] returns 1 with
    the manager as the pass found it, and prints one message, whose
    text is the C string the scratch array holds after the pass and
    whose line is 1 plus the number of newlines before the character the
    pass began at. *)
Theorem failing_pass_is_reported
    (COMMENT VAR : ascii) (buff : list ascii) (m : TokenMgr)
    (s : scanner) (c : ascii) (s' : scanner) :
  COMMENT <> NEWLINE ->
  loop_head COMMENT VAR buff m s -> s_error s = 0 ->
  buff_at buff (s_bidx s) = Done c -> c <> NUL ->
  loop_body COMMENT VAR buff s c = Done s' -> s_error s' <> 0 ->
  exists text : string,
    holds_text (s_store s') text
    /\ build_tokens COMMENT VAR (Some buff) (Some m)
       = Done (1, Some (s_mgr s),
               [InvalidSyntax text (1 + newlines (take (Z.to_nat (s_bidx s)) buff))]).
Proof.
  intros HCN Hhead He Hread Hc Hbody Herr.
  destruct (loop_head_invariant _ _ _ _ _ Hhead) as (_ & _ & _ & Hst).
  destruct (loop_head_lines COMMENT VAR buff m HCN s Hhead) as (Hout & _ & Hline & _).
  destruct (loop_body_report COMMENT VAR buff s c s' (Hst He) He Hbody Herr) as (text & Htext).
  destruct (loop_body_effect COMMENT VAR buff s c s' Hc Hread Hbody)
    as (Hout' & Hline' & _ & _ & _ & [(Hsame & _) | (H1 & Hm & _)]); [congruence|].
  exists text. split; [exact (read_cstring_holds_text _ _ Htext)|].
  rewrite (failing_pass COMMENT VAR buff m HCN s c s' Hhead He Hread Hc Hbody Herr).
  unfold finish. rewrite H1, Htext. simpl. rewrite Hm, Hout', Hout, Hline', Hline.
  destruct (Ascii.eqb_spec c NEWLINE) as [->|Hnl]; [|rewrite andb_false_r, Z.add_0_r; reflexivity].
  exfalso. unfold loop_body in Hbody.
  rewrite (eqb_char_false_sym _ _ HCN) in Hbody. simpl in Hbody.
  injection Hbody as <-. simpl in H1. congruence.
Qed.

Lemma failing_pass_is_reported_witness :
  let buff := NEWLINE :: c_string "3 {!}" in
  let m := TokenMgr_new 4 in
  let m1 := with_token m "INTEGER" "3" in
  let s0 := set_bidx (set_lineno (scanner_init m) 2) 1 in
  let s1 := mkScanner (<[1%nat := Some NUL]> (<[0%nat := Some "3"%char]> store_new))
                      2 0 0 2 m1 [] in
  let s := set_bidx s1 3 in
  let s' := mkScanner (<[1%nat := Some NUL]> (<[0%nat := Some "!"%char]> (s_store s)))
                      4 1 1 2 m1 [] in
  "#"%char <> NEWLINE
  /\ loop_head "#"%char "$"%char buff m s
  /\ s_error s = 0 /\ buff_at buff (s_bidx s) = Done LBRACE /\ LBRACE <> NUL
  /\ loop_body "#"%char "$"%char buff s LBRACE = Done s'
  /\ s_error s' <> 0
  /\ holds_text (s_store s') "!"
  /\ build_tokens "#"%char "$"%char (Some buff) (Some m)
     = Done (1, Some m1, [InvalidSyntax "!" 2])
  /\ exists text : string,
      holds_text (s_store s') text
      /\ build_tokens "#"%char "$"%char (Some buff) (Some m)
         = Done (1, Some (s_mgr s),
                 [InvalidSyntax text (1 + newlines (take (Z.to_nat (s_bidx s)) buff))]).
Proof.
  intros buff m m1 s0 s1 s s'.
  assert (H0 : "#"%char <> NEWLINE) by discriminate.
  assert (Hh0 : loop_head "#"%char "$"%char buff m s0).
  { apply (head_after_pass _ _ _ _ (scanner_init m) NEWLINE);
      [apply head_initial | reflexivity | discriminate | reflexivity | reflexivity]. }
  assert (Hh1 : loop_head "#"%char "$"%char buff m s1).
  { apply (head_after_pass _ _ _ _ s0 "3"%char);
      [exact Hh0 | reflexivity | discriminate | reflexivity | reflexivity]. }
  assert (Hh : loop_head "#"%char "$"%char buff m s).
  { apply (head_after_pass _ _ _ _ s1 " "%char);
      [exact Hh1 | reflexivity | discriminate | reflexivity | reflexivity]. }
  assert (H1 : s_error s = 0) by reflexivity.
  assert (H2 : buff_at buff (s_bidx s) = Done LBRACE) by reflexivity.
  assert (H3 : LBRACE <> NUL) by discriminate.
  assert (H4 : loop_body "#"%char "$"%char buff s LBRACE = Done s') by reflexivity.
  assert (H5 : s_error s' <> 0) by discriminate.
  assert (H6 : holds_text (s_store s') "!").
  { split; [reflexivity | repeat constructor; discriminate]. }
  assert (H7 : build_tokens "#"%char "$"%char (Some buff) (Some m)
               = Done (1, Some m1, [InvalidSyntax "!" 2])) by (vm_compute; reflexivity).
  repeat (split; [assumption|]).
  exact (failing_pass_is_reported "#"%char "$"%char buff m s LBRACE s' H0 Hh H1 H2 H3 H4 H5).
Defined.

(** * The constructs of the language, one pass each *)

Lemma fixed_character_tests (c : ascii) :
  fixed_character c = false ->
  (c =? NEWLINE)%char = false /\ (c =? BANG)%char = false /\ isspace c = false
  /\ (c =? LPAREN)%char = false /\ (c =? RPAREN)%char = false
  /\ (c =? LESSTHAN)%char = false /\ (c =? GREATERTHAN)%char = false
  /\ (c =? EQUAL)%char = false /\ (c =? PLUS)%char = false
  /\ (c =? MINUS)%char = false /\ (c =? ASTERISK)%char = false
  /\ (c =? FSLASH)%char = false /\ (c =? DQUOTE)%char = false.
Proof.
  unfold fixed_character. intros H.
  repeat (apply orb_false_elim in H; destruct H as [H ?]).
  repeat split; assumption.
Qed.

Lemma isdigit_fixed (c : ascii) : isdigit c = true -> fixed_character c = false.
Proof.
  destruct c as [[] [] [] [] [] [] [] []]; intros H; vm_compute in H;
    try discriminate H; reflexivity.
Qed.

Lemma isalpha_fixed (c : ascii) :
  isalpha c = true ->
  fixed_character c = false /\ isdigit c = false /\ (c =? LBRACE)%char = false.
Proof.
  destruct c as [[] [] [] [] [] [] [] []]; intros H; vm_compute in H;
    try discriminate H; repeat split.
Qed.

(** Rewrite with the tests of the chain that are known to fail. *)
Ltac skip_fixed H :=
  let T := fresh "T" in
  destruct (fixed_character_tests _ H)
    as (?T & ?T & ?T & ?T & ?T & ?T & ?T & ?T & ?T & ?T & ?T & ?T & ?T);
  repeat match goal with
         | E : (_ =? _)%char = false |- _ => rewrite E; clear E
         | E : isspace _ = false |- _ => rewrite E; clear E
         end.

Lemma fits_the_buffer (buff : list ascii) (n : nat) (l r : list ascii) :
  drop n buff = l ++ r -> (length l + length r <= length buff)%nat.
Proof.
  intros H. assert (Hl := f_equal length H). rewrite length_drop, length_app in Hl. lia.
Qed.

Section Lexemes.

Variables COMMENT VAR : ascii.
Variable buff : list ascii.
Variable s : scanner.

Hypothesis position : 0 <= s_bidx s.
Hypothesis scratch_empty : s_stctr s = 0.
Hypothesis scratch_size : length (s_store s) = STORE_SIZE.

(** The accumulation loop and the terminator after it, entered at the
    first character of the run. *)
Lemma run_accumulated (cond : ascii -> bool) (s0 : scanner) (run : list ascii)
    (t : ascii) (post : list ascii) :
  0 <= s_bidx s0 -> s_stctr s0 = 0 -> s_store s0 = s_store s ->
  drop (Z.to_nat (s_bidx s0)) buff = run ++ t :: post ->
  Forall (fun x => cond x = true) run -> cond t = false ->
  (length run < STORE_SIZE)%nat ->
  exists s1,
    accumulate cond (length buff) buff (hd t run) s0 = Done (t, s1)
    /\ terminate s1
       = Done (mkScanner (terminated (s_store s) run)
                         (s_bidx s0 + Z.of_nat (length run)) (Z.of_nat (length run))
                         (s_error s0) (s_lineno s0) (s_mgr s0) (s_out s0)).
Proof.
  intros Hpos Hst Hstore Hbuf Hall Ht Hfit.
  assert (Hfuel := fits_the_buffer _ _ _ _ Hbuf). cbn [length] in Hfuel.
  eexists. split.
  - apply (accumulate_run cond buff t post Ht run _ _ 0%nat); try assumption.
    + rewrite Hstore, scratch_size. simpl. lia.
    + lia.
  - rewrite (terminate_written _ (s_store s) run); cbn [s_store s_stctr];
      [reflexivity | rewrite Hstore; reflexivity | reflexivity
       | rewrite scratch_size; exact Hfit].
Qed.

Lemma run_overflows (cond : ascii -> bool) (s0 : scanner) (run : list ascii)
    (t : ascii) (post : list ascii) :
  0 <= s_bidx s0 -> s_stctr s0 = 0 -> s_store s0 = s_store s ->
  drop (Z.to_nat (s_bidx s0)) buff = run ++ t :: post ->
  Forall (fun x => cond x = true) run -> cond t = false ->
  (STORE_SIZE <= length run)%nat ->
  bind (accumulate cond (length buff) buff (hd t run) s0) (fun r => terminate r.2)
  = Undefined StoreOverflow.
Proof.
  intros Hpos Hst Hstore Hbuf Hall Ht Hlong.
  assert (Hfuel := fits_the_buffer _ _ _ _ Hbuf). cbn [length] in Hfuel.
  destruct (Nat.eq_dec (length run) STORE_SIZE) as [Heq|Hne].
  - rewrite (accumulate_run cond buff t post Ht run _ _ 0%nat); try assumption;
      [| rewrite Hstore, scratch_size, Heq; simpl; lia | lia].
    cbn [bind snd]. unfold terminate. cbn [s_stctr s_store].
    rewrite store_set_out; [reflexivity|].
    unfold written. simpl. rewrite length_app, length_fmap, length_drop, Hstore, scratch_size. lia.
  - rewrite (accumulate_overflow cond buff t run (t :: post) _ _ 0%nat);
      [reflexivity | exact Hpos | exact Hbuf | exact Hall | exact Hst
       | rewrite Hstore, scratch_size; lia | rewrite Hstore, scratch_size; lia].
Qed.

Lemma integer_pass (c : ascii) (digits : list ascii) (t : ascii) (post : list ascii) :
  c <> COMMENT -> c <> VAR ->
  drop (Z.to_nat (s_bidx s)) buff = (c :: digits) ++ t :: post ->
  Forall (fun x => isdigit x = true) (c :: digits) -> isdigit t = false ->
  ((length (c :: digits) < STORE_SIZE)%nat ->
   in_bounds (toks (s_mgr s)) (tok_ctr (s_mgr s)) = true ->
   loop_body COMMENT VAR buff s c
   = Done (text_token s "INTEGER" (c :: digits) (Z.of_nat (length (c :: digits)))))
  /\ ((STORE_SIZE <= length (c :: digits))%nat ->
      loop_body COMMENT VAR buff s c = Undefined StoreOverflow).
Proof.
  intros HC HV Hbuf Hall Ht.
  assert (Hc : isdigit c = true) by (inversion Hall; assumption).
  assert (Hfix := isdigit_fixed c Hc).
  assert (Hbody : loop_body COMMENT VAR buff s c
                  = bind (accumulate isdigit (length buff) buff c s) (fun r =>
                      bind (terminate r.2) (fun s2 =>
                        bind (emit_store s2 "INTEGER") (fun s3 => Done (set_stctr s3 0))))).
  { unfold loop_body. rewrite (eqb_char_false _ _ HC). skip_fixed Hfix.
    rewrite (eqb_char_false _ _ HV), Hc.
    destruct (accumulate isdigit (length buff) buff c s) as [[c' s1]| |]; reflexivity. }
  rewrite Hbody. split.
  - intros Hfit Hroom.
    destruct (run_accumulated isdigit s (c :: digits) t post) as (s1 & Hacc & Hterm);
      try assumption; try reflexivity.
    cbn [hd] in Hacc. rewrite Hacc. cbn [bind snd]. rewrite Hterm. cbn [bind].
    unfold emit_store. cbn [s_store]. unfold terminated at 1.
    rewrite read_cstring_written.
    2:{ eapply Forall_impl; [exact Hall|]. intros x Hx ->. discriminate Hx. }
    cbn [bind]. rewrite emit_room by exact Hroom. reflexivity.
  - intros Hlong.
    assert (Hover := run_overflows isdigit s (c :: digits) t post position scratch_empty
                       eq_refl Hbuf Hall Ht Hlong).
    cbn [hd] in Hover.
    destruct (accumulate isdigit (length buff) buff c s) as [[c' s1]| |];
      cbn [bind snd] in *; [rewrite Hover; reflexivity | exact Hover | exact Hover].
Qed.

Lemma keyword_pass (c : ascii) (word : list ascii) (t : ascii) (post : list ascii) :
  c <> COMMENT -> c <> VAR -> isalpha c = true ->
  drop (Z.to_nat (s_bidx s)) buff = (c :: word) ++ t :: post ->
  Forall (fun x => is_valid_identifier x = true) word -> is_valid_identifier t = false ->
  (length (c :: word) < STORE_SIZE)%nat ->
  spec_is_keyword (string_of_list_ascii (c :: word)) = true ->
  in_bounds (toks (s_mgr s)) (tok_ctr (s_mgr s)) = true ->
  loop_body COMMENT VAR buff s c
  = Done (text_token s "KEYWORD" (c :: word) (Z.of_nat (length (c :: word)))).
Proof.
  intros HC HV Halpha Hbuf Hword Ht Hfit Hkw Hroom.
  assert (Hall : Forall (fun x => is_valid_identifier x = true) (c :: word)).
  { constructor; [apply isalpha_identifier, Halpha | exact Hword]. }
  destruct (isalpha_fixed c Halpha) as (Hfix & Hdig & Hbrace).
  unfold loop_body. rewrite (eqb_char_false _ _ HC). skip_fixed Hfix.
  rewrite (eqb_char_false _ _ HV), Hdig, Halpha.
  destruct (run_accumulated is_valid_identifier s (c :: word) t post) as (s1 & Hacc & Hterm);
    try assumption; try reflexivity.
  cbn [hd] in Hacc. rewrite Hacc. cbn [bind]. rewrite Hterm. cbn [bind s_store].
  unfold terminated at 1. rewrite read_cstring_written.
  2:{ eapply Forall_impl; [exact Hall|]. intros x Hx. apply identifier_not_NUL, Hx. }
  cbn [bind]. unfold is_valid_keyword. rewrite keyword_loop_outcome, Hkw. cbn [bind].
  change (negb (1 =? 0)) with true. cbv iota.
  rewrite emit_room by exact Hroom. reflexivity.
Qed.

Lemma identifier_pass (name : list ascii) (t : ascii) (post : list ascii) :
  VAR <> COMMENT -> fixed_character VAR = false ->
  drop (Z.to_nat (s_bidx s)) buff = VAR :: name ++ t :: post ->
  Forall (fun x => is_valid_identifier x = true) name -> is_valid_identifier t = false ->
  ((length name < STORE_SIZE)%nat ->
   in_bounds (toks (s_mgr s)) (tok_ctr (s_mgr s)) = true ->
   loop_body COMMENT VAR buff s VAR
   = Done (text_token s "IDENTIFIER" name (1 + Z.of_nat (length name))))
  /\ ((STORE_SIZE <= length name)%nat ->
      loop_body COMMENT VAR buff s VAR = Undefined StoreOverflow).
Proof.
  intros HC Hfix Hbuf Hall Ht.
  destruct (buff_at_drop _ _ _ _ position Hbuf) as [_ Hd].
  assert (Hnext : buff_at buff (s_bidx s + 1) = Done (hd t name)).
  { destruct name as [|c' run']; simpl in Hd; apply buff_at_drop in Hd; try lia; apply Hd. }
  assert (Hbody : loop_body COMMENT VAR buff s VAR
                  = bind (accumulate is_valid_identifier (length buff) buff (hd t name)
                            (set_bidx s (s_bidx s + 1))) (fun r =>
                      bind (terminate r.2) (fun s3 =>
                        bind (emit_store s3 "IDENTIFIER") (fun s4 => Done (set_stctr s4 0))))).
  { unfold loop_body. rewrite (eqb_char_false _ _ HC). skip_fixed Hfix.
    rewrite Ascii.eqb_refl. unfold advance. rewrite Hnext. cbn [bind].
    destruct (accumulate _ _ _ _ _) as [[c' s1]| |]; reflexivity. }
  rewrite Hbody. split.
  - intros Hfit Hroom.
    destruct (run_accumulated is_valid_identifier (set_bidx s (s_bidx s + 1)) name t post)
      as (s1 & Hacc & Hterm); cbn [s_bidx s_stctr s_store set_bidx];
      try assumption; try reflexivity; [lia|].
    rewrite Hacc. cbn [bind snd]. rewrite Hterm. cbn [bind s_error s_lineno s_mgr s_out set_bidx].
    unfold emit_store. cbn [s_store]. unfold terminated at 1.
    rewrite read_cstring_written.
    2:{ eapply Forall_impl; [exact Hall|]. intros x Hx. apply identifier_not_NUL, Hx. }
    cbn [bind]. rewrite emit_room by exact Hroom. cbn [bind].
    unfold text_token, set_stctr. simpl. do 2 f_equal. lia.
  - intros Hlong.
    assert (Hover := run_overflows is_valid_identifier (set_bidx s (s_bidx s + 1)) name t post).
    cbn [s_bidx s_stctr s_store set_bidx] in Hover.
    specialize (Hover ltac:(lia) scratch_empty eq_refl Hd Hall Ht Hlong).
    destruct (accumulate _ _ _ _ _) as [[c' s1]| |];
      cbn [bind snd] in *; [rewrite Hover; reflexivity | exact Hover | exact Hover].
Qed.

Lemma one_character_stored (t : ascii) :
  bind (push s t) terminate
  = Done (mkScanner (terminated (s_store s) [t]) (s_bidx s) 1
                    (s_error s) (s_lineno s) (s_mgr s) (s_out s)).
Proof.
  unfold push. rewrite scratch_empty. change 0 with (Z.of_nat 0).
  rewrite store_set_in by (rewrite scratch_size; unfold STORE_SIZE; lia).
  cbn [bind].
  rewrite (terminate_written _ (s_store s) [t]); cbn [s_store s_stctr set_stctr set_store];
    [reflexivity | | reflexivity | rewrite scratch_size; unfold STORE_SIZE; simpl; lia].
  rewrite <- (written_cons (s_store s) 0 t []), written_nil; [reflexivity|].
  rewrite scratch_size. unfold STORE_SIZE. lia.
Qed.

Lemma group_pass (name : list ascii) (t : ascii) (post : list ascii) :
  COMMENT <> LBRACE -> VAR <> LBRACE ->
  drop (Z.to_nat (s_bidx s)) buff = LBRACE :: name ++ t :: post ->
  Forall (fun x => is_valid_identifier x = true) name -> is_valid_identifier t = false ->
  (name = [] ->
   loop_body COMMENT VAR buff s LBRACE
   = Done (mkScanner (terminated (s_store s) [t]) (s_bidx s + 1) 1 1
                     (s_lineno s) (s_mgr s) (s_out s)))
  /\ (name <> [] -> (length name < STORE_SIZE)%nat ->
      (t = RBRACE -> in_bounds (toks (s_mgr s)) (tok_ctr (s_mgr s)) = true ->
       loop_body COMMENT VAR buff s LBRACE
       = Done (text_token s "GROUP" name (Z.of_nat (length name) + 2)))
      /\ (t <> RBRACE ->
          loop_body COMMENT VAR buff s LBRACE
          = Done (mkScanner (terminated (s_store s) name)
                            (s_bidx s + 1 + Z.of_nat (length name))
                            (Z.of_nat (length name)) 1
                            (s_lineno s) (s_mgr s) (s_out s)))).
Proof.
  intros HC HV Hbuf Hall Ht.
  destruct (buff_at_drop _ _ _ _ position Hbuf) as [_ Hd].
  assert (Hnext : buff_at buff (s_bidx s + 1) = Done (hd t name)).
  { destruct name as [|c' run']; simpl in Hd; apply buff_at_drop in Hd; try lia; apply Hd. }
  assert (Hchain : forall k,
            loop_body COMMENT VAR buff s LBRACE
            = bind (advance buff s) k ->
            loop_body COMMENT VAR buff s LBRACE
            = k (hd t name, set_bidx s (s_bidx s + 1))).
  { intros k ->. unfold advance. rewrite Hnext. reflexivity. }
  assert (Hbody : loop_body COMMENT VAR buff s LBRACE
                  = let c1 := hd t name in
                    let s1 := set_bidx s (s_bidx s + 1) in
                    if negb (is_valid_identifier c1) then
                      bind (bind (push s1 c1) terminate) (fun s3 => Done (set_error s3 1))
                    else
                      bind (accumulate is_valid_identifier (length buff) buff c1 s1) (fun r =>
                        bind (terminate r.2) (fun s3 =>
                          if negb (r.1 =? RBRACE)%char then Done (set_error s3 1)
                          else bind (emit_store s3 "GROUP") (fun s4 =>
                                 Done (set_bidx (set_stctr s4 0) (s_bidx s4 + 1)))))).
  { unfold loop_body. rewrite (eqb_char_false_sym _ _ HC). decide_tests.
    rewrite (eqb_char_false_sym _ _ HV). decide_tests.
    unfold advance. rewrite Hnext. cbn [bind]. cbv zeta.
    destruct (negb (is_valid_identifier (hd t name))).
    - destruct (push _ _) as [s2| |]; reflexivity.
    - destruct (accumulate _ _ _ _ _) as [[c' s1]| |]; reflexivity. }
  rewrite Hbody. cbv zeta. split.
  - intros ->. cbn [hd]. rewrite Ht. cbn [negb].
    assert (Hone := one_character_stored t).
    unfold push in *. cbn [s_store s_stctr set_bidx] in *.
    destruct (store_set (s_store s) (s_stctr s) t) as [st| |]; cbn [bind] in *;
      try discriminate Hone.
    unfold terminate in *. cbn [s_store s_stctr set_stctr set_store] in *.
    destruct (store_set st (s_stctr s + 1) NUL) as [st'| |]; cbn [bind] in *;
      try discriminate Hone.
    injection Hone as Hst _. cbn [set_error set_store set_stctr s_store s_bidx s_stctr
                                    s_error s_lineno s_mgr s_out].
    rewrite Hst, scratch_empty. reflexivity.
  - intros Hne Hfit.
    assert (Hhd : is_valid_identifier (hd t name) = true).
    { destruct name as [|c' name']; [congruence|]. inversion Hall; assumption. }
    rewrite Hhd. cbn [negb].
    destruct (run_accumulated is_valid_identifier (set_bidx s (s_bidx s + 1)) name t post)
      as (s1 & Hacc & Hterm); cbn [s_bidx s_stctr s_store set_bidx];
      try assumption; try reflexivity; [lia|].
    rewrite Hacc. cbn [bind fst snd]. rewrite Hterm.
    cbn [bind s_error s_lineno s_mgr s_out set_bidx]. split.
    + intros -> Hroom. decide_tests.
      unfold emit_store. cbn [s_store]. unfold terminated at 1.
      rewrite read_cstring_written.
      2:{ eapply Forall_impl; [exact Hall|]. intros x Hx. apply identifier_not_NUL, Hx. }
      cbn [bind]. rewrite emit_room by exact Hroom. cbn [bind].
      unfold text_token, set_bidx, set_stctr. simpl. do 2 f_equal. lia.
    + intros Hnb. rewrite (eqb_char_false _ _ Hnb). reflexivity.
Qed.

Lemma skip_comment_run (t : ascii) (post : list ascii) :
  t = NEWLINE \/ t = NUL ->
  forall (run : list ascii) (fuel : nat) (s0 : scanner),
    0 <= s_bidx s0 ->
    drop (Z.to_nat (s_bidx s0)) buff = run ++ t :: post ->
    Forall (fun x => x <> NEWLINE /\ x <> NUL) run ->
    (length run < fuel)%nat ->
    skip_comment fuel buff (hd t run) s0
    = Done (t, set_bidx s0 (s_bidx s0 + Z.of_nat (length run))).
Proof.
  clear position scratch_empty scratch_size.
  intros Ht. induction run as [|c run IH]; intros fuel s0 Hpos Hd Hall Hf.
  - destruct fuel as [|fuel]; [simpl in Hf; lia|]. cbn [skip_comment hd].
    assert (Hstop : negb (t =? NEWLINE)%char && negb (t =? NUL)%char = false).
    { destruct Ht as [-> | ->]; reflexivity. }
    rewrite Hstop. simpl. rewrite Z.add_0_r. destruct s0; reflexivity.
  - destruct fuel as [|fuel]; [simpl in Hf; lia|].
    inversion Hall as [|? ? [Hn Hz] Hall']; subst.
    simpl in Hd. apply buff_at_drop in Hd as [_ Hd]; [|exact Hpos].
    cbn [skip_comment hd].
    rewrite (eqb_char_false _ _ Hn), (eqb_char_false _ _ Hz). cbn [negb andb].
    assert (Hnext : buff_at buff (s_bidx s0 + 1) = Done (hd t run)).
    { destruct run as [|c' run']; simpl in Hd; apply buff_at_drop in Hd; try lia; apply Hd. }
    unfold advance. rewrite Hnext. cbn [bind].
    rewrite (IH fuel); cbn [s_bidx set_bidx]; [| lia | exact Hd | exact Hall' | simpl in Hf; lia].
    do 2 f_equal. unfold set_bidx. simpl. f_equal. lia.
Qed.

Lemma comment_pass (text : list ascii) (t : ascii) (post : list ascii) :
  COMMENT <> NEWLINE -> COMMENT <> NUL ->
  drop (Z.to_nat (s_bidx s)) buff = COMMENT :: text ++ t :: post ->
  Forall (fun x => x <> NEWLINE /\ x <> NUL) text -> t = NEWLINE \/ t = NUL ->
  loop_body COMMENT VAR buff s COMMENT
  = Done (set_bidx s (s_bidx s + 1 + Z.of_nat (length text))).
Proof.
  clear scratch_empty scratch_size.
  intros HCN HCZ Hbuf Hall Ht.
  assert (Hfuel := fits_the_buffer _ _ (COMMENT :: text) (t :: post) Hbuf).
  cbn [length] in Hfuel.
  unfold loop_body. rewrite Ascii.eqb_refl.
  change COMMENT with (hd t (COMMENT :: text)) at 1.
  rewrite (skip_comment_run t post Ht (COMMENT :: text)); cbn [bind];
    [| exact position | exact Hbuf | constructor; [split|]; assumption | simpl; lia].
  do 2 f_equal. simpl length. lia.
Qed.

Lemma space_pass (c : ascii) :
  isspace c = true -> c <> COMMENT -> c <> NEWLINE ->
  loop_body COMMENT VAR buff s c = Done (set_bidx s (s_bidx s + 1)).
Proof.
  clear position scratch_empty scratch_size.
  intros Hsp HC HN. unfold loop_body.
  rewrite (eqb_char_false _ _ HC), (eqb_char_false _ _ HN), Hsp.
  destruct (Ascii.eqb_spec c BANG) as [->|_]; [discriminate Hsp | reflexivity].
Qed.

Lemma single_character_pass (c : ascii) (ty v : string) :
  (c, (ty, v)) ∈ single_character_tokens -> c <> COMMENT ->
  in_bounds (toks (s_mgr s)) (tok_ctr (s_mgr s)) = true ->
  loop_body COMMENT VAR buff s c = Done (token_appended s ty v 1).
Proof.
  clear position scratch_empty scratch_size.
  intros Hin HC Hroom. unfold single_character_tokens in Hin.
  repeat (apply elem_of_cons in Hin as [Hin|Hin]);
    try (apply elem_of_nil in Hin; contradiction);
    injection Hin as -> -> ->;
    unfold loop_body; rewrite (eqb_char_false _ _ HC); decide_tests;
    rewrite emit_room by exact Hroom; reflexivity.
Qed.

Lemma equal_pass (n : ascii) :
  COMMENT <> EQUAL ->
  in_bounds (toks (s_mgr s)) (tok_ctr (s_mgr s)) = true ->
  buff_at buff (s_bidx s + 1) = Done n ->
  loop_body COMMENT VAR buff s EQUAL
  = Done (if (n =? EQUAL)%char then token_appended s "OPERATOR" "EQUALTO" 2
          else token_appended s "OPERATOR" "EQUAL" 1).
Proof.
  clear position scratch_empty scratch_size.
  intros HC Hroom Hn. unfold loop_body.
  rewrite (eqb_char_false_sym _ _ HC). decide_tests.
  rewrite Hn. simpl.
  destruct (n =? EQUAL)%char; rewrite (emit_room _ _ _ Hroom); simpl;
    unfold token_appended, set_bidx; simpl; do 2 f_equal; lia.
Qed.





End Lexemes.




(** ** Integers *)

(** Where the loop meets a digit, it takes the longest run of digits:
    when the run is shorter than the scratch array and the store has a
    free slot, the pass leaves the tokens of the store followed by one
    new token, of type INTEGER, whose value is the run and whose
    [val_length] is its length, moves [bidx] to the first character that
    is not a digit and changes nothing else; a run of 100 digits or
    more overflows the scratch array and the call is undefined. *)
Theorem integer_literal_is_one_token
    (COMMENT VAR : ascii) (buff : list ascii) (m : TokenMgr) (s : scanner)
    (addrs : list nat)
    (c : ascii) (digits : list ascii) (t : ascii) (post : list ascii) :
  COMMENT <> NEWLINE -> c <> COMMENT -> c <> VAR ->
  loop_head COMMENT VAR buff m s -> s_error s = 0 ->
  drop (Z.to_nat (s_bidx s)) buff = (c :: digits) ++ t :: post ->
  Forall (fun x => isdigit x = true) (c :: digits) -> isdigit t = false ->
  ((length (c :: digits) < STORE_SIZE)%nat ->
   holds (s_mgr s) addrs -> (length addrs < length (toks (s_mgr s)))%nat ->
   exists s1,
     loop_body COMMENT VAR buff s c = Done s1
     /\ appends s s1 "INTEGER" (string_of_list_ascii (c :: digits))
                (Z.of_nat (length (c :: digits))))
  /\ ((STORE_SIZE <= length (c :: digits))%nat ->
      build_tokens COMMENT VAR (Some buff) (Some m) = Undefined StoreOverflow).
Proof.
  intros HCN HC HV Hhead He Hbuf Hall Ht.
  destruct (loop_head_invariant _ _ _ _ _ Hhead) as (Hpos & Hsz & _ & Hst).
  destruct (integer_pass COMMENT VAR buff s Hpos (Hst He) Hsz c digits t post HC HV Hbuf Hall Ht)
    as (Hfits & Hover).
  split.
  - intros Hfit Hm Hlt. eexists. split.
    + exact (Hfits Hfit (room_for_one_more _ addrs Hm Hlt)).
    + apply (text_token_appends s addrs); auto.
  - intros Hlong.
    simpl in Hbuf. destruct (buff_at_drop _ _ _ _ Hpos Hbuf) as [Hread _].
    apply (undefined_pass COMMENT VAR buff m HCN s c); auto.
    intros ->. inversion Hall as [|? ? Hc _]. discriminate Hc.
Qed.

Lemma integer_literal_is_one_token_witness :
  let buff := c_string "+42;" in
  let m := TokenMgr_new 4 in
  let s := set_bidx (scanner_init (with_token m "OPERATOR" "PLUS")) 1 in
  ("#"%char <> NEWLINE /\ "4"%char <> "#"%char /\ "4"%char <> "$"%char
   /\ loop_head "#"%char "$"%char buff m s /\ s_error s = 0
   /\ drop (Z.to_nat (s_bidx s)) buff = ["4"; "2"]%char ++ ";"%char :: [NUL]
   /\ Forall (fun x => isdigit x = true) ["4"; "2"]%char /\ isdigit ";"%char = false
   /\ (length ["4"; "2"]%char < STORE_SIZE)%nat
   /\ holds (s_mgr s) [0%nat] /\ (length [0%nat] < length (toks (s_mgr s)))%nat)
  /\ exists s1,
      loop_body "#"%char "$"%char buff s "4"%char = Done s1
      /\ appends s s1 "INTEGER" "42" 2.
Proof.
  intros buff m s.
  assert (H0 : "#"%char <> NEWLINE) by discriminate.
  assert (H1 : "4"%char <> "#"%char) by discriminate.
  assert (H2 : "4"%char <> "$"%char) by discriminate.
  assert (Hh : loop_head "#"%char "$"%char buff m s).
  { apply (head_after_pass _ _ _ _ (scanner_init m) "+"%char);
      [apply head_initial | reflexivity | discriminate | reflexivity | reflexivity]. }
  assert (H3 : Forall (fun x => isdigit x = true) ["4"; "2"]%char) by (repeat constructor).
  assert (H4 : (length ["4"; "2"]%char < STORE_SIZE)%nat) by (vm_compute; lia).
  assert (H5 : holds (s_mgr s) [0%nat]).
  { assert (Hnew : holds m []) by (apply holds_new; reflexivity).
    exact (holds_with_token _ _ "OPERATOR" "PLUS" Hnew eq_refl). }
  assert (H6 : (length [0%nat] < length (toks (s_mgr s)))%nat) by (simpl; lia).
  split.
  { repeat (split; [first [reflexivity | assumption]|]). assumption. }
  exact (proj1 (integer_literal_is_one_token "#"%char "$"%char buff m s [0%nat] "4"%char
                  ["2"%char] ";"%char [NUL] H0 H1 H2 Hh eq_refl eq_refl H3 eq_refl)
               H4 H5 H6).
Defined.

(** ** Keywords *)

(** Where the loop meets a letter, it takes the longest run of
    identifier characters; when the run is one of print, if, else and
    the store has a free slot, the pass leaves the tokens of the store
    followed by one new token, of type KEYWORD, whose value is that
    word, moves [bidx] to the first character after the word and
    changes nothing else. *)
Theorem keyword_is_one_token
    (COMMENT VAR : ascii) (buff : list ascii) (m : TokenMgr) (s : scanner)
    (addrs : list nat)
    (c : ascii) (word : list ascii) (t : ascii) (post : list ascii) :
  c <> COMMENT -> c <> VAR -> isalpha c = true ->
  loop_head COMMENT VAR buff m s -> s_error s = 0 ->
  drop (Z.to_nat (s_bidx s)) buff = (c :: word) ++ t :: post ->
  Forall (fun x => is_valid_identifier x = true) word ->
  is_valid_identifier t = false ->
  spec_is_keyword (string_of_list_ascii (c :: word)) = true ->
  holds (s_mgr s) addrs -> (length addrs < length (toks (s_mgr s)))%nat ->
  exists s1,
    loop_body COMMENT VAR buff s c = Done s1
    /\ appends s s1 "KEYWORD" (string_of_list_ascii (c :: word))
               (Z.of_nat (length (c :: word))).
Proof.
  intros HC HV Halpha Hhead He Hbuf Hword Ht Hkw Hm Hlt.
  destruct (loop_head_invariant _ _ _ _ _ Hhead) as (Hpos & Hsz & _ & Hst).
  eexists. split.
  - apply (keyword_pass COMMENT VAR buff s Hpos (Hst He) Hsz c word t post); try assumption.
    + assert (Hwf := keyword_is_short _ Hkw). unfold well_formed in Hwf.
      apply andb_true_iff in Hwf as [Hwf _]. apply andb_true_iff in Hwf as [_ Hlen].
      cbn [value new_token] in Hlen. rewrite list_ascii_of_string_of_list_ascii in Hlen.
      apply Nat.ltb_lt, Hlen.
    + exact (room_for_one_more _ addrs Hm Hlt).
  - apply (text_token_appends s addrs); auto.
Qed.

Lemma keyword_is_one_token_witness :
  let buff := c_string "if(" in
  let m := TokenMgr_new 4 in
  let s := scanner_init m in
  ("i"%char <> "#"%char /\ "i"%char <> "$"%char /\ isalpha "i"%char = true
   /\ loop_head "#"%char "$"%char buff m s /\ s_error s = 0
   /\ drop (Z.to_nat (s_bidx s)) buff = ["i"; "f"]%char ++ "("%char :: [NUL]
   /\ Forall (fun x => is_valid_identifier x = true) ["f"%char]
   /\ is_valid_identifier "("%char = false
   /\ spec_is_keyword (string_of_list_ascii ["i"; "f"]%char) = true
   /\ holds (s_mgr s) [] /\ (length (@nil nat) < length (toks (s_mgr s)))%nat)
  /\ exists s1,
      loop_body "#"%char "$"%char buff s "i"%char = Done s1
      /\ appends s s1 "KEYWORD" "if" 2.
Proof.
  intros buff m s.
  assert (H1 : "i"%char <> "#"%char) by discriminate.
  assert (H2 : "i"%char <> "$"%char) by discriminate.
  assert (Hh : loop_head "#"%char "$"%char buff m s) by apply head_initial.
  assert (H3 : Forall (fun x => is_valid_identifier x = true) ["f"%char])
    by (repeat constructor).
  assert (H5 : holds (s_mgr s) []) by (apply holds_new; reflexivity).
  assert (H6 : (length (@nil nat) < length (toks (s_mgr s)))%nat) by (simpl; lia).
  split.
  { repeat (split; [first [reflexivity | assumption]|]). assumption. }
  exact (keyword_is_one_token "#"%char "$"%char buff m s [] "i"%char ["f"%char] "("%char [NUL]
           H1 H2 eq_refl Hh eq_refl eq_refl H3 eq_refl eq_refl H5 H6).
Defined.

(** ** Identifiers *)

(** Where the loop meets the sigil, it takes the longest run of
    identifier characters after it: when the run is shorter than the
    scratch array and the store has a free slot, the pass leaves the
    tokens of the store followed by one new token, of type IDENTIFIER,
    whose value is the run, the sigil excluded, moves [bidx] to the
    first character after the run and changes nothing else.  The run
    may be empty: a sigil that no identifier character follows yields
    an IDENTIFIER with the empty value.  A run of 100 characters or more
    overflows the scratch array.  The sigil is taken to be none of the
    characters the chain tests before it. *)
Theorem identifier_follows_the_sigil
    (COMMENT VAR : ascii) (buff : list ascii) (m : TokenMgr) (s : scanner)
    (addrs : list nat)
    (name : list ascii) (t : ascii) (post : list ascii) :
  COMMENT <> NEWLINE -> VAR <> COMMENT -> VAR <> NUL -> fixed_character VAR = false ->
  loop_head COMMENT VAR buff m s -> s_error s = 0 ->
  drop (Z.to_nat (s_bidx s)) buff = VAR :: name ++ t :: post ->
  Forall (fun x => is_valid_identifier x = true) name ->
  is_valid_identifier t = false ->
  ((length name < STORE_SIZE)%nat ->
   holds (s_mgr s) addrs -> (length addrs < length (toks (s_mgr s)))%nat ->
   exists s1,
     loop_body COMMENT VAR buff s VAR = Done s1
     /\ appends s s1 "IDENTIFIER" (string_of_list_ascii name)
                (1 + Z.of_nat (length name)))
  /\ ((STORE_SIZE <= length name)%nat ->
      build_tokens COMMENT VAR (Some buff) (Some m) = Undefined StoreOverflow).
Proof.
  intros HCN HC HZ Hfix Hhead He Hbuf Hall Ht.
  destruct (loop_head_invariant _ _ _ _ _ Hhead) as (Hpos & Hsz & _ & Hst).
  destruct (identifier_pass COMMENT VAR buff s Hpos (Hst He) Hsz name t post HC Hfix Hbuf Hall Ht)
    as (Hfits & Hover).
  split.
  - intros Hfit Hm Hlt. eexists. split.
    + exact (Hfits Hfit (room_for_one_more _ addrs Hm Hlt)).
    + apply (text_token_appends s addrs); auto.
  - intros Hlong.
    destruct (buff_at_drop _ _ _ _ Hpos Hbuf) as [Hread _].
    apply (undefined_pass COMMENT VAR buff m HCN s VAR); auto.
Qed.

Lemma identifier_follows_the_sigil_witness :
  let m := TokenMgr_new 4 in
  let s := scanner_init m in
  let named := c_string "$x1 " in
  let bare := c_string "$ " in
  ("#"%char <> NEWLINE /\ "$"%char <> "#"%char /\ "$"%char <> NUL
   /\ fixed_character "$"%char = false
   /\ loop_head "#"%char "$"%char named m s /\ loop_head "#"%char "$"%char bare m s
   /\ s_error s = 0
   /\ drop (Z.to_nat (s_bidx s)) named = "$"%char :: ["x"; "1"]%char ++ " "%char :: [NUL]
   /\ drop (Z.to_nat (s_bidx s)) bare = "$"%char :: [] ++ " "%char :: [NUL]
   /\ Forall (fun x => is_valid_identifier x = true) ["x"; "1"]%char
   /\ is_valid_identifier " "%char = false
   /\ holds (s_mgr s) [] /\ (length (@nil nat) < length (toks (s_mgr s)))%nat)
  /\ (exists s1,
        loop_body "#"%char "$"%char named s "$"%char = Done s1
        /\ appends s s1 "IDENTIFIER" "x1" 3)
  /\ (exists s1,
        loop_body "#"%char "$"%char bare s "$"%char = Done s1
        /\ appends s s1 "IDENTIFIER" "" 1).
Proof.
  intros m s named bare.
  assert (H0 : "#"%char <> NEWLINE) by discriminate.
  assert (H1 : "$"%char <> "#"%char) by discriminate.
  assert (H2 : "$"%char <> NUL) by discriminate.
  assert (Hh1 : loop_head "#"%char "$"%char named m s) by apply head_initial.
  assert (Hh2 : loop_head "#"%char "$"%char bare m s) by apply head_initial.
  assert (H3 : Forall (fun x => is_valid_identifier x = true) ["x"; "1"]%char)
    by (repeat constructor).
  assert (H4 : Forall (fun x => is_valid_identifier x = true) []) by constructor.
  assert (H5 : (length ["x"; "1"]%char < STORE_SIZE)%nat) by (vm_compute; lia).
  assert (H6 : (length (@nil ascii) < STORE_SIZE)%nat) by (vm_compute; lia).
  assert (H7 : holds (s_mgr s) []) by (apply holds_new; reflexivity).
  assert (H8 : (length (@nil nat) < length (toks (s_mgr s)))%nat) by (simpl; lia).
  split.
  { repeat (split; [first [reflexivity | assumption]|]). assumption. }
  split.
  - exact (proj1 (identifier_follows_the_sigil "#"%char "$"%char named m s [] ["x"; "1"]%char
                    " "%char [NUL] H0 H1 H2 eq_refl Hh1 eq_refl eq_refl H3 eq_refl) H5 H7 H8).
  - exact (proj1 (identifier_follows_the_sigil "#"%char "$"%char bare m s [] []
                    " "%char [NUL] H0 H1 H2 eq_refl Hh2 eq_refl eq_refl H4 eq_refl) H6 H7 H8).
Defined.

(** ** Groups *)



(** ** Comments and white space *)

(** A comment runs from the comment character up to, not including,
    the next newline or NUL, and white space other than the newline is
    one character: the pass over either moves [bidx] and changes
    nothing else, so that no token is appended, no line is counted and
    no error is set. *)
Theorem comments_and_white_space_are_skipped
    (COMMENT VAR : ascii) (buff : list ascii) (m : TokenMgr) (s : scanner)
    (text : list ascii) (t : ascii) (post : list ascii) (c : ascii) :
  COMMENT <> NEWLINE -> COMMENT <> NUL ->
  loop_head COMMENT VAR buff m s ->
  (drop (Z.to_nat (s_bidx s)) buff = COMMENT :: text ++ t :: post ->
   Forall (fun x => x <> NEWLINE /\ x <> NUL) text -> t = NEWLINE \/ t = NUL ->
   loop_body COMMENT VAR buff s COMMENT
   = Done (set_bidx s (s_bidx s + 1 + Z.of_nat (length text))))
  /\ (isspace c = true -> c <> COMMENT -> c <> NEWLINE ->
      loop_body COMMENT VAR buff s c = Done (set_bidx s (s_bidx s + 1))).
Proof.
  intros HCN HCZ Hhead.
  destruct (loop_head_invariant _ _ _ _ _ Hhead) as (Hpos & _).
  split.
  - intros Hbuf Hall Ht. apply (comment_pass COMMENT VAR buff s Hpos text t post); assumption.
  - intros Hsp HC HN. apply space_pass; assumption.
Qed.

Lemma comments_and_white_space_are_skipped_witness :
  let buff := c_string "# a 1" in
  let m := TokenMgr_new 4 in
  let s := scanner_init m in
  let text := [" "; "a"; " "; "1"]%char in
  ("#"%char <> NEWLINE /\ "#"%char <> NUL /\ loop_head "#"%char "$"%char buff m s
   /\ drop (Z.to_nat (s_bidx s)) buff = "#"%char :: text ++ NUL :: []
   /\ Forall (fun x => x <> NEWLINE /\ x <> NUL) text
   /\ isspace " "%char = true /\ " "%char <> "#"%char /\ " "%char <> NEWLINE)
  /\ loop_body "#"%char "$"%char buff s "#"%char = Done (set_bidx s 5)
  /\ loop_body "#"%char "$"%char buff s " "%char = Done (set_bidx s 1).
Proof.
  intros buff m s text.
  assert (H0 : "#"%char <> NEWLINE) by discriminate.
  assert (H1 : "#"%char <> NUL) by discriminate.
  assert (Hh : loop_head "#"%char "$"%char buff m s) by apply head_initial.
  assert (H2 : Forall (fun x => x <> NEWLINE /\ x <> NUL) text).
  { repeat constructor; discriminate. }
  assert (H3 : " "%char <> "#"%char) by discriminate.
  assert (H4 : " "%char <> NEWLINE) by discriminate.
  assert (H := comments_and_white_space_are_skipped "#"%char "$"%char buff m s text NUL []
                 " "%char H0 H1 Hh).
  split.
  { repeat (split; [first [reflexivity | assumption]|]). assumption. }
  split.
  - exact (proj1 H eq_refl H2 (or_intror eq_refl)).
  - exact (proj2 H eq_refl H3 H4).
Defined.

(** ** Unrecognized text *)




(** ** Parentheses, arithmetic operators and the equals sign *)

(** Each of the characters [(], [)], [+], [-], [*], [/] is a token by
    itself, of the type and with the value that
    [single_character_tokens] lists; an equals sign is the operator
    EQUALTO together with an equals sign that follows it, and the
    operator EQUAL otherwise.  The pass leaves the tokens of the store
    followed by that one new token, moves past its characters and
    changes nothing else. *)
Theorem equality_and_single_character_tokens
    (COMMENT VAR : ascii) (buff : list ascii) (s : scanner) (addrs : list nat)
    (c : ascii) (ty v : string) (n : ascii) :
  holds (s_mgr s) addrs -> (length addrs < length (toks (s_mgr s)))%nat ->
  ((c, (ty, v)) ∈ single_character_tokens -> c <> COMMENT ->
   exists s1, loop_body COMMENT VAR buff s c = Done s1 /\ appends s s1 ty v 1)
  /\ (COMMENT <> EQUAL -> buff_at buff (s_bidx s + 1) = Done n ->
      exists s1,
        loop_body COMMENT VAR buff s EQUAL = Done s1
        /\ if (n =? EQUAL)%char then appends s s1 "OPERATOR" "EQUALTO" 2
           else appends s s1 "OPERATOR" "EQUAL" 1).
Proof.
  intros Hm Hlt. assert (Hroom := room_for_one_more _ addrs Hm Hlt). split.
  - intros Hin HC. eexists. split.
    + apply single_character_pass; eassumption.
    + apply (token_appended_appends s addrs); assumption.
  - intros HC Hn. eexists. split.
    + apply equal_pass; eassumption.
    + destruct (n =? EQUAL)%char; apply (token_appended_appends s addrs); assumption.
Qed.

Lemma equality_and_single_character_tokens_witness :
  let buff := c_string "(a==1)" in
  let m := TokenMgr_new 4 in
  let s := scanner_init m in
  let s2 := set_bidx s 2 in
  (holds (s_mgr s) [] /\ (length (@nil nat) < length (toks (s_mgr s)))%nat
   /\ holds (s_mgr s2) [] /\ (length (@nil nat) < length (toks (s_mgr s2)))%nat
   /\ (LPAREN, ("LPAREN", "("))%string ∈ single_character_tokens /\ LPAREN <> "#"%char
   /\ "#"%char <> EQUAL /\ buff_at buff (s_bidx s2 + 1) = Done EQUAL)
  /\ (exists s1,
        loop_body "#"%char "$"%char buff s LPAREN = Done s1
        /\ appends s s1 "LPAREN" "(" 1)
  /\ (exists s1,
        loop_body "#"%char "$"%char buff s2 EQUAL = Done s1
        /\ appends s2 s1 "OPERATOR" "EQUALTO" 2).
Proof.
  intros buff m s s2.
  assert (H0 : holds m []) by (apply holds_new; reflexivity).
  assert (Hlt : (length (@nil nat) < length (toks m))%nat) by (simpl; lia).
  assert (H1 : (LPAREN, ("LPAREN", "("))%string ∈ single_character_tokens)
    by constructor.
  assert (H2 : LPAREN <> "#"%char) by discriminate.
  assert (H3 : "#"%char <> EQUAL) by discriminate.
  split.
  { repeat (split; [first [reflexivity | assumption]|]). reflexivity. }
  split.
  - exact (proj1 (equality_and_single_character_tokens "#"%char "$"%char buff s [] LPAREN
                    "LPAREN" "(" NUL H0 Hlt) H1 H2).
  - exact (proj2 (equality_and_single_character_tokens "#"%char "$"%char buff s2 [] LPAREN
                    "LPAREN" "(" EQUAL H0 Hlt) H3 eq_refl).
Defined.

(** * From the scan to the traversal *)

(** The tokens of a scan, traversed.  After [build_tokens] has filled a
    manager fresh from [TokenMgr_new], with whatever status, as many
    calls of next as the store holds tokens return pointers to exactly
    these tokens, in the order of the source text, as many calls of
    previous return them in reverse order, and the traversals leave the
    cursor on the last and on the first token. *)
Theorem scanned_tokens_are_traversed
    (COMMENT VAR : ascii) (cap : nat) (buff : list ascii)
    (status : Z) (m' : TokenMgr) (printed : list message) :
  Z.of_nat cap < 2 ^ 64 ->
  build_tokens COMMENT VAR (Some buff) (Some (TokenMgr_new cap))
  = Done (status, Some m', printed) ->
  tokens m' <> [] ->
  let N := length (tokens m') in
  exists ps : list tokptr,
    deref m' <$> ps = tokens m'
    /\ next_n N (Some m') = Done (ps, Some (set_curr_tok m' (Some (Z.of_nat (N - 1)))))
    /\ prev_n N (Some m') = Done (reverse ps, Some (set_curr_tok m' (Some 0))).
Proof.
  intros Hcap H Hne N.
  apply build_tokens_final in H as (s & c & Hhead & _ & _ & Hfin).
  assert (Hm : s_mgr s = m').
  { unfold finish in Hfin. destruct (negb (s_error s =? 0)).
    - apply bind_Done in Hfin as (u & _ & Hfin). injection Hfin as _ Hm _. exact Hm.
    - injection Hfin as _ Hm _. exact Hm. }
  destruct (loop_head_store COMMENT VAR buff (TokenMgr_new cap) [] s (holds_new cap Hcap) Hhead)
    as (new & _ & Hholds & _ & Hcur).
  rewrite Hm in Hholds, Hcur. cbn [app heap TokenMgr_new length curr_tok] in Hholds, Hcur.
  set (addrs := seq 0 (length new)) in *.
  assert (Htok := tokens_holds m' addrs Hholds).
  assert (HN : N = length addrs).
  { unfold N. rewrite Htok, length_fmap. reflexivity. }
  assert (Hpos : (0 < length addrs)%nat).
  { destruct addrs; [rewrite Htok in Hne; contradiction Hne; reflexivity | simpl; lia]. }
  assert (Hfresh : set_curr_tok m' None = m') by (apply set_curr_tok_same, Hcur).
  clearbody N. subst N.
  exists (At <$> addrs). split; [|split].
  - rewrite Htok, <- list_fmap_compose. reflexivity.
  - rewrite <- Hfresh at 1. exact (next_n_all m' addrs Hholds Hpos).
  - rewrite <- fmap_reverse. rewrite <- Hfresh at 1.
    exact (prev_n_all m' addrs Hholds Hpos).
Qed.

Lemma scanned_tokens_are_traversed_witness :
  let m' := with_token (with_token (with_token (TokenMgr_new 4) "INTEGER" "3")
                                   "OPERATOR" "PLUS") "INTEGER" "4" in
  (Z.of_nat 4 < 2 ^ 64
   /\ build_tokens "#"%char "$"%char (Some (c_string "3 + 4")) (Some (TokenMgr_new 4))
      = Done (0, Some m', [])
   /\ tokens m' <> [])
  /\ exists ps : list tokptr,
      deref m' <$> ps = tokens m'
      /\ next_n 3 (Some m') = Done (ps, Some (set_curr_tok m' (Some 2)))
      /\ prev_n 3 (Some m') = Done (reverse ps, Some (set_curr_tok m' (Some 0))).
Proof.
  intros m'.
  assert (H0 : Z.of_nat 4 < 2 ^ 64) by reflexivity.
  assert (H1 : build_tokens "#"%char "$"%char (Some (c_string "3 + 4")) (Some (TokenMgr_new 4))
               = Done (0, Some m', [])) by (vm_compute; reflexivity).
  assert (H2 : tokens m' <> []) by discriminate.
  split; [auto|].
  exact (scanned_tokens_are_traversed "#"%char "$"%char 4 (c_string "3 + 4") 0 m' [] H0 H1 H2).
Defined.

(** * The faults of a scan *)

Lemma avoids_Done {A : Type} (f : fault) (a : A) : avoids f (Done a).
Proof. discriminate. Qed.

Lemma avoids_other {A : Type} (f g : fault) : f <> g -> avoids f (@Undefined A g).
Proof. intros H E. injection E as E. congruence. Qed.

Lemma avoids_bind {A B : Type} (f : fault) (m : outcome A) (k : A -> outcome B) :
  avoids f m -> (forall a, m = Done a -> avoids f (k a)) -> avoids f (bind m k).
Proof.
  intros Hm Hk. destruct m as [a|g|]; simpl.
  - apply Hk. reflexivity.
  - intros E. apply Hm. injection E as ->. reflexivity.
  - discriminate.
Qed.

(** ** The token array *)

Lemma room_buff_at (buff : list ascii) (i : Z) : avoids ToksOutOfBounds (buff_at buff i).
Proof. unfold buff_at. destruct (at_index buff i); discriminate. Qed.

Lemma room_store_set store i c : avoids ToksOutOfBounds (store_set store i c).
Proof. unfold store_set. destruct (in_bounds store i); discriminate. Qed.

Lemma room_read_cstring (a : list (option ascii)) : avoids ToksOutOfBounds (read_cstring a).
Proof.
  induction a as [|[c|] a IH]; simpl; try discriminate.
  destruct (c =? NUL)%char; [discriminate|].
  apply avoids_bind; [exact IH | intros; discriminate].
Qed.

Lemma room_push s c : avoids ToksOutOfBounds (push s c).
Proof. apply avoids_bind; [apply room_store_set | intros; discriminate]. Qed.

Lemma room_terminate s : avoids ToksOutOfBounds (terminate s).
Proof. apply avoids_bind; [apply room_store_set | intros; discriminate]. Qed.

Lemma room_advance buff s : avoids ToksOutOfBounds (advance buff s).
Proof. apply avoids_bind; [apply room_buff_at | intros; discriminate]. Qed.

Lemma room_is_valid_keyword str : avoids ToksOutOfBounds (is_valid_keyword str).
Proof.
  destruct str as [s|]; [|discriminate]. unfold is_valid_keyword.
  rewrite keyword_loop_outcome. destruct (spec_is_keyword s); discriminate.
Qed.

Lemma room_accumulate (cond : ascii -> bool) (buff : list ascii) :
  forall (fuel : nat) (c : ascii) (s : scanner),
    avoids ToksOutOfBounds (accumulate cond fuel buff c s).
Proof.
  induction fuel as [|fuel IH]; intros c s; [discriminate|].
  simpl. destruct (cond c); [|discriminate].
  apply avoids_bind; [apply room_push|]. intros s1 _.
  apply avoids_bind; [apply room_advance|]. intros [c' s2] _. apply IH.
Qed.

Lemma room_skip_comment (buff : list ascii) :
  forall (fuel : nat) (c : ascii) (s : scanner),
    avoids ToksOutOfBounds (skip_comment fuel buff c s).
Proof.
  induction fuel as [|fuel IH]; intros c s; [discriminate|].
  simpl. destruct (negb (c =? NEWLINE)%char && negb (c =? NUL)%char); [|discriminate].
  apply avoids_bind; [apply room_advance|]. intros [c' s2] _. apply IH.
Qed.

Lemma room_emit s ty v :
  in_bounds (toks (s_mgr s)) (tok_ctr (s_mgr s)) = true ->
  avoids ToksOutOfBounds (emit s ty v).
Proof. intros H. rewrite (emit_room _ _ _ H). discriminate. Qed.

Lemma room_emit_store s ty :
  in_bounds (toks (s_mgr s)) (tok_ctr (s_mgr s)) = true ->
  avoids ToksOutOfBounds (emit_store s ty).
Proof.
  intros H. apply avoids_bind; [apply room_read_cstring | intros; apply room_emit, H].
Qed.

(** Walk through the pass, one primitive at a time. *)
Ltac room_step :=
  lazymatch goal with
  | |- avoids _ (Done _) => apply avoids_Done
  | |- avoids _ (if ?b then _ else _) => destruct b eqn:?
  | |- avoids _ (match ?p with pair _ _ => _ end) => destruct p
  | |- avoids _ (bind ?m _) =>
      apply avoids_bind;
      [ first [ apply room_buff_at | apply room_push | apply room_terminate
              | apply room_advance | apply room_read_cstring | apply room_is_valid_keyword
              | apply room_accumulate | apply room_skip_comment
              | frames; apply room_emit; simpl in *; congruence
              | frames; apply room_emit_store; simpl in *; congruence ]
      | let a := fresh "a" in let Ha := fresh "Ha" in intros a Ha; cbv beta ]
  end.

Section Room.

Variables COMMENT VAR : ascii.
Variable buff : list ascii.

Lemma room_loop_body (s : scanner) (c : ascii) :
  in_bounds (toks (s_mgr s)) (tok_ctr (s_mgr s)) = true ->
  avoids ToksOutOfBounds (loop_body COMMENT VAR buff s c).
Proof. intros Hroom. unfold loop_body. repeat room_step. Qed.

Hypothesis comment_not_newline : COMMENT <> NEWLINE.

Lemma room_scan_loop :
  forall (fuel : nat) (s : scanner) (held : list nat),
    holds (s_mgr s) held -> 0 <= s_bidx s ->
    Z.of_nat (length held) + (Z.of_nat (length buff) - s_bidx s)
    <= Z.of_nat (length (toks (s_mgr s))) ->
    avoids ToksOutOfBounds (scan_loop COMMENT VAR fuel buff s).
Proof.
  induction fuel as [|fuel IH]; intros s held Hm Hpos Hcap; [discriminate|].
  simpl. apply avoids_bind; [apply room_buff_at|]. intros c Hread.
  destruct (Ascii.eqb_spec c NUL) as [Hz|Hz]; [apply avoids_Done|].
  destruct (Z.eqb_spec (s_error s) 0) as [He|He]; [|apply avoids_Done].
  cbn [negb andb].
  assert (Hr := buff_at_in_range _ _ _ Hread).
  assert (Hroom : in_bounds (toks (s_mgr s)) (tok_ctr (s_mgr s)) = true).
  { apply (room_for_one_more _ held Hm). lia. }
  apply avoids_bind; [apply room_loop_body, Hroom|]. intros s1 Hbody.
  destruct (loop_body_effect COMMENT VAR buff s c s1 Hz Hread Hbody)
    as (_ & _ & _ & _ & Hprog & _).
  specialize (Hprog comment_not_newline).
  destruct (loop_body_mgr COMMENT VAR buff s c s1 Hbody) as [Hsame | (ty & v & _ & Hnew)].
  - apply (IH s1 held); rewrite ?Hsame; [exact Hm | lia | lia].
  - apply (IH s1 (held ++ [length (heap (s_mgr s))])).
    + rewrite Hnew. apply holds_with_token; assumption.
    + lia.
    + rewrite Hnew, length_app. cbn [toks with_token length]. rewrite length_insert. lia.
Qed.

End Room.

(** A store with a free slot for each character of the buffer is never
    overrun: a pass appends one token at most and consumes one character
    at least, so that no call of [TokenMgr_add_token] in the scan finds
    the array full. *)
Theorem scan_fits_a_store_as_large_as_the_buffer
    (COMMENT VAR : ascii) (buff : list ascii) (m : TokenMgr) (addrs : list nat) :
  COMMENT <> NEWLINE -> holds m addrs ->
  (length addrs + length buff <= length (toks m))%nat ->
  build_tokens COMMENT VAR (Some buff) (Some m) <> Undefined ToksOutOfBounds.
Proof.
  intros HCN Hm Hcap. unfold build_tokens.
  apply avoids_bind.
  - apply (room_scan_loop COMMENT VAR buff HCN _ _ addrs); cbn [s_mgr s_bidx scanner_init];
      [exact Hm | lia | lia].
  - intros s _. unfold finish. destruct (negb (s_error s =? 0)); [|discriminate].
    apply avoids_bind; [apply room_read_cstring | intros; discriminate].
Qed.

Lemma scan_fits_a_store_as_large_as_the_buffer_witness :
  let buff := c_string "1+2+3" in
  "#"%char <> NEWLINE /\ holds (TokenMgr_new 6) []
  /\ (length (@nil nat) + length buff <= length (toks (TokenMgr_new 6)))%nat
  /\ build_tokens "#"%char "$"%char (Some buff) (Some (TokenMgr_new 4))
     = Undefined ToksOutOfBounds
  /\ build_tokens "#"%char "$"%char (Some buff) (Some (TokenMgr_new 6))
     <> Undefined ToksOutOfBounds.
Proof.
  intros buff.
  assert (H0 : "#"%char <> NEWLINE) by discriminate.
  assert (H1 : holds (TokenMgr_new 6) []) by (apply holds_new; reflexivity).
  assert (H2 : (length (@nil nat) + length buff <= length (toks (TokenMgr_new 6)))%nat)
    by (vm_compute; lia).
  split; [exact H0|]. split; [exact H1|]. split; [exact H2|].
  split; [vm_compute; reflexivity|].
  exact (scan_fits_a_store_as_large_as_the_buffer "#"%char "$"%char buff (TokenMgr_new 6) []
           H0 H1 H2).
Defined.

(** ** The scratch array *)

Section ScratchReads.

Variable f : fault.
Hypothesis scratch : scratch_fault f.

Lemma scratch_buff_at (buff : list ascii) (i : Z) : avoids f (buff_at buff i).
Proof.
  unfold buff_at. destruct (at_index buff i); [discriminate|].
  apply avoids_other. destruct scratch as [-> | ->]; discriminate.
Qed.

Lemma scratch_store_set store i c : avoids f (store_set store i c).
Proof.
  unfold store_set. destruct (in_bounds store i); [discriminate|].
  apply avoids_other. destruct scratch as [-> | ->]; discriminate.
Qed.

Lemma scratch_push s c : avoids f (push s c).
Proof. apply avoids_bind; [apply scratch_store_set | intros; discriminate]. Qed.

Lemma scratch_terminate s : avoids f (terminate s).
Proof. apply avoids_bind; [apply scratch_store_set | intros; discriminate]. Qed.

Lemma scratch_advance buff s : avoids f (advance buff s).
Proof. apply avoids_bind; [apply scratch_buff_at | intros; discriminate]. Qed.

Lemma scratch_is_valid_keyword str : avoids f (is_valid_keyword str).
Proof.
  destruct str as [s|]; [|discriminate]. unfold is_valid_keyword.
  rewrite keyword_loop_outcome. destruct (spec_is_keyword s); [discriminate|].
  apply avoids_other. destruct scratch as [-> | ->]; discriminate.
Qed.

Lemma scratch_accumulate (cond : ascii -> bool) (buff : list ascii) :
  forall (fuel : nat) (c : ascii) (s : scanner),
    avoids f (accumulate cond fuel buff c s).
Proof.
  induction fuel as [|fuel IH]; intros c s; [discriminate|].
  simpl. destruct (cond c); [|discriminate].
  apply avoids_bind; [apply scratch_push|]. intros s1 _.
  apply avoids_bind; [apply scratch_advance|]. intros [c' s2] _. apply IH.
Qed.

Lemma scratch_skip_comment (buff : list ascii) :
  forall (fuel : nat) (c : ascii) (s : scanner),
    avoids f (skip_comment fuel buff c s).
Proof.
  induction fuel as [|fuel IH]; intros c s; [discriminate|].
  simpl. destruct (negb (c =? NEWLINE)%char && negb (c =? NUL)%char); [|discriminate].
  apply avoids_bind; [apply scratch_advance|]. intros [c' s2] _. apply IH.
Qed.

Lemma scratch_emit s ty v : avoids f (emit s ty v).
Proof.
  unfold emit, TokenMgr_add_token.
  destruct (in_bounds (toks (s_mgr s)) (tok_ctr (s_mgr s))); [discriminate|].
  apply avoids_other. destruct scratch as [-> | ->]; discriminate.
Qed.

Lemma scratch_read (l : list (option ascii)) :
  (exists v, read_cstring l = Done v) -> avoids f (read_cstring l).
Proof. intros (v & ->). discriminate. Qed.

End ScratchReads.

(** What is known of the scratch array after each primitive that ran. *)
Ltac written_so_far :=
  repeat match goal with
         | Hp : push ?s0 _ = Done ?s1, Ha : assigned ?s0 |- _ =>
             lazymatch goal with
             | _ : assigned s1 |- _ => fail
             | _ => assert (assigned s1) by exact (push_assigned _ _ _ Hp Ha)
             end
         | Hp : advance _ ?s0 = Done (_, ?s1), Ha : assigned ?s0 |- _ =>
             lazymatch goal with
             | _ : assigned s1 |- _ => fail
             | _ => assert (assigned s1) by exact (advance_assigned _ _ _ _ Hp Ha)
             end
         | Hp : accumulate _ _ _ _ ?s0 = Done (_, ?s1), Ha : assigned ?s0 |- _ =>
             lazymatch goal with
             | _ : assigned s1 |- _ => fail
             | _ => assert (assigned s1) by exact (accumulate_assigned _ _ _ _ _ _ _ Hp Ha)
             end
         | Hp : terminate ?s0 = Done ?s1, Ha : assigned ?s0 |- _ =>
             lazymatch goal with
             | _ : exists v, read_cstring (s_store s1) = Done v |- _ => fail
             | _ => assert (exists v, read_cstring (s_store s1) = Done v)
                      by exact (terminate_readable _ _ Hp Ha)
             end
         end.

Ltac scratch_step Hf :=
  lazymatch goal with
  | |- avoids _ (Done _) => apply avoids_Done
  | |- avoids _ (emit _ _ _) => apply (scratch_emit _ Hf)
  | |- avoids _ (if ?b then _ else _) => destruct b eqn:?
  | |- avoids _ (match ?p with pair _ _ => _ end) => destruct p
  | |- avoids _ (bind ?m _) =>
      apply avoids_bind;
      [ first [ apply (scratch_buff_at _ Hf) | apply (scratch_push _ Hf)
              | apply (scratch_terminate _ Hf) | apply (scratch_advance _ Hf)
              | apply (scratch_is_valid_keyword _ Hf) | apply (scratch_accumulate _ Hf)
              | apply (scratch_skip_comment _ Hf) | apply (scratch_emit _ Hf)
              | apply scratch_read; written_so_far; assumption
              | solve [repeat scratch_step Hf] ]
      | let a := fresh "a" in let Ha := fresh "Ha" in intros a Ha; cbv beta ]
  end.

Section Scratch.

Variables COMMENT VAR : ascii.
Variable buff : list ascii.
Variable m : TokenMgr.
Variable f : fault.
Hypothesis scratch : scratch_fault f.

Lemma scratch_loop_body (s : scanner) (c : ascii) :
  s_stctr s = 0 -> avoids f (loop_body COMMENT VAR buff s c).
Proof.
  intros Hst.
  assert (Hs : assigned s).
  { exists 0%nat. split; [exact Hst|]. intros i Hi. lia. }
  unfold loop_body, emit_store. repeat scratch_step scratch.
Qed.

Lemma loop_head_readable (s : scanner) :
  loop_head COMMENT VAR buff m s -> s_error s <> 0 ->
  exists v, read_cstring (s_store s) = Done v.
Proof.
  induction 1 as [|s c s' Hhead _ Hread Hc He Hbody]; intros Herr.
  - contradiction Herr. reflexivity.
  - destruct (loop_head_invariant _ _ _ _ _ Hhead) as (_ & _ & _ & Hst).
    apply (loop_body_report COMMENT VAR buff s c s' (Hst He) He Hbody Herr).
Qed.

Lemma scratch_scan_loop :
  forall (fuel : nat) (s : scanner),
    loop_head COMMENT VAR buff m s -> avoids f (scan_loop COMMENT VAR fuel buff s).
Proof.
  induction fuel as [|fuel IH]; intros s Hhead; [discriminate|].
  simpl. apply avoids_bind; [apply scratch_buff_at, scratch|]. intros c Hread.
  destruct (Ascii.eqb_spec c NUL) as [Hz|Hz]; [apply avoids_Done|].
  destruct (Z.eqb_spec (s_error s) 0) as [He|He]; [|apply avoids_Done].
  cbn [negb andb].
  destruct (loop_head_invariant _ _ _ _ _ Hhead) as (_ & _ & _ & Hst).
  apply avoids_bind; [apply scratch_loop_body, Hst, He|]. intros s1 Hbody.
  apply IH. apply (head_after_pass _ _ _ _ s c); assumption.
Qed.

End Scratch.


(** ** The bound of the scratch array *)

Lemma fits_buff_at (buff : list ascii) (i : Z) : avoids StoreOverflow (buff_at buff i).
Proof. unfold buff_at. destruct (at_index buff i); discriminate. Qed.

Lemma fits_advance buff s : avoids StoreOverflow (advance buff s).
Proof. apply avoids_bind; [apply fits_buff_at | intros; discriminate]. Qed.

Lemma fits_read_cstring (a : list (option ascii)) : avoids StoreOverflow (read_cstring a).
Proof.
  induction a as [|[c|] a IH]; simpl; try discriminate.
  destruct (c =? NUL)%char; [discriminate|].
  apply avoids_bind; [exact IH | intros; discriminate].
Qed.

Lemma fits_is_valid_keyword str : avoids StoreOverflow (is_valid_keyword str).
Proof.
  destruct str as [s|]; [|discriminate]. unfold is_valid_keyword.
  rewrite keyword_loop_outcome. destruct (spec_is_keyword s); discriminate.
Qed.

Lemma fits_emit s ty v : avoids StoreOverflow (emit s ty v).
Proof.
  unfold emit, TokenMgr_add_token.
  destruct (in_bounds (toks (s_mgr s)) (tok_ctr (s_mgr s))); discriminate.
Qed.

Lemma fits_emit_store s ty : avoids StoreOverflow (emit_store s ty).
Proof.
  apply avoids_bind; [apply fits_read_cstring | intros; apply fits_emit].
Qed.

Lemma fits_skip_comment (buff : list ascii) :
  forall (fuel : nat) (c : ascii) (s : scanner),
    avoids StoreOverflow (skip_comment fuel buff c s).
Proof.
  induction fuel as [|fuel IH]; intros c s; [discriminate|].
  simpl. destruct (negb (c =? NEWLINE)%char && negb (c =? NUL)%char); [|discriminate].
  apply avoids_bind; [apply fits_advance|]. intros [c' s2] _. apply IH.
Qed.

Lemma fits_store_set (store : list (option ascii)) (i : Z) (c : ascii) :
  0 <= i < Z.of_nat (length store) -> avoids StoreOverflow (store_set store i c).
Proof.
  intros Hi. unfold store_set, in_bounds.
  destruct (Z.leb_spec 0 i); [|lia].
  destruct (Z.ltb_spec i (Z.of_nat (length store))); [discriminate | lia].
Qed.

Lemma fits_push s c :
  0 <= s_stctr s < Z.of_nat (length (s_store s)) -> avoids StoreOverflow (push s c).
Proof. intros H. apply avoids_bind; [apply fits_store_set, H | intros; discriminate]. Qed.

Lemma fits_terminate s :
  0 <= s_stctr s < Z.of_nat (length (s_store s)) -> avoids StoreOverflow (terminate s).
Proof. intros H. apply avoids_bind; [apply fits_store_set, H | intros; discriminate]. Qed.

Lemma push_counts (s s1 : scanner) (c : ascii) :
  push s c = Done s1 -> s_stctr s1 = s_stctr s + 1.
Proof.
  unfold push. intros H. apply bind_Done in H as (st & _ & H). injection H as <-. reflexivity.
Qed.

Lemma accumulate_counts (cond : ascii -> bool) (buff : list ascii) :
  forall (fuel : nat) (c : ascii) (s : scanner) (c' : ascii) (s1 : scanner),
    accumulate cond fuel buff c s = Done (c', s1) ->
    s_stctr s1 - s_stctr s = s_bidx s1 - s_bidx s.
Proof.
  induction fuel as [|fuel IH]; intros c s c' s1 H; [discriminate H|].
  simpl in H. destruct (cond c).
  - apply bind_Done in H as (s2 & Hp & H).
    apply bind_Done in H as ([c2 s3] & Ha & H).
    assert (Hc := push_counts _ _ _ Hp).
    apply push_frame in Hp as (_ & Hb & _).
    apply advance_frame in Ha as (_ & Hb' & _ & Hst & _).
    apply IH in H. lia.
  - injection H as _ <-. lia.
Qed.

Lemma fits_accumulate (cond : ascii -> bool) (buff : list ascii) :
  forall (fuel : nat) (c : ascii) (s : scanner),
    0 <= s_stctr s <= s_bidx s ->
    (length buff <= length (s_store s))%nat ->
    buff_at buff (s_bidx s) = Done c ->
    avoids StoreOverflow (accumulate cond fuel buff c s).
Proof.
  induction fuel as [|fuel IH]; intros c s Hst Hlen Hread; [discriminate|].
  simpl. destruct (cond c); [|discriminate].
  assert (Hr := buff_at_in_range _ _ _ Hread).
  apply avoids_bind; [apply fits_push; lia|]. intros s1 Hp.
  apply avoids_bind; [apply fits_advance|]. intros [c' s2] Ha.
  assert (Hc := push_counts _ _ _ Hp).
  apply push_frame in Hp as (_ & Hb & Hl).
  apply advance_frame in Ha as (_ & Hb' & Hr' & Hst' & Hl').
  apply IH; [lia | lia | exact Hr'].
Qed.

(** The counters after each primitive that ran. *)
Ltac counts :=
  repeat match goal with
         | H : push ?s0 _ = Done ?s1 |- _ =>
             lazymatch goal with
             | _ : s_stctr s1 = s_stctr s0 + 1 |- _ => fail
             | _ => assert (s_stctr s1 = s_stctr s0 + 1) by exact (push_counts _ _ _ H)
             end
         | H : accumulate _ _ _ _ ?s0 = Done (_, ?s1) |- _ =>
             lazymatch goal with
             | _ : s_stctr s1 - s_stctr s0 = s_bidx s1 - s_bidx s0 |- _ => fail
             | _ => assert (s_stctr s1 - s_stctr s0 = s_bidx s1 - s_bidx s0)
                      by exact (accumulate_counts _ _ _ _ _ _ _ H)
             end
         end.

Ltac fits_step :=
  lazymatch goal with
  | |- avoids _ (Done _) => apply avoids_Done
  | |- avoids _ (if ?b then _ else _) => destruct b eqn:?
  | |- avoids _ (match ?p with pair _ _ => _ end) => destruct p
  | |- avoids _ (bind ?m _) =>
      apply avoids_bind;
      [ first [ apply fits_buff_at | apply fits_advance | apply fits_read_cstring
              | apply fits_is_valid_keyword | apply fits_emit | apply fits_emit_store
              | apply fits_skip_comment
              | counts; frames;
                repeat match goal with
                       | H : ?P -> _, H' : ?P |- _ => specialize (H H')
                       end;
                repeat match goal with
                       | H : buff_at ?b ?i = Done _ |- _ =>
                           lazymatch goal with
                           | _ : 0 <= i < Z.of_nat (length b) |- _ => fail
                           | _ => assert (0 <= i < Z.of_nat (length b))
                                    by exact (buff_at_in_range _ _ _ H)
                           end
                       end;
                first [ apply fits_push; simpl in *; lia
                      | apply fits_terminate; simpl in *; lia
                      | apply fits_accumulate;
                        [ simpl in *; lia | simpl in *; lia
                        | first [eassumption | congruence] ] ] ]
      | let a := fresh "a" in let Ha := fresh "Ha" in intros a Ha; cbv beta ]
  end.

Section Fits.

Variables COMMENT VAR : ascii.
Variable buff : list ascii.
Variable m : TokenMgr.
Hypothesis short : (length buff <= STORE_SIZE)%nat.

Lemma fits_loop_body (s : scanner) (c : ascii) :
  0 <= s_bidx s -> s_stctr s = 0 -> length (s_store s) = STORE_SIZE ->
  buff_at buff (s_bidx s) = Done c ->
  avoids StoreOverflow (loop_body COMMENT VAR buff s c).
Proof.
  intros Hpos Hst Hsz Hread. assert (Hr := buff_at_in_range _ _ _ Hread).
  unfold loop_body. repeat fits_step.
Qed.

Lemma fits_scan_loop :
  forall (fuel : nat) (s : scanner),
    loop_head COMMENT VAR buff m s -> avoids StoreOverflow (scan_loop COMMENT VAR fuel buff s).
Proof.
  induction fuel as [|fuel IH]; intros s Hhead; [discriminate|].
  simpl. apply avoids_bind; [apply fits_buff_at|]. intros c Hread.
  destruct (Ascii.eqb_spec c NUL) as [Hz|Hz]; [apply avoids_Done|].
  destruct (Z.eqb_spec (s_error s) 0) as [He|He]; [|apply avoids_Done].
  cbn [negb andb].
  destruct (loop_head_invariant _ _ _ _ _ Hhead) as (Hpos & Hsz & _ & Hst).
  apply avoids_bind; [apply fits_loop_body; auto|]. intros s1 Hbody.
  apply IH. apply (head_after_pass _ _ _ _ s c); assumption.
Qed.

End Fits.

Lemma build_tokens_reads_the_scratch_array
    (COMMENT VAR : ascii) (buff : list ascii) (m : TokenMgr) (f : fault) :
  scratch_fault f -> avoids f (build_tokens COMMENT VAR (Some buff) (Some m)).
Proof.
  intros Hf. unfold build_tokens. apply avoids_bind.
  - apply (scratch_scan_loop COMMENT VAR buff m f Hf). apply head_initial.
  - intros s Hloop.
    apply (scan_loop_final COMMENT VAR buff m) in Hloop as (Hhead & _); [|apply head_initial].
    unfold finish. destruct (Z.eqb_spec (s_error s) 0) as [He|He]; [discriminate|].
    cbn [negb]. apply avoids_bind; [|intros; discriminate].
    apply scratch_read, (loop_head_readable COMMENT VAR buff m s Hhead He).
Qed.

Lemma build_tokens_fits_the_scratch_array
    (COMMENT VAR : ascii) (buff : list ascii) (m : TokenMgr) :
  (length buff <= STORE_SIZE)%nat ->
  avoids StoreOverflow (build_tokens COMMENT VAR (Some buff) (Some m)).
Proof.
  intros Hshort. unfold build_tokens. apply avoids_bind.
  - apply (fits_scan_loop COMMENT VAR buff m Hshort). apply head_initial.
  - intros s _. unfold finish. destruct (negb (s_error s =? 0)); [|discriminate].
    apply avoids_bind; [apply fits_read_cstring | intros; discriminate].
Qed.

(** The undefined steps of a scan of a buffer no longer than the
    scratch array.  When such a scan ends in an undefined step, that
    step is a read past the end of the buffer, a write past a full
    token array, or the comparison with a null keyword: it is never a
    write past the scratch array, since up to there a pass has stored
    one character at most for each character of the buffer it moved
    over, and never a wrong read of the scratch array.  The statement
    is about the first undefined step: what the code stores after it
    has read past the buffer is not described. *)
Theorem short_buffer_fits_the_scratch_array
    (COMMENT VAR : ascii) (buff : list ascii) (m : TokenMgr) (f : fault) :
  (length buff <= STORE_SIZE)%nat ->
  build_tokens COMMENT VAR (Some buff) (Some m) = Undefined f ->
  f = BuffOverread \/ f = ToksOutOfBounds \/ f = NullDeref.
Proof.
  intros Hshort Hrun.
  destruct f; auto; exfalso.
  - exact (build_tokens_fits_the_scratch_array COMMENT VAR buff m Hshort Hrun).
  - apply (build_tokens_reads_the_scratch_array COMMENT VAR buff m IndeterminateRead);
      [left; reflexivity | exact Hrun].
  - apply (build_tokens_reads_the_scratch_array COMMENT VAR buff m UnterminatedRead);
      [right; reflexivity | exact Hrun].
Qed.

Lemma short_buffer_fits_the_scratch_array_witness :
  let short := c_string "3 + ?" in
  let long := DQUOTE :: replicate 100 "a"%char ++ [DQUOTE; NUL] in
  (length short <= STORE_SIZE)%nat
  /\ build_tokens "#"%char "$"%char (Some short) (Some (TokenMgr_new 4))
     = Undefined BuffOverread
  /\ build_tokens "#"%char "$"%char (Some long) (Some (TokenMgr_new 4))
     = Undefined StoreOverflow
  /\ (BuffOverread = BuffOverread \/ BuffOverread = ToksOutOfBounds
      \/ BuffOverread = NullDeref).
Proof.
  intros short long.
  assert (H : (length short <= STORE_SIZE)%nat) by (vm_compute; lia).
  assert (H1 : build_tokens "#"%char "$"%char (Some short) (Some (TokenMgr_new 4))
               = Undefined BuffOverread) by (vm_compute; reflexivity).
  split; [exact H|]. split; [exact H1|]. split; [vm_compute; reflexivity|].
  exact (short_buffer_fits_the_scratch_array "#"%char "$"%char short (TokenMgr_new 4)
           BuffOverread H H1).
Defined.

(** * From tokens to source text and back *)

Lemma plain_markers_tests (COMMENT VAR : ascii) :
  plain_markers COMMENT VAR = true ->
  fixed_character COMMENT = false /\ isdigit COMMENT = false /\ isalpha COMMENT = false
  /\ COMMENT <> LBRACE
  /\ fixed_character VAR = false /\ isdigit VAR = false /\ isalpha VAR = false
  /\ VAR <> LBRACE /\ VAR <> COMMENT /\ VAR <> NUL.
Proof.
  unfold plain_markers. intros H.
  repeat (apply andb_true_iff in H; destruct H as [H ?]).
  repeat match goal with
         | H : negb _ = true |- _ => apply negb_true_iff in H
         end.
  repeat split; try assumption;
    intros ->; match goal with
               | H : (?x =? ?x)%char = false |- _ => rewrite Ascii.eqb_refl in H; discriminate H
               end.
Qed.

Lemma told_apart (f : ascii -> bool) (x c : ascii) :
  f x = false -> f c = true -> c <> x.
Proof. intros Hx Hc ->. congruence. Qed.

Lemma length_terminated (store : list (option ascii)) (run : list ascii) :
  (length run < length store)%nat ->
  length (terminated store run) = length store.
Proof.
  intros H. unfold terminated.
  rewrite length_app, length_fmap. cbn [length]. rewrite length_drop. lia.
Qed.

(** A well-formed token that no line was assigned to is the token
    [TokenMgr_add_token] makes of its type and its value. *)
Lemma well_formed_new_token (t : Token) :
  well_formed t = true -> no_line t -> new_token (type t) (value t) = t.
Proof.
  unfold well_formed, no_line, new_token. intros H Hline.
  apply andb_true_iff in H. destruct H as [H _].
  apply andb_true_iff in H. destruct H as [H _].
  apply Z.eqb_eq in H.
  destruct t as [ty v n l]. simpl in *. subst l. f_equal.
  rewrite H. f_equal.
  rewrite <- (length_string_of_list_ascii (list_ascii_of_string v)).
  rewrite string_of_list_ascii_of_string. reflexivity.
Qed.

Lemma passed_text_token (s : scanner) (t : Token) (k : nat) (z : Z) (ty : string)
    (run : list ascii) :
  length (s_store s) = STORE_SIZE -> (length run < STORE_SIZE)%nat ->
  z = Z.of_nat k -> type t = ty -> list_ascii_of_string (value t) = run ->
  passed s (text_token s ty run z) t k.
Proof.
  intros Hsize Hfit -> <- <-. unfold passed, text_token. cbn.
  rewrite string_of_list_ascii_of_string.
  rewrite length_terminated by (rewrite Hsize; exact Hfit).
  repeat split; assumption.
Qed.

Lemma forallb_true_Forall (f : ascii -> bool) (l : list ascii) :
  forallb f l = true -> Forall (fun x => f x = true) l.
Proof.
  induction l as [|x l IH]; simpl; intros H; [constructor|].
  apply andb_true_iff in H. destruct H as [Hx Hl].
  constructor; [exact Hx | exact (IH Hl)].
Qed.

Section RenderedToken.

Variables COMMENT VAR : ascii.
Variable buff : list ascii.
Variable s : scanner.
Variable rest : list ascii.

Hypothesis markers : plain_markers COMMENT VAR = true.
Hypothesis position : 0 <= s_bidx s.
Hypothesis scratch_empty : s_stctr s = 0.
Hypothesis scratch_size : length (s_store s) = STORE_SIZE.
Hypothesis room : in_bounds (toks (s_mgr s)) (tok_ctr (s_mgr s)) = true.

Lemma operator_pass (t : Token) :
  type t = "OPERATOR"%string ->
  existsb (String.eqb (value t)) operator_names = true ->
  drop (Z.to_nat (s_bidx s)) buff = render VAR t ++ " "%char :: rest ->
  exists c s1,
    buff_at buff (s_bidx s) = Done c /\ c <> NUL
    /\ loop_body COMMENT VAR buff s c = Done s1
    /\ passed s s1 t (length (render VAR t)).
Proof.
  destruct (plain_markers_tests _ _ markers) as (HC & _).
  intros Hty Hv. unfold render. rewrite Hty.
  change (String.eqb "OPERATOR" "OPERATOR") with true. cbv iota.
  unfold operator_names in Hv. cbn [existsb] in Hv.
  repeat (apply orb_true_iff in Hv;
          destruct Hv as [Hv|Hv]; [apply String.eqb_eq in Hv|]); try discriminate Hv;
    rewrite Hv; intros Hbuf; cbn in Hbuf.
  all: destruct (buff_at_drop _ _ _ _ position Hbuf) as [Hc Hbuf1].
  all: assert (Hpos1 : 0 <= s_bidx s + 1) by lia.
  all: try (destruct (buff_at_drop _ _ _ _ Hpos1 Hbuf1) as [Hn Hbuf2]).
  all: eexists _, _; split; [exact Hc|]; split; [discriminate|].
  all: split;
    [ lazymatch goal with
      | |- loop_body _ _ _ _ BANG = _ =>
          exact (loop_body_bang COMMENT VAR buff s _ room Hn
                   (not_eq_sym (told_apart fixed_character COMMENT BANG HC eq_refl)))
      | |- loop_body _ _ _ _ LESSTHAN = _ =>
          exact (loop_body_lessthan COMMENT VAR buff s _ room Hn
                   (not_eq_sym (told_apart fixed_character COMMENT LESSTHAN HC eq_refl)))
      | |- loop_body _ _ _ _ GREATERTHAN = _ =>
          exact (loop_body_greaterthan COMMENT VAR buff s _ room Hn
                   (not_eq_sym (told_apart fixed_character COMMENT GREATERTHAN HC eq_refl)))
      | |- loop_body _ _ _ _ EQUAL = _ =>
          exact (equal_pass COMMENT VAR buff s _
                   (not_eq_sym (told_apart fixed_character COMMENT EQUAL HC eq_refl))
                   room Hn)
      | |- _ =>
          eapply single_character_pass;
          [ unfold single_character_tokens; solve [repeat constructor]
          | apply (told_apart fixed_character COMMENT _ HC); reflexivity
          | exact room ]
      end
    | unfold passed; rewrite Hty, Hv;
      repeat split; first [reflexivity | exact scratch_empty | exact scratch_size] ].
Qed.

Lemma rendered_pass (t : Token) :
  well_formed t = true ->
  drop (Z.to_nat (s_bidx s)) buff = render VAR t ++ " "%char :: rest ->
  exists c s1,
    buff_at buff (s_bidx s) = Done c /\ c <> NUL
    /\ loop_body COMMENT VAR buff s c = Done s1
    /\ passed s s1 t (length (render VAR t)).
Proof.
  destruct (plain_markers_tests _ _ markers)
    as (HC & HCd & HCa & HCb & HV & HVd & HVa & HVb & HVC & HVN).
  unfold well_formed. cbv zeta. intros H.
  apply andb_true_iff in H. destruct H as [H Hkind].
  apply andb_true_iff in H. destruct H as [_ Hfit].
  apply Nat.ltb_lt in Hfit.
  destruct (String.eqb (type t) "OPERATOR") eqn:Ety;
    [apply String.eqb_eq in Ety; apply operator_pass; assumption|].
  destruct (String.eqb (type t) "LPAREN") eqn:Ety1.
  { apply String.eqb_eq in Ety1. apply String.eqb_eq in Hkind.
    replace (render VAR t) with [LPAREN]
      by (unfold render; rewrite Ety1, Hkind; reflexivity).
    intros Hbuf. destruct (buff_at_drop _ _ _ _ position Hbuf) as [Hc _].
    exists LPAREN, (token_appended s "LPAREN" "(" 1).
    split; [exact Hc|]. split; [discriminate|]. split.
    - apply single_character_pass;
        [ unfold single_character_tokens; solve [repeat constructor]
        | apply (told_apart fixed_character COMMENT _ HC); reflexivity
        | exact room ].
    - unfold passed. rewrite Ety1, Hkind.
      repeat split; first [reflexivity | exact scratch_empty | exact scratch_size]. }
  destruct (String.eqb (type t) "RPAREN") eqn:Ety2.
  { apply String.eqb_eq in Ety2. apply String.eqb_eq in Hkind.
    replace (render VAR t) with [RPAREN]
      by (unfold render; rewrite Ety2, Hkind; reflexivity).
    intros Hbuf. destruct (buff_at_drop _ _ _ _ position Hbuf) as [Hc _].
    exists RPAREN, (token_appended s "RPAREN" ")" 1).
    split; [exact Hc|]. split; [discriminate|]. split.
    - apply single_character_pass;
        [ unfold single_character_tokens; solve [repeat constructor]
        | apply (told_apart fixed_character COMMENT _ HC); reflexivity
        | exact room ].
    - unfold passed. rewrite Ety2, Hkind.
      repeat split; first [reflexivity | exact scratch_empty | exact scratch_size]. }
  destruct (String.eqb (type t) "STRING") eqn:Ety3.
  { apply String.eqb_eq in Ety3. apply forallb_true_Forall in Hkind.
    replace (render VAR t) with (DQUOTE :: list_ascii_of_string (value t) ++ [DQUOTE])
      by (unfold render; rewrite Ety3; reflexivity).
    cbn [app]. rewrite <- app_assoc. cbn [app]. intros Hbuf.
    destruct (buff_at_drop _ _ _ _ position Hbuf) as [Hc _].
    exists DQUOTE. eexists.
    split; [exact Hc|]. split; [discriminate|]. split.
    - apply (string_closed COMMENT VAR buff s (list_ascii_of_string (value t)) DQUOTE
               (" "%char :: rest)); try assumption; try reflexivity.
      apply not_eq_sym, (told_apart fixed_character COMMENT _ HC). reflexivity.
    - pose proof (length_terminated (s_store s) (list_ascii_of_string (value t))) as Hlen.
      unfold terminated in Hlen.
      unfold passed. cbn [s_bidx s_stctr s_store s_error s_out s_mgr].
      rewrite string_of_list_ascii_of_string, Ety3, Hlen
        by (rewrite scratch_size; exact Hfit).
      repeat split; try reflexivity; try assumption.
      rewrite length_cons, length_app. cbn [length]. lia. }
  destruct (String.eqb (type t) "IDENTIFIER") eqn:Ety4.
  { apply String.eqb_eq in Ety4. apply forallb_true_Forall in Hkind.
    replace (render VAR t) with (VAR :: list_ascii_of_string (value t))
      by (unfold render; rewrite Ety4; reflexivity).
    cbn [app]. intros Hbuf.
    destruct (buff_at_drop _ _ _ _ position Hbuf) as [Hc _].
    exists VAR. eexists.
    split; [exact Hc|]. split; [exact HVN|]. split.
    - apply (identifier_pass COMMENT VAR buff s position scratch_empty scratch_size
               (list_ascii_of_string (value t)) " "%char rest);
        try assumption; reflexivity.
    - apply (passed_text_token s t _ _ "IDENTIFIER"); try assumption; try reflexivity.
      rewrite length_cons. lia. }
  destruct (String.eqb (type t) "INTEGER") eqn:Ety5.
  { apply String.eqb_eq in Ety5.
    replace (render VAR t) with (list_ascii_of_string (value t))
      by (unfold render; rewrite Ety5; reflexivity).
    destruct (list_ascii_of_string (value t)) as [|c digits] eqn:Etext;
      [discriminate Hkind|].
    apply forallb_true_Forall in Hkind. intros Hbuf.
    assert (Hdigit : isdigit c = true) by (inversion Hkind; assumption).
    destruct (buff_at_drop _ _ _ _ position Hbuf) as [Hc _].
    exists c. eexists.
    split; [exact Hc|]. split; [intros ->; discriminate Hdigit|]. split.
    - apply (integer_pass COMMENT VAR buff s position scratch_empty scratch_size
               c digits " "%char rest); try assumption; try reflexivity.
      + exact (told_apart isdigit COMMENT c HCd Hdigit).
      + exact (told_apart isdigit VAR c HVd Hdigit).
    - apply (passed_text_token s t _ _ "INTEGER"); try assumption; reflexivity. }
  destruct (String.eqb (type t) "GROUP") eqn:Ety6.
  { apply String.eqb_eq in Ety6.
    replace (render VAR t) with (LBRACE :: list_ascii_of_string (value t) ++ [RBRACE])
      by (unfold render; rewrite Ety6; reflexivity).
    assert (Hname : list_ascii_of_string (value t) <> [])
      by (intros E; rewrite E in Hkind; discriminate Hkind).
    assert (Hall : Forall (fun x => is_valid_identifier x = true)
                     (list_ascii_of_string (value t))).
    { apply forallb_true_Forall.
      destruct (list_ascii_of_string (value t)); [discriminate Hkind | exact Hkind]. }
    cbn [app]. rewrite <- app_assoc. cbn [app]. intros Hbuf.
    destruct (buff_at_drop _ _ _ _ position Hbuf) as [Hc _].
    exists LBRACE. eexists.
    split; [exact Hc|]. split; [discriminate|]. split.
    - destruct (group_pass COMMENT VAR buff s position scratch_empty scratch_size
                  (list_ascii_of_string (value t)) RBRACE (" "%char :: rest)
                  HCb HVb Hbuf Hall eq_refl) as [_ Hgroup].
      destruct (Hgroup Hname Hfit) as [Hclosed _].
      exact (Hclosed eq_refl room).
    - apply (passed_text_token s t _ _ "GROUP"); try assumption; try reflexivity.
      rewrite length_cons, length_app. cbn [length]. lia. }
  destruct (String.eqb (type t) "KEYWORD") eqn:Ety7; [|discriminate Hkind].
  apply String.eqb_eq in Ety7.
  replace (render VAR t) with (list_ascii_of_string (value t))
    by (unfold render; rewrite Ety7; reflexivity).
  unfold spec_is_keyword in Hkind. cbn [existsb] in Hkind.
  repeat (apply orb_true_iff in Hkind;
          destruct Hkind as [Hkind|Hkind]; [apply String.eqb_eq in Hkind|]);
    try discriminate Hkind; rewrite <- Hkind; cbn [list_ascii_of_string]; intros Hbuf;
    destruct (buff_at_drop _ _ _ _ position Hbuf) as [Hc _];
    lazymatch type of Hbuf with
    | _ = (?c :: ?word) ++ _ =>
        exists c, (text_token s "KEYWORD" (c :: word) (Z.of_nat (length (c :: word))));
        (split; [exact Hc|]); (split; [discriminate|]); split;
        [ apply (keyword_pass COMMENT VAR buff s position scratch_empty scratch_size
                   c word " "%char rest);
          [ apply (told_apart isalpha COMMENT _ HCa); reflexivity
          | apply (told_apart isalpha VAR _ HVa); reflexivity
          | reflexivity
          | exact Hbuf
          | repeat constructor
          | reflexivity
          | unfold STORE_SIZE; cbn [length]; lia
          | reflexivity
          | exact room ]
        | apply (passed_text_token s t _ _ "KEYWORD");
          [ exact scratch_size | unfold STORE_SIZE; cbn [length]; lia
          | reflexivity | exact Ety7 | rewrite <- Hkind; reflexivity ] ]
    end.
Qed.

End RenderedToken.

Section RenderedSource.

Variables COMMENT VAR : ascii.
Variable buff : list ascii.
Variable m : TokenMgr.

Hypothesis markers : plain_markers COMMENT VAR = true.

(** From a head of the loop at which the tokens [ts] remain to be read,
    the scan reads them all and ends at the terminator. *)
Lemma source_scanned (ts : list Token) :
  Forall (fun t => well_formed t = true) ts ->
  forall (s : scanner) (addrs : list nat),
    loop_head COMMENT VAR buff m s ->
    s_error s = 0 -> 0 <= s_bidx s -> s_stctr s = 0 ->
    length (s_store s) = STORE_SIZE -> s_out s = [] ->
    holds (s_mgr s) addrs ->
    (length addrs + length ts <= length (toks (s_mgr s)))%nat ->
    drop (Z.to_nat (s_bidx s)) buff = source VAR ts ++ [NUL] ->
    exists mf,
      build_tokens COMMENT VAR (Some buff) (Some m) = Done (0, Some mf, [])
      /\ tokens mf
         = tokens (s_mgr s) ++ ((fun t => Some (new_token (type t) (value t))) <$> ts).
Proof.
  destruct (plain_markers_tests _ _ markers) as (HC & _).
  assert (Hcn : COMMENT <> NEWLINE)
    by exact (not_eq_sym (told_apart fixed_character COMMENT NEWLINE HC eq_refl)).
  induction 1 as [|t ts Ht _ IH];
    intros s addrs Hhead He Hpos Hst Hsize Hout Hholds Hroom Hbuf.
  - destruct (buff_at_drop _ _ _ _ Hpos Hbuf) as [Hread _].
    exists (s_mgr s). split.
    + rewrite (end_of_buffer COMMENT VAR buff m Hcn s Hhead Hread).
      unfold finish. rewrite He, Hout. reflexivity.
    + cbn [fmap list_fmap]. rewrite app_nil_r. reflexivity.
  - cbn [source] in Hbuf. rewrite <- app_assoc in Hbuf. cbn [app] in Hbuf.
    cbn [length] in Hroom.
    assert (Hin : in_bounds (toks (s_mgr s)) (tok_ctr (s_mgr s)) = true)
      by (apply (room_for_one_more _ addrs Hholds); lia).
    destruct (rendered_pass COMMENT VAR buff s _ markers Hpos Hst Hsize Hin t Ht Hbuf)
      as (c & s1 & Hread & Hc & Hbody & Hb1 & Hst1 & Hsize1 & He1 & Hout1 & Hmgr1).
    assert (Hhead1 := head_after_pass COMMENT VAR buff m s c s1 Hhead Hread Hc He Hbody).
    assert (Hbuf1 : drop (Z.to_nat (s_bidx s1)) buff
                    = " "%char :: source VAR ts ++ [NUL]).
    { rewrite Hb1, Z2Nat.inj_add, Nat2Z.id, <- drop_drop, Hbuf by lia.
      apply drop_app_length. }
    assert (Hpos1 : 0 <= s_bidx s1) by lia.
    destruct (buff_at_drop _ _ _ _ Hpos1 Hbuf1) as [Hread1 Hbuf2].
    assert (Hbody1 := space_pass COMMENT VAR buff s1 " "%char eq_refl
                        (told_apart fixed_character COMMENT " "%char HC eq_refl)
                        ltac:(discriminate)).
    assert (Hhead2 := head_after_pass COMMENT VAR buff m s1 " "%char _ Hhead1 Hread1
                        ltac:(discriminate) ltac:(congruence) Hbody1).
    assert (He2 : s_error (set_bidx s1 (s_bidx s1 + 1)) = 0) by (cbn; congruence).
    assert (Hpos2 : 0 <= s_bidx (set_bidx s1 (s_bidx s1 + 1))) by (cbn; lia).
    assert (Hout2 : s_out (set_bidx s1 (s_bidx s1 + 1)) = []) by (cbn; congruence).
    assert (Hholds2 : holds (s_mgr (set_bidx s1 (s_bidx s1 + 1)))
                        (addrs ++ [length (heap (s_mgr s))])).
    { cbn [s_mgr set_bidx]. rewrite Hmgr1. apply holds_with_token; assumption. }
    assert (Hroom2 : (length (addrs ++ [length (heap (s_mgr s))]) + length ts
                      <= length (toks (s_mgr (set_bidx s1 (s_bidx s1 + 1)))))%nat).
    { cbn [s_mgr set_bidx]. rewrite Hmgr1. cbn [toks with_token].
      rewrite length_insert, length_app. cbn [length]. lia. }
    destruct (IH (set_bidx s1 (s_bidx s1 + 1)) (addrs ++ [length (heap (s_mgr s))])
                Hhead2 He2 Hpos2 Hst1 Hsize1 Hout2 Hholds2 Hroom2 Hbuf2)
      as (mf & Hrun & Htoks).
    exists mf. split; [exact Hrun|].
    rewrite Htoks. cbn [s_mgr set_bidx]. rewrite Hmgr1.
    rewrite (tokens_with_token _ addrs) by assumption.
    rewrite <- app_assoc. reflexivity.
Qed.

End RenderedSource.

(** Tokens written out as source text scan back to themselves.
    Take any tokens as [build_tokens] makes them (well formed, no line
    assigned), write each one out (the characters of its operator, its
    value after the sigil, between braces or between quotes, or its
    value alone) with a space after it, and end the text with the
    terminator.  When the comment character and the sigil have no other
    meaning to the scanner and the token array has a slot for each
    token, the scan of that text returns 0, prints nothing and leaves
    exactly these tokens, in this order. *)
Theorem rendered_tokens_scan_back (COMMENT VAR : ascii) (cap : nat) (ts : list Token) :
  plain_markers COMMENT VAR = true ->
  Forall (fun t => well_formed t = true /\ no_line t) ts ->
  (length ts <= cap)%nat -> Z.of_nat cap < 2 ^ 64 ->
  scan COMMENT VAR cap (source VAR ts ++ [NUL]) = Done (0, Some <$> ts, []).
Proof.
  intros Hmarkers Hts Hcap Hsize.
  destruct (source_scanned COMMENT VAR (source VAR ts ++ [NUL]) (TokenMgr_new cap)
              Hmarkers ts (Forall_impl _ _ _ Hts (fun t H => proj1 H))
              (scanner_init (TokenMgr_new cap)) [])
    as (mf & Hrun & Htoks).
  - apply head_initial.
  - reflexivity.
  - cbn. lia.
  - reflexivity.
  - reflexivity.
  - reflexivity.
  - apply holds_new, Hsize.
  - cbn. rewrite length_replicate. lia.
  - reflexivity.
  - assert (Hsame : (fun t => Some (new_token (type t) (value t))) <$> ts = Some <$> ts).
    { clear -Hts. induction Hts as [|t ts [Hwf Hline] _ IH]; [reflexivity|].
      cbn [fmap list_fmap] in *. rewrite IH, (well_formed_new_token t Hwf Hline).
      reflexivity. }
    unfold scan. rewrite Hrun. cbn [bind from_option]. rewrite Htoks, Hsame.
    reflexivity.
Qed.

Lemma rendered_tokens_scan_back_witness :
  let ts := [new_token "KEYWORD" "print"; new_token "LPAREN" "(";
             new_token "IDENTIFIER" "x1"; new_token "OPERATOR" "GTEQTO";
             new_token "INTEGER" "42"; new_token "RPAREN" ")";
             new_token "GROUP" "body"; new_token "STRING" "a b"]%string in
  plain_markers "#" "$" = true
  /\ Forall (fun t => well_formed t = true /\ no_line t) ts
  /\ (length ts <= 8)%nat /\ Z.of_nat 8 < 2 ^ 64
  /\ scan "#" "$" 8 (source "$" ts ++ [NUL]) = Done (0, Some <$> ts, []).
Proof.
  cbv zeta.
  assert (H1 : plain_markers "#" "$" = true) by reflexivity.
  assert (H2 : Forall (fun t => well_formed t = true /\ no_line t)
                 [new_token "KEYWORD" "print"; new_token "LPAREN" "(";
                  new_token "IDENTIFIER" "x1"; new_token "OPERATOR" "GTEQTO";
                  new_token "INTEGER" "42"; new_token "RPAREN" ")";
                  new_token "GROUP" "body"; new_token "STRING" "a b"]%string)
    by (repeat constructor).
  assert (H3 : (8 <= 8)%nat) by lia.
  assert (H4 : Z.of_nat 8 < 2 ^ 64) by (vm_compute; reflexivity).
  split; [exact H1|]. split; [exact H2|]. split; [exact H3|]. split; [exact H4|].
  exact (rendered_tokens_scan_back "#" "$" 8 _ H1 H2 H3 H4).
Defined.

(** * Two-character operators *)

(** C9.  Two-character operators take the longer match.  Scanning [!=],
    [<=], [>=] and [><] yields exactly one token each, of type OPERATOR
    and value NOTEQUALTO, LTEQTO, GTEQTO, BETWEEN, and the lead
    character alone yields the one token NOT, LESSTHAN, GREATERTHAN.
    Wherever the loop meets a lead character in a buffer, the pass
    leaves the tokens of the store followed by one new token: the
    combined operator, with [bidx] two positions on, when the next
    character [n] is the extension, and the single-character operator,
    with [bidx] one position on, when it is not.  The comment character
    of tokens.h is taken to be none of the three lead characters, and
    the store to have a free slot. *)
Theorem operators_take_the_longer_match
    (COMMENT VAR : ascii) (cap : nat) (buff : list ascii) (s : scanner)
    (addrs : list nat) (n : ascii) :
  COMMENT <> BANG -> COMMENT <> LESSTHAN -> COMMENT <> GREATERTHAN ->
  holds (s_mgr s) addrs -> (length addrs < length (toks (s_mgr s)))%nat ->
  buff_at buff (s_bidx s + 1) = Done n ->
  (scan COMMENT VAR (S cap) (c_string "!=")
   = Done (0, [Some (mkToken "OPERATOR" "NOTEQUALTO" 10 None)], [])
   /\ scan COMMENT VAR (S cap) (c_string "<=")
      = Done (0, [Some (mkToken "OPERATOR" "LTEQTO" 6 None)], [])
   /\ scan COMMENT VAR (S cap) (c_string ">=")
      = Done (0, [Some (mkToken "OPERATOR" "GTEQTO" 6 None)], [])
   /\ scan COMMENT VAR (S cap) (c_string "><")
      = Done (0, [Some (mkToken "OPERATOR" "BETWEEN" 7 None)], [])
   /\ scan COMMENT VAR (S cap) (c_string "!")
      = Done (0, [Some (mkToken "OPERATOR" "NOT" 3 None)], [])
   /\ scan COMMENT VAR (S cap) (c_string "<")
      = Done (0, [Some (mkToken "OPERATOR" "LESSTHAN" 8 None)], [])
   /\ scan COMMENT VAR (S cap) (c_string ">")
      = Done (0, [Some (mkToken "OPERATOR" "GREATERTHAN" 11 None)], []))
  /\ (exists s1,
        loop_body COMMENT VAR buff s BANG = Done s1
        /\ if (n =? EQUAL)%char then appends s s1 "OPERATOR" "NOTEQUALTO" 2
           else appends s s1 "OPERATOR" "NOT" 1)
  /\ (exists s1,
        loop_body COMMENT VAR buff s LESSTHAN = Done s1
        /\ if (n =? EQUAL)%char then appends s s1 "OPERATOR" "LTEQTO" 2
           else appends s s1 "OPERATOR" "LESSTHAN" 1)
  /\ (exists s1,
        loop_body COMMENT VAR buff s GREATERTHAN = Done s1
        /\ if (n =? EQUAL)%char then appends s s1 "OPERATOR" "GTEQTO" 2
           else if (n =? LESSTHAN)%char then appends s s1 "OPERATOR" "BETWEEN" 2
           else appends s s1 "OPERATOR" "GREATERTHAN" 1).
Proof.
  intros Hb Hl Hg Hm Hlt Hn. assert (Hroom := room_for_one_more _ addrs Hm Hlt).
  split; [|split; [|split]].
  - assert (Hnew := in_bounds_new cap).
    repeat split.
    + apply (scan_single_operator _ _ _ _ BANG "NOTEQUALTO" 2); try reflexivity; [discriminate|].
      rewrite (loop_body_bang _ _ _ _ EQUAL); [reflexivity| exact Hnew | reflexivity | exact Hb].
    + apply (scan_single_operator _ _ _ _ LESSTHAN "LTEQTO" 2); try reflexivity; [discriminate|].
      rewrite (loop_body_lessthan _ _ _ _ EQUAL); [reflexivity| exact Hnew | reflexivity | exact Hl].
    + apply (scan_single_operator _ _ _ _ GREATERTHAN "GTEQTO" 2); try reflexivity; [discriminate|].
      rewrite (loop_body_greaterthan _ _ _ _ EQUAL); [reflexivity| exact Hnew | reflexivity | exact Hg].
    + apply (scan_single_operator _ _ _ _ GREATERTHAN "BETWEEN" 2); try reflexivity; [discriminate|].
      rewrite (loop_body_greaterthan _ _ _ _ LESSTHAN); [reflexivity| exact Hnew | reflexivity | exact Hg].
    + apply (scan_single_operator _ _ _ _ BANG "NOT" 1); try reflexivity; [discriminate|].
      rewrite (loop_body_bang _ _ _ _ NUL); [reflexivity| exact Hnew | reflexivity | exact Hb].
    + apply (scan_single_operator _ _ _ _ LESSTHAN "LESSTHAN" 1); try reflexivity; [discriminate|].
      rewrite (loop_body_lessthan _ _ _ _ NUL); [reflexivity| exact Hnew | reflexivity | exact Hl].
    + apply (scan_single_operator _ _ _ _ GREATERTHAN "GREATERTHAN" 1); try reflexivity; [discriminate|].
      rewrite (loop_body_greaterthan _ _ _ _ NUL); [reflexivity| exact Hnew | reflexivity | exact Hg].
  - eexists. split; [apply (loop_body_bang COMMENT VAR buff s n); assumption|].
    destruct (n =? EQUAL)%char; apply (operator_token_appends s addrs); assumption.
  - eexists. split; [apply (loop_body_lessthan COMMENT VAR buff s n); assumption|].
    destruct (n =? EQUAL)%char; apply (operator_token_appends s addrs); assumption.
  - eexists. split; [apply (loop_body_greaterthan COMMENT VAR buff s n); assumption|].
    destruct (n =? EQUAL)%char; [|destruct (n =? LESSTHAN)%char];
      apply (operator_token_appends s addrs); assumption.
Qed.

Lemma operators_take_the_longer_match_witness :
  let buff := c_string "3>=4" in
  let s := set_bidx (scanner_init (TokenMgr_new 4)) 1 in
  let n := "="%char in
  "#"%char <> BANG /\ "#"%char <> LESSTHAN /\ "#"%char <> GREATERTHAN
  /\ holds (s_mgr s) [] /\ (length (@nil nat) < length (toks (s_mgr s)))%nat
  /\ buff_at buff (s_bidx s + 1) = Done n
  /\ (scan "#"%char "$"%char 1%nat (c_string "!=")
      = Done (0, [Some (mkToken "OPERATOR" "NOTEQUALTO" 10 None)], [])
      /\ scan "#"%char "$"%char 1%nat (c_string "<=")
         = Done (0, [Some (mkToken "OPERATOR" "LTEQTO" 6 None)], [])
      /\ scan "#"%char "$"%char 1%nat (c_string ">=")
         = Done (0, [Some (mkToken "OPERATOR" "GTEQTO" 6 None)], [])
      /\ scan "#"%char "$"%char 1%nat (c_string "><")
         = Done (0, [Some (mkToken "OPERATOR" "BETWEEN" 7 None)], [])
      /\ scan "#"%char "$"%char 1%nat (c_string "!")
         = Done (0, [Some (mkToken "OPERATOR" "NOT" 3 None)], [])
      /\ scan "#"%char "$"%char 1%nat (c_string "<")
         = Done (0, [Some (mkToken "OPERATOR" "LESSTHAN" 8 None)], [])
      /\ scan "#"%char "$"%char 1%nat (c_string ">")
         = Done (0, [Some (mkToken "OPERATOR" "GREATERTHAN" 11 None)], []))
  /\ (exists s1,
        loop_body "#"%char "$"%char buff s BANG = Done s1
        /\ appends s s1 "OPERATOR" "NOTEQUALTO" 2)
  /\ (exists s1,
        loop_body "#"%char "$"%char buff s LESSTHAN = Done s1
        /\ appends s s1 "OPERATOR" "LTEQTO" 2)
  /\ (exists s1,
        loop_body "#"%char "$"%char buff s GREATERTHAN = Done s1
        /\ appends s s1 "OPERATOR" "GTEQTO" 2).
Proof.
  intros buff s n.
  assert (H0 : holds (s_mgr s) []) by (apply holds_new; reflexivity).
  assert (Hlt : (length (@nil nat) < length (toks (s_mgr s)))%nat) by (simpl; lia).
  split; [discriminate|]. split; [discriminate|]. split; [discriminate|].
  split; [exact H0|]. split; [exact Hlt|]. split; [reflexivity|].
  apply (operators_take_the_longer_match "#"%char "$"%char 0 buff s [] n);
    try discriminate; try assumption; reflexivity.
Defined.

(** * String literals and the bound of the scratch array *)

(** C8 (the code departs from the claim).  A string literal met by the
    loop anywhere in the buffer: the characters after the opening
    quote, up to the next quote, NUL or newline [t], are accumulated in
    [store].  While the text is shorter than the 100-byte scratch array
    the code does what the claim says: when [t] is the closing quote
    and the store has a free slot, the pass leaves the tokens of the
    store followed by one new token, of type STRING, whose value is the
    text, quotes excluded, with [bidx] past the closing quote; when [t]
    is NUL or a newline, the scan ends with status 1, nothing appended,
    and a report that names the accumulated text and the current line
    (line 1 for the unterminated literal [abc]).  But nothing tests
    [stctr]: a literal of 100 characters or more does not yield its
    token, the pass writes [store[100]] and the call is undefined.  The
    comment character of tokens.h is taken to be neither the quote nor
    the newline. *)
Theorem string_literal_token_or_overflow
    (COMMENT VAR : ascii) (buff : list ascii) (m : TokenMgr) (s : scanner)
    (addrs : list nat)
    (text : list ascii) (t : ascii) (post : list ascii) (cap : nat) :
  COMMENT <> DQUOTE -> COMMENT <> NEWLINE ->
  loop_head COMMENT VAR buff m s -> s_error s = 0 ->
  drop (Z.to_nat (s_bidx s)) buff = DQUOTE :: text ++ t :: post ->
  Forall (fun c => in_string c = true) text ->
  in_string t = false ->
  ((length text < STORE_SIZE)%nat -> t = DQUOTE ->
   holds (s_mgr s) addrs -> (length addrs < length (toks (s_mgr s)))%nat ->
   exists s1,
     loop_body COMMENT VAR buff s DQUOTE = Done s1
     /\ appends s s1 "STRING" (string_of_list_ascii text) (Z.of_nat (length text) + 2))
  /\ ((length text < STORE_SIZE)%nat -> t <> DQUOTE ->
      build_tokens COMMENT VAR (Some buff) (Some m)
      = Done (1, Some (s_mgr s),
              s_out s ++ [InvalidSyntax (string_of_list_ascii text) (s_lineno s)]))
  /\ ((STORE_SIZE <= length text)%nat ->
      loop_body COMMENT VAR buff s DQUOTE = Undefined StoreOverflow
      /\ build_tokens COMMENT VAR (Some buff) (Some m) = Undefined StoreOverflow)
  /\ ((length text < STORE_SIZE)%nat ->
      scan COMMENT VAR (S cap) (DQUOTE :: text ++ [DQUOTE; NUL])
      = Done (0, [Some (mkToken "STRING" (string_of_list_ascii text)
                                (Z.of_nat (length text)) None)], []))
  /\ scan COMMENT VAR cap (DQUOTE :: c_string "abc")
     = Done (1, [], [InvalidSyntax "abc" 1]).
Proof.
  intros HC HCN Hhead He Hlit Hin Hend.
  destruct (loop_head_invariant _ _ _ _ _ Hhead) as (Hpos & Hsz & _ & Hst).
  destruct (buff_at_drop _ _ _ _ Hpos Hlit) as [Hread _].
  split; [|split; [|split; [|split]]].
  - intros Hfit Ht Hm Hlt.
    destruct (string_literal_pass COMMENT VAR buff s text t post cap)
      as (Hclosed & _); auto.
    eexists. split; [exact (Hclosed Ht (room_for_one_more _ addrs Hm Hlt))|].
    replace (s_bidx s + Z.of_nat (length text) + 2)
      with (s_bidx s + (Z.of_nat (length text) + 2)) by lia.
    apply (text_token_appends s addrs "STRING" text); auto.
  - intros Hfit Ht.
    destruct (string_literal_pass COMMENT VAR buff s text t post cap)
      as (_ & Hopen & _); auto.
    cbv zeta in Hopen. destruct (Hopen Ht) as (Hbody & _ & Hfinish).
    rewrite (failing_pass COMMENT VAR buff m HCN s DQUOTE _ Hhead He Hread
               ltac:(discriminate) Hbody ltac:(discriminate)).
    exact Hfinish.
  - intros Hlong.
    assert (Hbody : loop_body COMMENT VAR buff s DQUOTE = Undefined StoreOverflow).
    { apply (overlong_string_pass COMMENT VAR buff s text t post); auto. }
    split; [exact Hbody|].
    apply (undefined_pass COMMENT VAR buff m HCN s DQUOTE); auto; discriminate.
  - intros Hfit.
    destruct (string_literal_pass COMMENT VAR buff s text t post cap)
      as (_ & _ & Hone & _); auto.
    rewrite Hone. unfold new_token. rewrite length_string_of_list_ascii. reflexivity.
  - destruct (string_literal_pass COMMENT VAR [DQUOTE; DQUOTE]
                (scanner_init (TokenMgr_new 0)) [] DQUOTE [] cap)
      as (_ & _ & _ & Habc); auto; try reflexivity; try (simpl; lia).
    unfold STORE_SIZE. simpl. lia.
Qed.

Lemma string_literal_token_or_overflow_witness :
  let m := with_token (TokenMgr_new 2) "INTEGER" "3" in
  let s := mkScanner (<[1%nat := Some NUL]> (<[0%nat := Some "3"%char]> store_new))
                     1 0 0 1 m [] in
  let text := list_ascii_of_string "abc" in
  let long := replicate 100 "a"%char in
  let closed := "3"%char :: DQUOTE :: text ++ [DQUOTE; NUL] in
  let unclosed := "3"%char :: DQUOTE :: text ++ [NEWLINE; NUL] in
  let overlong := "3"%char :: DQUOTE :: long ++ [DQUOTE; NUL] in
  ("#"%char <> DQUOTE /\ "#"%char <> NEWLINE
   /\ loop_head "#"%char "$"%char closed (TokenMgr_new 2) s
   /\ loop_head "#"%char "$"%char unclosed (TokenMgr_new 2) s
   /\ loop_head "#"%char "$"%char overlong (TokenMgr_new 2) s
   /\ s_error s = 0
   /\ drop (Z.to_nat (s_bidx s)) closed = DQUOTE :: text ++ DQUOTE :: [NUL]
   /\ drop (Z.to_nat (s_bidx s)) unclosed = DQUOTE :: text ++ NEWLINE :: [NUL]
   /\ drop (Z.to_nat (s_bidx s)) overlong = DQUOTE :: long ++ DQUOTE :: [NUL]
   /\ Forall (fun c => in_string c = true) text
   /\ Forall (fun c => in_string c = true) long
   /\ in_string DQUOTE = false /\ in_string NEWLINE = false
   /\ (length text < STORE_SIZE)%nat /\ (STORE_SIZE <= length long)%nat
   /\ holds (s_mgr s) [0%nat] /\ (length [0%nat] < length (toks (s_mgr s)))%nat
   /\ NEWLINE <> DQUOTE)
  /\ (exists s1,
        loop_body "#"%char "$"%char closed s DQUOTE = Done s1
        /\ appends s s1 "STRING" "abc" 5)
  /\ build_tokens "#"%char "$"%char (Some unclosed) (Some (TokenMgr_new 2))
     = Done (1, Some m, [InvalidSyntax "abc" 1])
  /\ build_tokens "#"%char "$"%char (Some overlong) (Some (TokenMgr_new 2))
     = Undefined StoreOverflow
  /\ scan "#"%char "$"%char 1 (DQUOTE :: text ++ [DQUOTE; NUL])
     = Done (0, [Some (mkToken "STRING" "abc" 3 None)], []).
Proof.
  intros m s text long closed unclosed overlong.
  assert (Hc : "#"%char <> DQUOTE) by discriminate.
  assert (Hcn : "#"%char <> NEWLINE) by discriminate.
  assert (Hh1 : loop_head "#"%char "$"%char closed (TokenMgr_new 2) s).
  { apply (head_after_pass _ _ _ _ (scanner_init (TokenMgr_new 2)) "3"%char);
      [apply head_initial | reflexivity | discriminate | reflexivity | reflexivity]. }
  assert (Hh2 : loop_head "#"%char "$"%char unclosed (TokenMgr_new 2) s).
  { apply (head_after_pass _ _ _ _ (scanner_init (TokenMgr_new 2)) "3"%char);
      [apply head_initial | reflexivity | discriminate | reflexivity | reflexivity]. }
  assert (Hh3 : loop_head "#"%char "$"%char overlong (TokenMgr_new 2) s).
  { apply (head_after_pass _ _ _ _ (scanner_init (TokenMgr_new 2)) "3"%char);
      [apply head_initial | reflexivity | discriminate | reflexivity
      | vm_compute; reflexivity]. }
  assert (Hin : Forall (fun c => in_string c = true) text) by (repeat constructor).
  assert (Hin' : Forall (fun c => in_string c = true) long)
    by (apply Forall_replicate; reflexivity).
  assert (Hfit : (length text < STORE_SIZE)%nat) by (vm_compute; lia).
  assert (Hlong : (STORE_SIZE <= length long)%nat) by (vm_compute; lia).
  assert (Hm : holds (s_mgr s) [0%nat]).
  { assert (Hnew : holds (TokenMgr_new 2) []) by (apply holds_new; reflexivity).
    exact (holds_with_token _ _ "INTEGER" "3" Hnew eq_refl). }
  assert (Hlt : (length [0%nat] < length (toks (s_mgr s)))%nat) by (simpl; lia).
  assert (Hnl : NEWLINE <> DQUOTE) by discriminate.
  assert (H1 := string_literal_token_or_overflow "#"%char "$"%char closed (TokenMgr_new 2) s
                  [0%nat] text DQUOTE [NUL] 0 Hc Hcn Hh1 eq_refl eq_refl Hin eq_refl).
  assert (H2 := string_literal_token_or_overflow "#"%char "$"%char unclosed (TokenMgr_new 2) s
                  [0%nat] text NEWLINE [NUL] 0 Hc Hcn Hh2 eq_refl eq_refl Hin eq_refl).
  assert (H3 := string_literal_token_or_overflow "#"%char "$"%char overlong (TokenMgr_new 2) s
                  [0%nat] long DQUOTE [NUL] 0 Hc Hcn Hh3 eq_refl eq_refl Hin' eq_refl).
  split.
  { repeat (split; [first [reflexivity | assumption]|]). assumption. }
  split; [exact (proj1 H1 Hfit eq_refl Hm Hlt)|].
  split; [exact (proj1 (proj2 H2) Hfit Hnl)|].
  split; [exact (proj2 (proj1 (proj2 (proj2 H3)) Hlong))|].
  exact (proj1 (proj2 (proj2 (proj2 H1))) Hfit).
Defined.

(** * The strings a scan hands to the token manager *)



